(** * crdbpool-tester: configuration, tracer helpers and workload orchestration

    A shallow embedding of the Go sources of the harness:
    - [Main]         : main.go (Config, parseFlags, validateConfig,
                       deriveWriterMax, redactedDSNInfo, the value printed
                       by the "config:" line);
    - [Tracer]       : tracer.go (safeArgs, safeRemoteAddr), on calls that
                       return;
    - [TracerFull]   : the same two functions, with the panics of Go;
    - [UrlPlain]     : [url.Parse] on strings that are in no URL form;
    - [Workload]     : the two goroutines started by [run], the two nested
                       errgroups and the shared context, as a transition
                       system driven by a schedule of actions;
    - [Orchestrator] : [run], and [main] once the flags are parsed, as
                       lists of effects;
    - [Program]      : [main] from the command line on;
    - [Invariant]    : what holds of the reachable states of [Workload];
    - [Progress]     : a bound on the actions a stream still takes, and
                       the schedule in which it moves alone;
    - [Demo]         : sample inputs;
    - [TracerLog]    : tracer.go (oneLine, TraceQueryStart, TraceQueryEnd);
    - [Census], [Verdict] : the numbers of events of a stream, and the
                       error of the group, in the reachable states;
    - [Legacy]       : the earlier main.go, as far as it sizes the pools;
    - [Example]      : the example program with one pool;
    - [Runs]         : more sample inputs.
    The properties follow, module by module.

    Go's [int] and [time.Duration] are 64-bit; they are modelled as [Z] and
    every arithmetic operation that can leave the range has its wrap-around
    written out.  Calls into libraries (flag, os, net/url, encoding/json,
    pgx, crdbpool, errgroup, context) are parameters or choices of the
    schedule. *)

From Stdlib Require Import ZArith String List Bool Lia.
From stdpp Require Import base tactics option list.
Import ListNotations.

Local Open Scope string_scope.
Local Open Scope Z_scope.

(** ** Machine integers *)

Module GoInt.

(** Two's complement reduction to [w] bits. *)
Definition wrap (w : Z) (z : Z) : Z :=
  (z + 2 ^ (w - 1)) mod 2 ^ w - 2 ^ (w - 1).

(** [int32(x)] and the result of 64-bit [int] arithmetic. *)
Definition int32 (z : Z) : Z := wrap 32 z.
Definition int64 (z : Z) : Z := wrap 64 z.

Definition in_int32 (z : Z) : Prop := - 2 ^ 31 <= z < 2 ^ 31.
Definition in_int64 (z : Z) : Prop := - 2 ^ 63 <= z < 2 ^ 63.

End GoInt.

(** ** main.go *)

Module Main.

(** [time.Duration] counts nanoseconds. *)
Definition Millisecond : Z := 1000000.
Definition Second : Z := 1000 * Millisecond.
Definition Minute : Z := 60 * Second.

Definition defaultIterations : Z := 1000.
Definition defaultTimeout : Z := 5 * Minute.
Definition defaultReaderMaxConns : Z := 12.
Definition defaultWriterSleep : Z := 50 * Millisecond.
Definition defaultReaderSleep : Z := 50 * Millisecond.
Definition defaultConcurrency : Z := 1.

Record Config : Type := mkConfig {
  Iterations : Z;
  Timeout : Z;
  ReaderMax : Z;
  WriterMax : Z;     (* 0 => derive from ReaderMax (1/3, min 1) *)
  ReaderSleep : Z;
  WriterSleep : Z;
  ReaderConc : Z;
  WriterConc : Z;
  DSN : string
}.

(** Field assignments [cfg.F = v]. *)
Definition set_Iterations (v : Z) (c : Config) : Config :=
  mkConfig v (Timeout c) (ReaderMax c) (WriterMax c) (ReaderSleep c)
           (WriterSleep c) (ReaderConc c) (WriterConc c) (DSN c).
Definition set_Timeout (v : Z) (c : Config) : Config :=
  mkConfig (Iterations c) v (ReaderMax c) (WriterMax c) (ReaderSleep c)
           (WriterSleep c) (ReaderConc c) (WriterConc c) (DSN c).
Definition set_ReaderMax (v : Z) (c : Config) : Config :=
  mkConfig (Iterations c) (Timeout c) v (WriterMax c) (ReaderSleep c)
           (WriterSleep c) (ReaderConc c) (WriterConc c) (DSN c).
Definition set_WriterMax (v : Z) (c : Config) : Config :=
  mkConfig (Iterations c) (Timeout c) (ReaderMax c) v (ReaderSleep c)
           (WriterSleep c) (ReaderConc c) (WriterConc c) (DSN c).
Definition set_ReaderSleep (v : Z) (c : Config) : Config :=
  mkConfig (Iterations c) (Timeout c) (ReaderMax c) (WriterMax c) v
           (WriterSleep c) (ReaderConc c) (WriterConc c) (DSN c).
Definition set_WriterSleep (v : Z) (c : Config) : Config :=
  mkConfig (Iterations c) (Timeout c) (ReaderMax c) (WriterMax c)
           (ReaderSleep c) v (ReaderConc c) (WriterConc c) (DSN c).
Definition set_ReaderConc (v : Z) (c : Config) : Config :=
  mkConfig (Iterations c) (Timeout c) (ReaderMax c) (WriterMax c)
           (ReaderSleep c) (WriterSleep c) v (WriterConc c) (DSN c).
Definition set_WriterConc (v : Z) (c : Config) : Config :=
  mkConfig (Iterations c) (Timeout c) (ReaderMax c) (WriterMax c)
           (ReaderSleep c) (WriterSleep c) (ReaderConc c) v (DSN c).

(** The fourteen variables [flag.Parse] fills in; a flag that is not given
    keeps its registered default, which is 0 for every one of them. *)
Record Flags : Type := mkFlags {
  itersShort : Z;
  itersLong : Z;
  timeoutShort : Z;
  timeoutLong : Z;
  readerShort : Z;
  readerLong : Z;
  writerShort : Z;
  writerLong : Z;
  readerSleepShort : Z;
  readerSleepLong : Z;
  writerSleepShort : Z;
  writerSleepLong : Z;
  readerConc : Z;
  writerConc : Z
}.

(** [if long > 0 { set long } else if short > 0 { set short }]. *)
Definition override2 (long short : Z) (set : Z -> Config -> Config)
           (cfg : Config) : Config :=
  if 0 <? long then set long cfg
  else if 0 <? short then set short cfg
  else cfg.

(** [if v > 0 { set v }]. *)
Definition override1 (v : Z) (set : Z -> Config -> Config)
           (cfg : Config) : Config :=
  if 0 <? v then set v cfg else cfg.

(** [parseFlags], after [flag.Parse]; [getenv] is what
    [os.Getenv("DATABASE_URL")] returned (the empty string when the
    variable is not present). *)
Definition parseFlags (fl : Flags) (getenv : string) : Config :=
  let cfg := mkConfig defaultIterations defaultTimeout defaultReaderMaxConns
                      0 defaultReaderSleep defaultWriterSleep
                      defaultConcurrency defaultConcurrency getenv in
  let cfg := override2 (itersLong fl) (itersShort fl) set_Iterations cfg in
  let cfg := override2 (timeoutLong fl) (timeoutShort fl) set_Timeout cfg in
  let cfg := override2 (readerLong fl) (readerShort fl) set_ReaderMax cfg in
  let cfg := override2 (writerLong fl) (writerShort fl) set_WriterMax cfg in
  let cfg := override2 (readerSleepLong fl) (readerSleepShort fl)
                       set_ReaderSleep cfg in
  let cfg := override2 (writerSleepLong fl) (writerSleepShort fl)
                       set_WriterSleep cfg in
  let cfg := override1 (readerConc fl) set_ReaderConc cfg in
  let cfg := override1 (writerConc fl) set_WriterConc cfg in
  cfg.

(** The errors [validateConfig] builds, with the values they print. *)
Inductive ConfigError : Type :=
| ErrDSNRequired
| ErrIterations (got : Z)
| ErrTimeout (got : Z)
| ErrReaderMax (got : Z)
| ErrConcurrency (reader writer : Z).

(** [validateConfig]; [None] is the nil error. *)
Definition validateConfig (cfg : Config) : option ConfigError :=
  if String.eqb (DSN cfg) "" then Some ErrDSNRequired
  else if Iterations cfg <=? 0 then Some (ErrIterations (Iterations cfg))
  else if Timeout cfg <=? 0 then Some (ErrTimeout (Timeout cfg))
  else if ReaderMax cfg <=? 0 then Some (ErrReaderMax (ReaderMax cfg))
  else if (ReaderConc cfg <=? 0) || (WriterConc cfg <=? 0)
       then Some (ErrConcurrency (ReaderConc cfg) (WriterConc cfg))
  else None.

(** The merge policy in the words of the specification: the long form when
    it is set and positive, otherwise the short form when positive,
    otherwise the default. *)
Definition long_short_default (long short dflt : Z) : Z :=
  if 0 <? long then long
  else if 0 <? short then short
  else dflt.

(** [deriveWriterMax]: Go's [/] truncates toward zero ([Z.quot]); the
    result is converted to [int32]. *)
Definition deriveWriterMax (readerMax writerMax : Z) : Z :=
  if 0 <? writerMax then GoInt.int32 writerMax
  else
    let wm := Z.quot readerMax 3 in
    let wm := if wm <? 1 then 1 else wm in
    GoInt.int32 wm.

(** The writer-max-conns argument of the "config:" log line of [run]:
    the closure [func() int { ... }()]. *)
Definition loggedWriterMax (cfg : Config) : Z :=
  if 0 <? WriterMax cfg then WriterMax cfg
  else Z.quot (GoInt.int64 (ReaderMax cfg + 2)) 3.

(** [writerCfg.MaxConns] as [run] sets it. *)
Definition writerPoolMaxConns (cfg : Config) : Z :=
  deriveWriterMax (ReaderMax cfg) (WriterMax cfg).

(** [readerCfg.MaxConns = int32(cfg.ReaderMax)]. *)
Definition readerPoolMaxConns (cfg : Config) : Z :=
  GoInt.int32 (ReaderMax cfg).

(** *** redactedDSNInfo

    [net/url] is the Go standard library; of a parsed [*url.URL] the
    function reads [Host], [Path] and [User.Username()]. *)

Record Userinfo : Type := mkUserinfo {
  username : string;
  password : string;
  passwordSet : bool
}.

Record URL : Type := mkURL {
  Scheme : string;
  Opaque : string;
  User : option Userinfo;      (* nil when the URL has no userinfo *)
  Host : string;
  Path : string;
  RawQuery : string;
  Fragment : string
}.

(** The method [Username] of a non-nil [Userinfo]. *)
Definition Username (u : Userinfo) : string := username u.

Section RedactedDSN.

(** [url.Parse]: [None] stands for a non-nil error. *)
Variable url_Parse : string -> option URL.

(** [fmt.Sprintf("host=%s db=%s user=%s", host, db, user)]. *)
Definition sprintf_host_db_user (host db user : string) : string :=
  ("host=" ++ host ++ " db=" ++ db ++ " user=" ++ user)%string.

Definition redactedDSNInfo (dsn : string) : string :=
  match url_Parse dsn with
  | None => "<invalid dsn>"
  | Some u =>
      let host := Host u in
      let db := Path u in
      let user := "" in
      let user := match User u with
                  | Some ui => Username ui
                  | None => user
                  end in
      sprintf_host_db_user host db user
  end.

End RedactedDSN.

(** The user name a URL carries, empty without userinfo. *)
Definition url_username (u : URL) : string :=
  match User u with
  | Some ui => username ui
  | None => ""
  end.

(** Two parsed URLs that differ at most in the password of their userinfo
    ([password] and [passwordSet]). *)
Definition same_but_password (u1 u2 : URL) : Prop :=
  Scheme u1 = Scheme u2 /\ Opaque u1 = Opaque u2 /\ Host u1 = Host u2
  /\ Path u1 = Path u2 /\ RawQuery u1 = RawQuery u2
  /\ Fragment u1 = Fragment u2
  /\ match User u1, User u2 with
     | Some a, Some b => username a = username b
     | None, None => True
     | _, _ => False
     end.

End Main.

(** ** tracer.go *)

Module Tracer.

(** *** safeArgs *)

Section SafeArgs.

(** The dynamic type [any] of a query argument and [json.Marshal] on it;
    [None] stands for a non-nil error, [Some b] for the bytes [b]. *)
Variable Any : Type.
Variable json_Marshal : Any -> option string.

(** [strings.Join]. *)
Definition strings_Join (elems : list string) (sep : string) : string :=
  String.concat sep elems.

(** The body of [for i, a := range args]: one assignment to [vals[i]]. *)
Definition safeArgs_body (i : nat) (a : Any) (vals : list string)
  : list string :=
  match json_Marshal a with
  | None => <[i := "<unmarshalable>"]> vals
  | Some b => <[i := b]> vals
  end.

(** The loop, from index [i] on, over the remaining arguments. *)
Fixpoint safeArgs_loop (i : nat) (args : list Any) (vals : list string)
  : list string :=
  match args with
  | [] => vals
  | a :: rest => safeArgs_loop (S i) rest (safeArgs_body i a vals)
  end.

(** [vals] when the loop is over; [make([]string, len(args))] is a slice of
    [len(args)] empty strings. *)
Definition safeArgs_vals (args : list Any) : list string :=
  safeArgs_loop 0 args (replicate (length args) "").

Definition safeArgs (args : list Any) : string :=
  ("[" ++ strings_Join (safeArgs_vals args) ", " ++ "]")%string.

(** What one argument is rendered as, in the words of the specification:
    its JSON encoding, or the fixed marker. *)
Definition rendered_arg (a : Any) : string :=
  match json_Marshal a with
  | Some b => b
  | None => "<unmarshalable>"
  end.

End SafeArgs.

(** *** safeRemoteAddr *)

(** A non-nil [net.Addr]: either a [*net.TCPAddr] or a value of any other
    dynamic type; [addr_String] is its [String()] method. *)
Inductive Addr : Type :=
| TCPAddr (str : string)
| OtherAddr (network str : string).

Definition addr_String (t : Addr) : string :=
  match t with
  | TCPAddr str => str
  | OtherAddr _ str => str
  end.

(** [net.Conn], of which only [RemoteAddr()] is used; [None] is a nil
    interface value. *)
Record NetConn : Type := mkNetConn { RemoteAddr : option Addr }.

(** [*pgx.Conn], of which only [PgConn().Conn()] is used: a connection
    with its [PgConn], as pgx hands it to a tracer ([TracerFull.PgxConn]
    is the general case). *)
Record Conn : Type := mkConn { PgConn_Conn : option NetConn }.

Definition safeRemoteAddr (conn : option Conn) : string :=
  match conn with
  | None => "<nil>"
  | Some c =>
      match PgConn_Conn c with
      | None => "<nil>"
      | Some nc =>
          match RemoteAddr nc with
          | None => "<nil>"
          | Some t =>
              match t with
              | TCPAddr _ => addr_String t
              | OtherAddr _ _ => "<remote>"
              end
          end
      end
  end.

(** The transport address of a connection, when every link to it is
    non-nil. *)
Definition transport_addr (conn : option Conn) : option Addr :=
  match conn with
  | Some c =>
      match PgConn_Conn c with
      | Some nc => RemoteAddr nc
      | None => None
      end
  | None => None
  end.

End Tracer.

(** ** tracer.go, with the panics of Go

    [Tracer] takes [json.Marshal] as a function that returns, and a
    connection as pgx hands it to a tracer, with its [PgConn].  Here a call
    may panic as well: [json.Marshal] passes on the panic of an argument's
    own [MarshalJSON] or [MarshalText], and the [pgConn] of a [*pgx.Conn]
    may be nil. *)

Module TracerFull.

Import Tracer.
Local Open Scope list_scope.

(** A call returns a value, or panics. *)
Inductive Outcome (A : Type) : Type :=
| Returns (a : A)
| Panics.

Arguments Returns {A} a.
Arguments Panics {A}.

(** [json.Marshal]: the bytes, a non-nil error, or a panic. *)
Inductive Marshaled : Type :=
| Bytes (b : string)
| MarshalError
| MarshalPanic.

(** The [Marshaled] of a call that returns, as [Tracer] has it. *)
Definition returned (m : Marshaled) : option string :=
  match m with
  | Bytes b => Some b
  | MarshalError | MarshalPanic => None
  end.

Section SafeArgs.

Variable Any : Type.
Variable json_Marshal : Any -> Marshaled.

(** The body of [for i, a := range args]; [safeArgs] has no [recover]. *)
Definition safeArgs_body (i : nat) (a : Any) (vals : list string)
  : Outcome (list string) :=
  match json_Marshal a with
  | MarshalPanic => Panics
  | MarshalError => Returns (<[i := "<unmarshalable>"]> vals)
  | Bytes b => Returns (<[i := b]> vals)
  end.

Fixpoint safeArgs_loop (i : nat) (args : list Any) (vals : list string)
  : Outcome (list string) :=
  match args with
  | [] => Returns vals
  | a :: rest =>
      match safeArgs_body i a vals with
      | Returns vals' => safeArgs_loop (S i) rest vals'
      | Panics => Panics
      end
  end.

Definition safeArgs_vals (args : list Any) : Outcome (list string) :=
  safeArgs_loop 0 args (replicate (length args) "").

Definition safeArgs (args : list Any) : Outcome string :=
  match safeArgs_vals args with
  | Returns vals => Returns ("[" ++ strings_Join vals ", " ++ "]")%string
  | Panics => Panics
  end.

(** What an argument is rendered as when [json.Marshal] returns. *)
Definition rendered (a : Any) : string :=
  match json_Marshal a with
  | Bytes b => b
  | MarshalError | MarshalPanic => "<unmarshalable>"
  end.

End SafeArgs.

(** [*pgconn.PgConn], of which [Conn()] reads the field [conn], a
    [net.Conn] (nil interface value: [None]). *)
Record PgConn : Type := mkPgConn { pg_conn : option NetConn }.

(** [*pgx.Conn], of which [PgConn()] returns the field [pgConn], a pointer
    that may be nil. *)
Record PgxConn : Type := mkPgxConn { pgConn : option PgConn }.

(** [safeRemoteAddr]: [conn.PgConn().Conn()] calls [Conn] on what
    [PgConn()] returned, and [Conn] reads a field of its receiver: on a nil
    [pgConn] this is a nil pointer dereference. *)
Definition safeRemoteAddr (conn : option PgxConn) : Outcome string :=
  match conn with
  | None => Returns "<nil>"%string
  | Some c =>
      match pgConn c with
      | None => Panics
      | Some pg =>
          match pg_conn pg with
          | None => Returns "<nil>"%string
          | Some nc =>
              match RemoteAddr nc with
              | None => Returns "<nil>"%string
              | Some t =>
                  match t with
                  | TCPAddr _ => Returns (addr_String t)
                  | OtherAddr _ _ => Returns "<remote>"%string
                  end
              end
          end
      end
  end.

(** The connection is nil or holds its [PgConn], as every connection that
    pgx hands to a tracer does. *)
Definition holds_PgConn (conn : option PgxConn) : Prop :=
  forall c, conn = Some c -> pgConn c <> None.

(** The transport address of a connection, when every link to it is
    non-nil. *)
Definition transport_addr (conn : option PgxConn) : option Addr :=
  match conn with
  | Some c =>
      match pgConn c with
      | Some pg =>
          match pg_conn pg with
          | Some nc => RemoteAddr nc
          | None => None
          end
      | None => None
      end
  | None => None
  end.

(** The same connection as [Tracer] has it. *)
Definition with_PgConn (conn : option PgxConn) : option Conn :=
  match conn with
  | Some c =>
      match pgConn c with
      | Some pg => Some (mkConn (pg_conn pg))
      | None => None
      end
  | None => None
  end.

End TracerFull.

(** ** net/url on a string that is in no URL form *)

Module UrlPlain.

Import Main.
Local Open Scope list_scope.

(** The bytes at which [url.Parse] stops taking a string as a bare path: a
    control character (the string is refused), [:] (a scheme, or refused
    in the first segment of a path), [?] (a query), [#] (a fragment), [%]
    (an escape). *)
Definition special (c : Ascii.ascii) : bool :=
  let n := Ascii.nat_of_ascii c in
  (n <? 32)%nat || (n =? 127)%nat || (n =? 58)%nat || (n =? 63)%nat
  || (n =? 35)%nat || (n =? 37)%nat.

(** A string without such a byte that does not begin with a slash. *)
Definition plain (s : string) : bool :=
  negb (String.prefix "/" s)
  && forallb (fun c => negb (special c)) (list_ascii_of_string s).

(** [url.Parse] on a plain string: it finds no scheme, no authority, no
    query and no fragment, unescapes nothing, and returns the URL whose
    path is the whole string.  On the other strings [other] is asked. *)
Definition url_Parse (other : string -> option URL) (s : string)
  : option URL :=
  if plain s then Some (mkURL "" "" None "" s "" "") else other s.

(** A DSN in the keyword/value form of libpq, which pgx accepts. *)
Definition keyword_value_dsn (password : string) : string :=
  ("host=db port=26257 user=app password=" ++ password ++ " dbname=bank")%string.

End UrlPlain.

(** ** The concurrent workload of [run]

    [run] starts two goroutines in the errgroup [g], whose context is
    [gctx]; each round of a goroutine starts the members of a fresh
    errgroup [grp] and waits for them.  The scheduler and the outside world
    (the retry pool, the timers, the deadline of [ctxRun], the caller of
    [run] who may cancel its ctx) choose the next [Action]; [step] is what
    the code does then. *)

Module Workload.

Import Main.
Local Open Scope list_scope.

(** [context.Canceled] and [context.DeadlineExceeded]. *)
Inductive CtxErr : Type := Canceled | DeadlineExceeded.

(** Go [error] values met by the workload: [gctx.Err()], an error of the
    retry pool, and [fmt.Errorf(prefix + "%w", err)]. *)
Inductive Error : Type :=
| ErrCtx (c : CtxErr)
| ErrPool (msg : string)
| ErrWrap (prefix : string) (e : Error).

Inductive Stream : Type := Reader | Writer.

(** Where a stream's goroutine stands. *)
Inductive PC : Type :=
| PStart                         (* launched by g.Go, nothing run yet *)
| PDDL                           (* writer: inside QueryFunc(sqlEnsureTable) *)
| PLoop (i : Z)                  (* at [i < cfg.Iterations] of the outer for *)
| PSpawn (i j : Z)               (* at [j < conc] of the inner for *)
| PWait (i : Z)                  (* inside grp.Wait() *)
| PSleep (i : Z)                 (* inside the select after the batch *)
| PReturned (r : option Error).  (* the goroutine returned r *)

(** Log lines, and the points of the execution the claims speak about. *)
Inductive Event : Type :=
| EvStarted (s : Stream)                   (* "[s] goroutine started" *)
| EvEnsuring                               (* "[writer] ensuring table exists" *)
| EvCtxDone (s : Stream) (c : CtxErr)      (* "[s] context done: %v" *)
| EvRound (s : Stream) (i : Z)             (* errgroup.WithContext(gctx) of round i *)
| EvLaunch (s : Stream) (i j : Z)          (* grp.Go of member j *)
| EvPing (i : Z)                           (* "[reader] ping %d DB time: %s" *)
| EvUpsertOk                               (* "[writer] upsert ok, ts: %s" *)
| EvQueryError (s : Stream) (e : Error)    (* "[s] query error: %v" *)
| EvMemberReturn (s : Stream) (i j : Z) (r : option Error)
                                           (* member j returned r to grp *)
| EvBatchError (s : Stream) (e : Error)    (* "[s] batch error: %v (continuing)" *)
| EvBarrier (s : Stream) (i : Z)           (* grp.Wait() of round i returned *)
| EvDone (s : Stream)                      (* "[s] done" *)
| EvReturn (s : Stream) (r : option Error). (* the goroutine returned r to g *)

(** One stream: its goroutine, the members of [grp] that were started and
    have not returned (round, index), the first error given to [grp], and
    what the goroutine and its members have done so far, newest first. *)
Record StreamSt : Type := mkStreamSt {
  pc : PC;
  running : list (Z * Z);
  grpErr : option Error;
  hist : list Event
}.

Record State : Type := mkState {
  gctx : option CtxErr;      (* gctx.Err(); None while gctx is not done *)
  gErr : option Error;       (* the error g.Wait() will return *)
  rd : StreamSt;
  wr : StreamSt
}.

Definition stream (s : Stream) (st : State) : StreamSt :=
  match s with Reader => rd st | Writer => wr st end.

Definition set_stream (s : Stream) (x : StreamSt) (st : State) : State :=
  match s with
  | Reader => mkState (gctx st) (gErr st) x (wr st)
  | Writer => mkState (gctx st) (gErr st) (rd st) x
  end.

(** Stream [s] does [evs] (newest first) and goes on at [p]. *)
Definition goto (s : Stream) (p : PC) (evs : list Event) (st : State)
  : State :=
  let x := stream s st in
  set_stream s (mkStreamSt p (running x) (grpErr x) (evs ++ hist x)) st.

(** What the scheduler and the outside world can do next. *)
Inductive Action : Type :=
| ADeadline                       (* the deadline of ctxRun passes *)
| ARun (s : Stream)               (* the goroutine of s runs to its next point *)
| ADDLResult (r : option Error)   (* QueryFunc(sqlEnsureTable) returns r *)
| AQueryResult (s : Stream) (i j : Z) (r : option Error)
                                  (* QueryRowFunc of member (i, j) returns r *)
| ATimer (s : Stream)             (* the time.After case of the select is taken *)
| AParentCancel.                  (* the caller cancels the ctx given to run *)

(** The stream an action belongs to. *)
Definition actor (a : Action) : option Stream :=
  match a with
  | ADeadline => None
  | ARun s => Some s
  | ADDLResult _ => Some Writer
  | AQueryResult s _ _ _ => Some s
  | ATimer s => Some s
  | AParentCancel => None
  end.

Definition Stream_eq_dec (s s' : Stream) : {s = s'} + {s <> s'}.
Proof. decide equality. Defined.

(** [cfg.ReaderConc] or [cfg.WriterConc]. *)
Definition conc (cfg : Config) (s : Stream) : Z :=
  match s with Reader => ReaderConc cfg | Writer => WriterConc cfg end.

(** [errgroup]'s [cancel] of [gctx]: the first cause stays. *)
Definition cancel (g : option CtxErr) : option CtxErr :=
  match g with
  | None => Some Canceled
  | Some c => Some c
  end.

(** The function given to [g.Go] returns [r], after [evs]: errgroup keeps
    the first non-nil error and cancels [gctx] with it. *)
Definition goReturn (s : Stream) (r : option Error) (evs : list Event)
           (st : State) : State :=
  let st := goto s (PReturned r) (EvReturn s r :: evs) st in
  match r with
  | None => st
  | Some e =>
      match gErr st with
      | Some _ => st
      | None => mkState (cancel (gctx st)) (Some e) (rd st) (wr st)
      end
  end.

(** The function given to [grp.Go], once the query has returned [r]: the
    log line it writes and the error it returns to [grp]. *)
Definition member (s : Stream) (i : Z) (r : option Error)
  : list Event * option Error :=
  match s with
  | Reader =>
      (* the row callback logs the ping; then [if err != nil { log }] and
         [return nil] *)
      match r with
      | Some err => ([EvQueryError Reader err], None)
      | None => ([EvPing (i + 1)], None)
      end
  | Writer =>
      match r with
      | Some err => ([EvQueryError Writer err], None)
      | None => ([EvUpsertOk], None)
      end
  end.

(** Members are told apart by round and index. *)
Definition pair_eqb (p q : Z * Z) : bool :=
  (fst p =? fst q) && (snd p =? snd q).

(** Member [(i, j)] of [grp] returned [mr], after [evs]: [grp] keeps the
    first non-nil error. *)
Definition grpDone (s : Stream) (i j : Z) (mr : option Error)
           (evs : list Event) (st : State) : State :=
  let x := stream s st in
  let ge := match mr, grpErr x with
            | Some e, None => Some e
            | _, ge => ge
            end in
  let run' := List.filter (fun p => negb (pair_eqb p (i, j))) (running x) in
  set_stream s (mkStreamSt (pc x) run' ge
                           (EvMemberReturn s i j mr :: evs ++ hist x)) st.

(** The goroutine of [s] runs from its current point to the next one;
    [None] when it is blocked there. *)
Definition run_stream (cfg : Config) (s : Stream) (st : State)
  : option State :=
  let x := stream s st in
  match pc x with
  | PStart =>
      match s with
      | Reader => Some (goto Reader (PLoop 0) [EvStarted Reader] st)
      | Writer => Some (goto Writer PDDL [EvEnsuring; EvStarted Writer] st)
      end
  | PDDL => None
  | PLoop i =>
      if i <? Iterations cfg then
        match gctx st with
        | Some c =>
            (* case <-gctx.Done(): log and return gctx.Err() *)
            Some (goReturn s (Some (ErrCtx c)) [EvCtxDone s c] st)
        | None =>
            (* default: a new grp for this round *)
            Some (set_stream s (mkStreamSt (PSpawn i 0) [] None
                                           (EvRound s i :: hist x)) st)
        end
      else
        Some (goReturn s None [EvDone s] st)
  | PSpawn i j =>
      if j <? conc cfg s then
        Some (set_stream s (mkStreamSt (PSpawn i (j + 1))
                                       ((i, j) :: running x) (grpErr x)
                                       (EvLaunch s i j :: hist x)) st)
      else Some (goto s (PWait i) [] st)
  | PWait i =>
      match running x with
      | [] =>
          let evs := match grpErr x with
                     | Some e => [EvBatchError s e; EvBarrier s i]
                     | None => [EvBarrier s i]
                     end in
          Some (goto s (PSleep i) evs st)
      | _ :: _ => None
      end
  | PSleep i =>
      match gctx st with
      | Some c => Some (goReturn s (Some (ErrCtx c)) [] st)
      | None => None
      end
  | PReturned _ => None
  end.

Definition step (cfg : Config) (a : Action) (st : State) : option State :=
  match a with
  | ADeadline =>
      match gctx st with
      | Some _ => Some st
      | None => Some (mkState (Some DeadlineExceeded) (gErr st) (rd st) (wr st))
      end
  | ARun s => run_stream cfg s st
  | ADDLResult r =>
      match pc (wr st) with
      | PDDL =>
          match r with
          | Some err =>
              Some (goReturn Writer (Some (ErrWrap "writer DDL: " err)) [] st)
          | None => Some (goto Writer (PLoop 0) [] st)
          end
      | _ => None
      end
  | AQueryResult s i j r =>
      if existsb (pair_eqb (i, j)) (running (stream s st)) then
        let '(evs, mr) := member s i r in
        Some (grpDone s i j mr evs st)
      else None
  | ATimer s =>
      match pc (stream s st) with
      | PSleep i => Some (goto s (PLoop (i + 1)) [] st)
      | _ => None
      end
  | AParentCancel =>
      (* ctxRun and gctx are children of ctx: they are done with it, unless
         they were done before *)
      match gctx st with
      | Some _ => Some st
      | None => Some (mkState (Some Canceled) (gErr st) (rd st) (wr st))
      end
  end.

(** A schedule, action by action. *)
Fixpoint exec (cfg : Config) (acts : list Action) (st : State)
  : option State :=
  match acts with
  | [] => Some st
  | a :: rest =>
      match step cfg a st with
      | Some st' => exec cfg rest st'
      | None => None
      end
  end.

(** The state in which [run] has called [g.Go] twice. *)
Definition init : State :=
  mkState None None (mkStreamSt PStart [] None [])
          (mkStreamSt PStart [] None []).

(** [g.Wait()]: defined once both goroutines have returned. *)
Definition gWait (st : State) : option (option Error) :=
  match pc (rd st), pc (wr st) with
  | PReturned _, PReturned _ => Some (gErr st)
  | _, _ => None
  end.

End Workload.

(** ** [run] and [main]

    What [main] does to the outside world, in order, for given outcomes of
    the calls it makes into the libraries. *)

Module Orchestrator.

Import Main Workload.
Local Open Scope list_scope.

(** The error [main] gives to [log.Fatal]. *)
Inductive MainError : Type :=
| ErrConfig (e : ConfigError)
| ErrRun (e : Error).

Inductive Effect : Type :=
| FxLogConfig (cfg : Config) (writerMax : Z) (dsnInfo : string)
                                      (* the "config: ..." line *)
| FxParsePoolConfig (dsn : string)    (* pgxpool.ParseConfig(dsn) *)
| FxNewNodeHealthChecker (dsn : string)
| FxGoPoll                            (* go ht.Poll(ctxPoll, healthPollInterval) *)
| FxNewRetryPool (name : string) (maxConns : Z)
| FxLogStarting                       (* "starting concurrent workload ..." *)
| FxWorkload (reader writer : list Event)
                                      (* the two goroutines, oldest event first *)
| FxLogComplete                       (* "workload complete" *)
| FxPoolClose (name : string)         (* deferred Close *)
| FxCancelPoll                        (* deferred cancelPoll *)
| FxFatal (e : MainError).            (* log.Fatal / log.Fatalf: os.Exit(1) *)

(** How the calls into pgxpool and crdbpool turn out, and how the
    goroutines are scheduled. *)
Record World : Type := mkWorld {
  parseConfig_err : option Error;
  newNodeHealthChecker_err : option Error;
  newReaderPool_err : option Error;
  newWriterPool_err : option Error;
  schedule : list Action
}.

Inductive Outcome : Type :=
| Exit1                        (* the process left through log.Fatalf *)
| Return (r : option Error)    (* run returned r *)
| Running.                     (* the schedule ends before g.Wait() returns *)

Section Run.

Variable url_Parse : string -> option URL.

(** [run]; a schedule that cannot be executed, or that ends before both
    goroutines have returned, leaves [run] inside [g.Wait()]. *)
Definition run (cfg : Config) (w : World) : list Effect * Outcome :=
  let fx := [FxLogConfig cfg (loggedWriterMax cfg)
                         (redactedDSNInfo url_Parse (DSN cfg))] in
  (* mustParsePoolConfig *)
  let fx := fx ++ [FxParsePoolConfig (DSN cfg)] in
  match parseConfig_err w with
  | Some e => (fx ++ [FxFatal (ErrRun (ErrWrap "parse config: " e))], Exit1)
  | None =>
  let fx := fx ++ [FxNewNodeHealthChecker (DSN cfg)] in
  match newNodeHealthChecker_err w with
  | Some e => (fx, Return (Some (ErrWrap "create health tracker: " e)))
  | None =>
  let fx := fx ++ [FxGoPoll;
                   FxNewRetryPool "reader" (readerPoolMaxConns cfg)] in
  match newReaderPool_err w with
  | Some e =>
      (fx ++ [FxCancelPoll], Return (Some (ErrWrap "create reader pool: " e)))
  | None =>
  let fx := fx ++ [FxNewRetryPool "writer" (writerPoolMaxConns cfg)] in
  match newWriterPool_err w with
  | Some e =>
      (fx ++ [FxPoolClose "reader"; FxCancelPoll],
       Return (Some (ErrWrap "create writer pool: " e)))
  | None =>
  let fx := fx ++ [FxLogStarting] in
  match exec cfg (schedule w) init with
  | None => (fx, Running)
  | Some st =>
      let fx := fx ++ [FxWorkload (rev (hist (rd st)))
                                  (rev (hist (wr st)))] in
      match gWait st with
      | None => (fx, Running)
      | Some (Some e) =>
          (fx ++ [FxPoolClose "writer"; FxPoolClose "reader"; FxCancelPoll],
           Return (Some e))
      | Some None =>
          (fx ++ [FxLogComplete;
                  FxPoolClose "writer"; FxPoolClose "reader"; FxCancelPoll],
           Return None)
      end
  end end end end end.

(** [main]: the effects, and the exit status once the process has ended. *)
Definition main (fl : Flags) (getenv : string) (w : World)
  : list Effect * option Z :=
  let cfg := parseFlags fl getenv in
  match validateConfig cfg with
  | Some err => ([FxFatal (ErrConfig err)], Some 1)
  | None =>
      match run cfg w with
      | (fx, Exit1) => (fx, Some 1)
      | (fx, Return (Some err)) => (fx ++ [FxFatal (ErrRun err)], Some 1)
      | (fx, Return None) => (fx, Some 0)
      | (fx, Running) => (fx, None)
      end
  end.

(** The effects that create a pool, the health checker or a background
    task. *)
Definition creates_resource (fx : Effect) : bool :=
  match fx with
  | FxParsePoolConfig _ | FxNewNodeHealthChecker _ | FxGoPoll
  | FxNewRetryPool _ _ | FxWorkload _ _ => true
  | _ => false
  end.

End Run.

End Orchestrator.

(** ** The command line *)

Module Program.

Import Main Workload Orchestrator.
Local Open Scope list_scope.

(** What [flag.Parse] makes of the command line.  The flag set is
    [flag.CommandLine], whose error handling is [flag.ExitOnError]: either
    the flags are parsed and [flag.Parse] returns; or the command line
    asks for help ([-h] or [-help], which [parseFlags] does not define),
    and [flag.Parse] prints the usage and calls [os.Exit(0)]; or it does
    not parse (a flag that is not defined, a value that is no number or
    duration), and [flag.Parse] prints the error and the usage and calls
    [os.Exit(2)]. *)
Inductive CommandLine : Type :=
| Parsed (fl : Flags)
| Help
| BadFlag.

(** What the process writes and does: what [flag] prints, and the effects
    of [main] once [flag.Parse] has returned. *)
Inductive Output : Type :=
| OutUsage
| OutFlagError
| OutEffect (fx : Effect).

Section Main.

Variable url_Parse : string -> option URL.

(** [main] from the first line on: [parseFlags] calls [flag.Parse] before
    anything else; [Orchestrator.main] is the rest. *)
Definition main (args : CommandLine) (getenv : string) (w : World)
  : list Output * option Z :=
  match args with
  | Help => ([OutUsage], Some 0)
  | BadFlag => ([OutFlagError; OutUsage], Some 2)
  | Parsed fl =>
      let (fx, status) := Orchestrator.main url_Parse fl getenv w in
      (map OutEffect fx, status)
  end.

End Main.

End Program.

(** ** What holds of the reachable states of the workload *)

Module Invariant.

Import Main Workload.
Local Open Scope list_scope.

(** [gctx] is done with the same cause from [g] to [g']. *)
Definition stays_done (g g' : option CtxErr) : Prop :=
  forall c, g = Some c -> g' = Some c.

(** The barriers of the rounds before round [i] are in the history. *)
Definition rounds_done (s : Stream) (i : Z) (h : list Event) : Prop :=
  forall k, 0 <= k < i -> In (EvBarrier s k) h.

(** What a goroutine may return: nil after all its rounds, [gctx.Err()]
    when [gctx] is done, and for the writer the wrapped error of the DDL,
    before any round. *)
Definition result_ok (cfg : Config) (s : Stream) (g : option CtxErr)
           (h : list Event) (r : option Error) : Prop :=
  match r with
  | None => rounds_done s (Iterations cfg) h
  | Some (ErrCtx c) => g = Some c
  | Some (ErrWrap p _) =>
      s = Writer /\ p = "writer DDL: "%string
      /\ forall i, ~ In (EvRound s i) h
  | Some (ErrPool _) => False
  end.

(** What holds at each point of the goroutine of [s]. *)
Definition at_pc (cfg : Config) (s : Stream) (g : option CtxErr)
           (x : StreamSt) : Prop :=
  match pc x with
  | PStart => running x = [] /\ hist x = []
  | PDDL => running x = [] /\ s = Writer /\ forall i, ~ In (EvRound s i) (hist x)
  | PLoop i => running x = [] /\ 0 <= i /\ rounds_done s i (hist x)
  | PSpawn i n =>
      0 <= i /\ rounds_done s i (hist x) /\ 0 <= n
      /\ forall j, 0 <= j < n ->
           In (EvLaunch s i j) (hist x)
           /\ (In (i, j) (running x) \/ In (EvMemberReturn s i j None) (hist x))
  | PWait i =>
      0 <= i /\ rounds_done s i (hist x)
      /\ forall j, 0 <= j < conc cfg s ->
           In (EvLaunch s i j) (hist x)
           /\ (In (i, j) (running x) \/ In (EvMemberReturn s i j None) (hist x))
  | PSleep i => running x = [] /\ 0 <= i /\ rounds_done s (i + 1) (hist x)
  | PReturned r => running x = [] /\ result_ok cfg s g (hist x) r
  end.

(** What must hold of the events [h] before it when stream [s] does
    [e]. *)
Definition event_ok (cfg : Config) (s : Stream) (h : list Event)
           (e : Event) : Prop :=
  match e with
  | EvBatchError s' _ => s' <> s
  | EvMemberReturn s' _ _ r => s' = s -> r = None
  | EvBarrier s' i =>
      s' = s ->
      forall j, 0 <= j < conc cfg s ->
        In (EvLaunch s i j) h /\ In (EvMemberReturn s i j None) h
  | EvRound s' i =>
      s' = s -> 0 < i -> In (EvBarrier s (i - 1)) h
  | _ => True
  end.

(** Every event of a history (newest first) was in order when it was
    done. *)
Fixpoint hinv (cfg : Config) (s : Stream) (h : list Event) : Prop :=
  match h with
  | [] => True
  | e :: h' => event_ok cfg s h' e /\ hinv cfg s h'
  end.

(** The invariant of one stream: [grp] holds no error, the history is in
    order, and the goroutine's point agrees with both. *)
Record sinv (cfg : Config) (s : Stream) (g : option CtxErr) (x : StreamSt)
  : Prop := mk_sinv {
  sinv_grp : grpErr x = None;
  sinv_hist : hinv cfg s (hist x);
  sinv_pc : at_pc cfg s g x
}.

(** The errors [g] can hold: [gctx.Err()] and the wrapped error of the
    DDL. *)
Definition fatal_error (e : Error) : Prop :=
  (exists c, e = ErrCtx c) \/ (exists e', e = ErrWrap "writer DDL: " e').

(** Once [g] holds an error, it is one of those and [gctx] is done. *)
Definition ginv (st : State) : Prop :=
  forall e, gErr st = Some e -> gctx st <> None /\ fatal_error e.

(** The invariant of the workload. *)
Definition Inv (cfg : Config) (st : State) : Prop :=
  sinv cfg Reader (gctx st) (rd st) /\ sinv cfg Writer (gctx st) (wr st)
  /\ ginv st.

(** A bound on the actions stream [s] can still take once [gctx] is
    done: a member still to be started costs two (its start and its
    return), a running one costs one. *)
Definition steps_left (cfg : Config) (s : Stream) (x : StreamSt) : nat :=
  match pc x with
  | PStart => 3
  | PDDL => 2
  | PLoop _ => 1
  | PSpawn _ j => 2 * Z.to_nat (conc cfg s - j) + length (running x) + 4
  | PWait _ => length (running x) + 3
  | PSleep _ => 2
  | PReturned _ => 0
  end%nat.

(** Is [a] an action of stream [s]? *)
Definition acts_of (s : Stream) (a : Action) : bool :=
  match actor a with
  | Some s' => if Stream_eq_dec s' s then true else false
  | None => false
  end.

End Invariant.

(** ** A stream that is given its turns *)

Module Progress.

Import Main Workload Invariant.
Local Open Scope list_scope.

(** The actions of one round: the round is begun, each of the [conc]
    members is started and its query returns, the inner loop is left, the
    barrier is passed, the timer fires. *)
Definition round_cost (cfg : Config) (s : Stream) : nat :=
  (2 * Z.to_nat (conc cfg s) + 4)%nat.

(** A bound on the actions of stream [s] from the head of its loop at
    [i]: the rounds from [i] on, and the return. *)
Definition loop_left (cfg : Config) (s : Stream) (i : Z) : nat :=
  (Z.to_nat (Iterations cfg - i) * round_cost cfg s + 1)%nat.

(** A bound on the actions stream [s] can still take, whether [gctx] is
    done or not. *)
Definition work_left (cfg : Config) (s : Stream) (x : StreamSt) : nat :=
  match pc x with
  | PStart => loop_left cfg s 0 + 2
  | PDDL => loop_left cfg s 0 + 1
  | PLoop i => loop_left cfg s i
  | PSpawn i j =>
      2 * Z.to_nat (conc cfg s - j) + length (running x) + 3
      + loop_left cfg s (i + 1)
  | PWait i => length (running x) + 2 + loop_left cfg s (i + 1)
  | PSleep i => 1 + loop_left cfg s (i + 1)
  | PReturned _ => 0
  end%nat.

(** How the queries that have not returned yet turn out: [res i j] is the
    result of member [j] of round [i]. *)
Definition Results : Type := Z -> Z -> option Error.

(** The action of stream [s] that comes next when the stream is given the
    turn: its goroutine runs on when it can; inside [grp.Wait()] with a
    member running, the query of the member started last returns what
    [res] says; the DDL succeeds; the timer of the select fires. *)
Definition next_action (res : Results) (s : Stream) (st : State)
  : option Action :=
  let x := stream s st in
  match pc x with
  | PReturned _ => None
  | PDDL => Some (ADDLResult None)
  | PWait _ =>
      match running x with
      | [] => Some (ARun s)
      | (i, j) :: _ => Some (AQueryResult s i j (res i j))
      end
  | PSleep _ => Some (ATimer s)
  | PStart | PLoop _ | PSpawn _ _ => Some (ARun s)
  end.

(** The schedule in which stream [s] alone moves, for at most [fuel]
    actions. *)
Fixpoint alone (cfg : Config) (res : Results) (s : Stream) (fuel : nat)
         (st : State) : list Action :=
  match fuel with
  | O => []
  | S fuel' =>
      match next_action res s st with
      | None => []
      | Some a =>
          match step cfg a st with
          | Some st' => a :: alone cfg res s fuel' st'
          | None => []
          end
      end
  end.

(** Every barrier in the history of stream [s] belongs to a round that
    was begun, and so does the round the goroutine is in. *)
Definition begun (s : Stream) (x : StreamSt) : Prop :=
  (forall k, In (EvBarrier s k) (hist x) -> In (EvRound s k) (hist x))
  /\ match pc x with
     | PSpawn i _ | PWait i => In (EvRound s i) (hist x)
     | _ => True
     end.

(** Round [i] of stream [s] was run in full: [conc] members were started
    and have returned, and the barrier was passed. *)
Definition round_run (cfg : Config) (s : Stream) (h : list Event) (i : Z)
  : Prop :=
  In (EvBarrier s i) h
  /\ forall j, 0 <= j < conc cfg s ->
       In (EvLaunch s i j) h /\ In (EvMemberReturn s i j None) h.

End Progress.

(** ** Sample inputs *)

Module Demo.

Import Main Tracer Workload.
Local Open Scope list_scope.

(** The flags [-r 4] with a DSN in the environment. *)
Definition flags_r4 : Flags := mkFlags 0 0 0 0 4 0 0 0 0 0 0 0 0 0.
Definition config_r4 : Config :=
  parseFlags flags_r4 "postgres://app@db:26257/bank".

(** [url.Parse] on three DSNs of the README's shape, as a table. *)
Definition bank_url (pw : string) : URL :=
  mkURL "postgres" "" (Some (mkUserinfo "app" pw true)) "db:26257" "/bank"
        "sslmode=disable" "".

Definition table_Parse (dsn : string) : option URL :=
  if String.eqb dsn "postgres://app:s3cret@db:26257/bank?sslmode=disable"
  then Some (bank_url "s3cret")
  else if String.eqb dsn "postgres://app:hunter2@db:26257/bank?sslmode=disable"
  then Some (bank_url "hunter2")
  else if String.eqb dsn "postgres://app@db:26257/bank"
  then Some (mkURL "postgres" "" (Some (mkUserinfo "app" "" false))
                   "db:26257" "/bank" "" "")
  else None.

(** Arguments as JSON texts already, with one that cannot be marshaled. *)
Definition sample_Marshal (a : option string) : option string := a.

(** Two rounds of two reads each, one upsert per writer round. *)
Definition demo_cfg : Config :=
  mkConfig 2 defaultTimeout 12 0 defaultReaderSleep defaultWriterSleep 2 1
           "postgres://app@db:26257/bank".

(** Both goroutines start; the reader runs round 0, in which the second
    read fails, up to the select after the batch; the DDL is still in
    flight. *)
Definition demo_round0 : list Action :=
  [ARun Reader; ARun Writer;
   ARun Reader; ARun Reader; ARun Reader; ARun Reader;
   AQueryResult Reader 0 1 (Some (ErrPool "conn reset"));
   AQueryResult Reader 0 0 None;
   ARun Reader].

(** The state a schedule leads to. *)
Definition demo_state (acts : list Action) : State :=
  match exec demo_cfg acts init with
  | Some st => st
  | None => init
  end.

(** Every read of both rounds fails, and the reader still returns nil
    after its two rounds. *)
Definition demo_all_fail : list Action :=
  [ARun Reader;
   ARun Reader; ARun Reader; ARun Reader; ARun Reader;
   AQueryResult Reader 0 0 (Some (ErrPool "timeout"));
   AQueryResult Reader 0 1 (Some (ErrPool "timeout"));
   ARun Reader; ATimer Reader;
   ARun Reader; ARun Reader; ARun Reader; ARun Reader;
   AQueryResult Reader 1 1 (Some (ErrPool "timeout"));
   AQueryResult Reader 1 0 (Some (ErrPool "timeout"));
   ARun Reader; ATimer Reader;
   ARun Reader].

(** The error of the DDL in the runs where it fails. *)
Definition demo_ddl_error : Error := ErrPool "permission denied".

End Demo.

(** ** tracer.go: oneLine and the two trace hooks

    The text of a query is a Go string; [strings.TrimSpace] and
    [strings.Fields] read it rune by rune, so it is modelled as the list
    of its code points (a byte that is not part of a valid encoding reads
    as a rune that is not white space). *)

Module TracerLog.

Import Tracer.
Local Open Scope list_scope.

Definition rune : Type := Z.

(** [unicode.IsSpace]: tab, line feed, vertical tab, form feed, carriage
    return, space, U+0085, U+00A0, and the other characters of the
    White_Space property. *)
Definition unicode_IsSpace (r : rune) : bool :=
  ((9 <=? r) && (r <=? 13)) || (r =? 32) || (r =? 133) || (r =? 160)
  || (r =? 5760) || ((8192 <=? r) && (r <=? 8202)) || (r =? 8232)
  || (r =? 8233) || (r =? 8239) || (r =? 8287) || (r =? 12288).

Definition newline : rune := 10.
Definition space : rune := 32.

(** Leading white space removed. *)
Fixpoint trim_left (s : list rune) : list rune :=
  match s with
  | [] => []
  | r :: s' => if unicode_IsSpace r then trim_left s' else s
  end.

(** [strings.TrimSpace]: leading and trailing white space removed. *)
Definition strings_TrimSpace (s : list rune) : list rune :=
  rev (trim_left (rev (trim_left s))).

(** [strings.ReplaceAll(s, "\n", " ")]. *)
Definition replace_newlines (s : list rune) : list rune :=
  map (fun r => if r =? newline then space else r) s.

(** [strings.Fields]: the maximal runs of runes that are not white space;
    [cur] is the run being read, newest rune first. *)
Fixpoint fields_from (cur : list rune) (s : list rune) : list (list rune) :=
  match s with
  | [] => match cur with [] => [] | _ => [rev cur] end
  | r :: s' =>
      if unicode_IsSpace r then
        match cur with
        | [] => fields_from [] s'
        | _ => rev cur :: fields_from [] s'
        end
      else fields_from (r :: cur) s'
  end.

Definition strings_Fields (s : list rune) : list (list rune) :=
  fields_from [] s.

(** [strings.Join] on rune strings. *)
Fixpoint join (elems : list (list rune)) (sep : list rune) : list rune :=
  match elems with
  | [] => []
  | [e] => e
  | e :: rest => e ++ sep ++ join rest sep
  end.

Definition oneLine (s : list rune) : list rune :=
  let s := strings_TrimSpace s in
  let s := replace_newlines s in
  let s := join (strings_Fields s) [space] in
  s.

(** A string in one line: no white space but single spaces, and none of
    those at either end.  [gap] says that a space would be one too many
    here (at the start, or after a space). *)
Fixpoint single_spaced (gap : bool) (s : list rune) : bool :=
  match s with
  | [] => negb gap
  | r :: s' =>
      if r =? space then negb gap && single_spaced true s'
      else negb (unicode_IsSpace r) && single_spaced false s'
  end.

Definition one_line (s : list rune) : bool :=
  match s with
  | [] => true
  | _ => single_spaced true s
  end.

Definition is_ink (r : rune) : bool := negb (unicode_IsSpace r).

(** A field: not empty, no white space. *)
Definition field_ok (f : list rune) : Prop :=
  f <> [] /\ forallb is_ink f = true.

(** The runes that are not white space, in order. *)
Definition ink (s : list rune) : list rune :=
  List.filter (fun r => negb (unicode_IsSpace r)) s.

(** *** The trace hooks *)

(** A [time.Time]: a reading of [time.Now()], with its wall clock (in
    nanoseconds since the zero time) and its monotonic clock, or the zero
    value. *)
Inductive Time : Type :=
| TimeNow (wall mono : Z)
| TimeZero.

Definition maxDuration : Z := 2 ^ 63 - 1.
Definition minDuration : Z := - 2 ^ 63.

(** A difference of clock readings as a [time.Duration]: out of range it
    is the largest or the smallest duration. *)
Definition saturate (d : Z) : Z :=
  if d <? minDuration then minDuration
  else if maxDuration <? d then maxDuration
  else d.

(** [time.Since(t)], the clocks reading [wall] and [mono] now: on the
    monotonic clock when [t] has a reading of it, on the wall clock
    otherwise. *)
Definition time_Since (wall mono : Z) (t : Time) : Z :=
  match t with
  | TimeNow _ m => saturate (mono - m)
  | TimeZero => saturate (wall - 0)
  end.

(** A [context.Context] as the values it carries, innermost first. *)
Inductive CtxKey : Type :=
| traceStartKey
| otherKey (id : nat).

Inductive CtxValue : Type :=
| traceStart (Start : Time)
| otherValue (v : nat).

Definition Context : Type := list (CtxKey * CtxValue).

Definition CtxKey_eqb (k k' : CtxKey) : bool :=
  match k, k' with
  | traceStartKey, traceStartKey => true
  | otherKey a, otherKey b => Nat.eqb a b
  | _, _ => false
  end.

Definition context_WithValue (ctx : Context) (k : CtxKey) (v : CtxValue)
  : Context := (k, v) :: ctx.

Fixpoint ctx_Value (ctx : Context) (k : CtxKey) : option CtxValue :=
  match ctx with
  | [] => None
  | (k', v) :: parent => if CtxKey_eqb k' k then Some v else ctx_Value parent k
  end.

Section Hooks.

Variable Any : Type.
Variable json_Marshal : Any -> option string.
Variable Err : Type.

Record TraceQueryStartData : Type := mkStartData {
  SQL : list rune;
  Args : list Any
}.

(** [pgconn.CommandTag], of which [String()] and [RowsAffected()] are
    used. *)
Record CommandTag : Type := mkCommandTag {
  tag_String : list rune;
  tag_RowsAffected : Z
}.

Record TraceQueryEndData : Type := mkEndData {
  EndCommandTag : CommandTag;
  EndErr : option Err
}.

(** The three lines the tracer logs, by their fields. *)
Inductive LogLine : Type :=
| PgxStart (sql : list rune) (args : string) (conn : string)
| PgxEndErr (sql : list rune) (dur : Z) (err : Err) (conn : string)
| PgxEndOk (tag : list rune) (rows : Z) (dur : Z) (conn : string).

(** [TraceQueryStart]; [now] is what [time.Now()] gives after the line is
    logged. *)
Definition TraceQueryStart (now : Time) (ctx : Context) (conn : option Conn)
           (data : TraceQueryStartData) : LogLine * Context :=
  let addr := safeRemoteAddr conn in
  let args := safeArgs Any json_Marshal (Args data) in
  (PgxStart (oneLine (SQL data)) args addr,
   context_WithValue ctx traceStartKey (traceStart now)).

(** [TraceQueryEnd]; [wall] and [mono] are the clocks when [time.Since]
    reads them.  [ts, _ := v.(traceStart)] leaves the zero value in [ts]
    when [v] is not a [traceStart]. *)
Definition TraceQueryEnd (wall mono : Z) (ctx : Context) (conn : option Conn)
           (data : TraceQueryEndData) : LogLine :=
  let v := ctx_Value ctx traceStartKey in
  let ts := match v with
            | Some (traceStart t) => t
            | _ => TimeZero
            end in
  let dur := time_Since wall mono ts in
  let addr := safeRemoteAddr conn in
  match EndErr data with
  | Some err =>
      PgxEndErr (oneLine (tag_String (EndCommandTag data))) dur err addr
  | None =>
      PgxEndOk (tag_String (EndCommandTag data))
               (tag_RowsAffected (EndCommandTag data)) dur addr
  end.

(** The duration a line of [TraceQueryEnd] reports. *)
Definition line_dur (l : LogLine) : option Z :=
  match l with
  | PgxStart _ _ _ => None
  | PgxEndErr _ dur _ _ => Some dur
  | PgxEndOk _ _ dur _ => Some dur
  end.

End Hooks.

End TracerLog.

(** ** Counting the events of a stream *)

Module Census.

Import Main Workload Invariant.
Local Open Scope list_scope.

(** Kinds of events, to count them in a history. *)
Definition is_launch (e : Event) : bool :=
  match e with EvLaunch _ _ _ => true | _ => false end.
Definition is_member_return (e : Event) : bool :=
  match e with EvMemberReturn _ _ _ _ => true | _ => false end.
Definition is_round (e : Event) : bool :=
  match e with EvRound _ _ => true | _ => false end.
Definition is_barrier (e : Event) : bool :=
  match e with EvBarrier _ _ => true | _ => false end.

(** How many events of a kind a history holds. *)
Definition count (kind : Event -> bool) (h : list Event) : Z :=
  Z.of_nat (length (List.filter kind h)).

(** The rounds [for i := 0; i < n; i++] runs, and the members a round
    starts: none when the bound is not positive. *)
Definition trips (n : Z) : Z := Z.max 0 n.

(** What the numbers of events of a stream are at each point. *)
Definition census_at (cfg : Config) (s : Stream) (x : StreamSt) : Prop :=
  let N := trips (Iterations cfg) in
  let C := trips (conc cfg s) in
  let h := hist x in
  match pc x with
  | PStart | PDDL => count is_launch h = 0 /\ count is_barrier h = 0
  | PLoop i =>
      0 <= i <= N /\ count is_launch h = i * C /\ count is_barrier h = i
  | PSpawn i n =>
      0 <= i < Iterations cfg /\ 0 <= n <= C
      /\ count is_launch h = i * C + n /\ count is_barrier h = i
      /\ forall p, In p (running x) -> fst p = i /\ 0 <= snd p < n
  | PWait i =>
      0 <= i < Iterations cfg
      /\ count is_launch h = (i + 1) * C /\ count is_barrier h = i
  | PSleep i =>
      0 <= i < Iterations cfg
      /\ count is_launch h = (i + 1) * C /\ count is_barrier h = i + 1
  | PReturned None => count is_launch h = N * C /\ count is_barrier h = N
  | PReturned (Some _) =>
      count is_launch h <= N * C /\ count is_barrier h <= N
  end.

Record census (cfg : Config) (s : Stream) (x : StreamSt) : Prop := mk_census {
  census_nodup : List.NoDup (running x);
  census_members :
    count is_launch (hist x)
    = count is_member_return (hist x) + Z.of_nat (length (running x));
  census_rounds :
    count is_round (hist x)
    = count is_barrier (hist x)
      + match pc x with PSpawn _ _ | PWait _ => 1 | _ => 0 end;
  census_pc : census_at cfg s x
}.

End Census.

(** ** The error of the group *)

Module Verdict.
Import Main Workload Invariant.
Local Open Scope list_scope.

(** How the error of [g] relates to [gctx] and to what the goroutines
    returned; [parent] says that the ctx given to [run] was cancelled. *)
Record verdict (parent : Prop) (st : State) : Prop := mk_verdict {
  verdict_canceled : gctx st = Some Canceled -> gErr st <> None \/ parent;
  verdict_ctx : forall c, gErr st = Some (ErrCtx c) ->
                  gctx st = Some c /\ (c = Canceled -> parent);
  verdict_from : forall e, gErr st = Some e ->
                   exists s, pc (stream s st) = PReturned (Some e);
  verdict_none : gErr st = None ->
                 forall s e, pc (stream s st) <> PReturned (Some e)
}.

End Verdict.

(** ** Predicates on the effects of [run] and on configurations *)

Module Setup.
Import Main Workload Orchestrator.
(** The effects of the workload itself. *)
Definition of_workload (fx : Effect) : bool :=
  match fx with
  | FxLogStarting | FxWorkload _ _ | FxLogComplete => true
  | _ => false
  end.

(** The DSN is the one of the environment, and the five settings
    [validateConfig] looks at are positive. *)
Definition well_formed (getenv : string) (c : Config) : Prop :=
  DSN c = getenv /\ 0 < Iterations c /\ 0 < Timeout c /\ 0 < ReaderMax c
  /\ 0 < ReaderConc c /\ 0 < WriterConc c.

End Setup.

(** ** The earlier main.go: one function, channels instead of errgroups *)

Module Legacy.

Import Main.

(** The settings [main] keeps in local variables. *)
Record Settings : Type := mkSettings {
  iterations : Z;
  timeout : Z;
  readerMax : Z;
  writerMax : Z;
  readerSleep : Z;
  writerSleep : Z
}.

(** The defaults and the merge of the long and short forms; this version
    has no concurrency flags, [readerConc] and [writerConc] of [Flags] are
    not read. *)
Definition merge (fl : Flags) : Settings :=
  let iterations := 1000 in
  let timeout := 5 * Minute in
  let readerMax := 12 in
  let writerMax := 0 in
  let readerSleep := 50 * Millisecond in
  let writerSleep := 50 * Millisecond in
  let iterations :=
    if 0 <? itersLong fl then itersLong fl
    else if 0 <? itersShort fl then itersShort fl else iterations in
  let timeout :=
    if 0 <? timeoutLong fl then timeoutLong fl
    else if 0 <? timeoutShort fl then timeoutShort fl else timeout in
  let readerMax :=
    if 0 <? readerLong fl then readerLong fl
    else if 0 <? readerShort fl then readerShort fl else readerMax in
  let writerMax :=
    if 0 <? writerLong fl then writerLong fl
    else if 0 <? writerShort fl then writerShort fl else writerMax in
  let readerSleep :=
    if 0 <? readerSleepLong fl then readerSleepLong fl
    else if 0 <? readerSleepShort fl then readerSleepShort fl
    else readerSleep in
  let writerSleep :=
    if 0 <? writerSleepLong fl then writerSleepLong fl
    else if 0 <? writerSleepShort fl then writerSleepShort fl
    else writerSleep in
  mkSettings iterations timeout readerMax writerMax readerSleep writerSleep.

(** [readerCfg.MaxConns = int32(readerMax)]. *)
Definition readerCfg_MaxConns (s : Settings) : Z :=
  GoInt.int32 (readerMax s).

(** [writerCfg.MaxConns]: the division is on the [int32] of the reader
    pool. *)
Definition writerCfg_MaxConns (s : Settings) : Z :=
  if 0 <? writerMax s then GoInt.int32 (writerMax s)
  else
    let m := GoInt.int32 (Z.quot (readerCfg_MaxConns s) 3) in
    if m <? 1 then 1 else m.

End Legacy.

(** ** The example program: one pool, a hundred pings *)

Module Example.

Local Open Scope list_scope.

Section Main.

Variable Err : Type.
Variable Stamp : Type.          (* the [time.Time] a ping prints *)

(** What the program prints and the calls it makes. *)
Inductive Output : Type :=
| PrDSNRequired
| PrHealthError (e : Err)
| PrParseError (e : Err)
| PrPoolError (e : Err)
| PrPing (n : Z) (now : Stamp)
| PrQueryError (e : Err)
| DoNewNodeHealthChecker
| DoGoPoll
| DoParseConfig
| DoNewRetryPool
| DoPoolClose                   (* deferred rp.Close() *)
| DoCancelPoll.                 (* deferred cancelPoll() *)

(** How the library calls turn out; [query i] is the result of
    [QueryRowFunc] in iteration [i], the scanned time or an error. *)
Record World : Type := mkWorld {
  newNodeHealthChecker_err : option Err;
  parseConfig_err : option Err;
  newRetryPool_err : option Err;
  query : Z -> Stamp + Err
}.

(** [for i := ...; i++] with [todo] iterations left: the output and
    whether the loop left through [os.Exit(1)]. *)
Fixpoint loop (w : World) (todo : nat) (i : Z) : list Output * bool :=
  match todo with
  | O => ([], false)
  | S todo' =>
      match query w i with
      | inl now =>
          let (out, exited) := loop w todo' (i + 1) in
          (PrPing (i + 1) now :: out, exited)
      | inr e => ([PrQueryError e], true)
      end
  end.

(** [main]: the output and the exit status; deferred calls run only when
    [main] returns. *)
Definition main (dsn : string) (w : World) : list Output * Z :=
  if String.eqb dsn "" then ([PrDSNRequired], 1)
  else
  let out := [DoNewNodeHealthChecker] in
  match newNodeHealthChecker_err w with
  | Some e => (out ++ [PrHealthError e], 1)
  | None =>
  let out := out ++ [DoGoPoll; DoParseConfig] in
  match parseConfig_err w with
  | Some e => (out ++ [PrParseError e], 1)
  | None =>
  let out := out ++ [DoNewRetryPool] in
  match newRetryPool_err w with
  | Some e => (out ++ [PrPoolError e], 1)
  | None =>
      match loop w 100 0 with
      | (pings, true) => (out ++ pings, 1)
      | (pings, false) => (out ++ pings ++ [DoPoolClose; DoCancelPoll], 0)
      end
  end end end.

(** The lines "ping n DB time: t" for [n] from [i + 1] to [i + k]. *)
Fixpoint pings (stamp : Z -> Stamp) (i : Z) (k : nat) : list Output :=
  match k with
  | O => []
  | S k' => PrPing (i + 1) (stamp i) :: pings stamp (i + 1) k'
  end.

(** The set-up succeeds. *)
Definition setup_ok (dsn : string) (w : World) : Prop :=
  dsn <> ""%string /\ newNodeHealthChecker_err w = None
  /\ parseConfig_err w = None /\ newRetryPool_err w = None.

Definition releases (o : Output) : bool :=
  match o with
  | DoPoolClose | DoCancelPoll => true
  | _ => false
  end.

End Main.

End Example.

(** ** More sample runs *)

Module Runs.

Import Main Workload Orchestrator Demo.
Local Open Scope list_scope.

(** The smallest run: [-i 1], one read and one upsert. *)
Definition budget_cfg : Config :=
  parseFlags (mkFlags 1 0 0 0 0 0 0 0 0 0 0 0 0 0)
             "postgres://app@db:26257/bank".

Definition budget_run : list Action :=
  [ARun Reader; ARun Writer; ADDLResult None;
   ARun Reader; ARun Reader; ARun Reader;
   AQueryResult Reader 0 0 None; ARun Reader; ATimer Reader; ARun Reader;
   ARun Writer; ARun Writer; ARun Writer;
   AQueryResult Writer 0 0 (Some (ErrPool "restart transaction"));
   ARun Writer; ATimer Writer; ARun Writer].

Definition budget_state : State :=
  match exec budget_cfg budget_run init with
  | Some st => st
  | None => init
  end.

(** The deadline passes while the reader starts the members of round 0,
    before the DDL returns; the DDL then fails with the context's
    error. *)
Definition demo_deadline : list Action :=
  [ARun Reader; ARun Writer; ARun Reader; ARun Reader; ADeadline].

Definition demo_after_deadline : list Action :=
  [ARun Reader; ARun Reader;
   AQueryResult Reader 0 0 (Some (ErrCtx DeadlineExceeded));
   AQueryResult Reader 0 1 (Some (ErrCtx DeadlineExceeded));
   ARun Reader; ARun Reader;
   ADDLResult (Some (ErrCtx DeadlineExceeded))].

(** Every call of the set-up succeeds, and every query but the upsert. *)
Definition budget_flags : Flags := mkFlags 1 0 0 0 0 0 0 0 0 0 0 0 0 0.
Definition budget_world : World := mkWorld None None None None budget_run.

(** [demo_all_fail] up to the select after the batch of the last round. *)
Definition demo_all_fail_but_last : list Action :=
  firstn 16 demo_all_fail.

(** The caller of [run] cancels its ctx while the DDL is in flight; the
    reader sees it at the head of its loop, the DDL fails with it. *)
Definition demo_parent_cancel : list Action :=
  [ARun Reader; ARun Writer; AParentCancel; ARun Reader;
   ADDLResult (Some (ErrCtx Canceled))].

(** Query arguments: one that [json.Marshal] encodes, one it refuses (a
    channel, say), and one whose [MarshalJSON] panics. *)
Inductive SampleArg : Type :=
| ArgJSON (b : string)
| ArgUnsupported
| ArgPanics.

Definition marshal_sample (a : SampleArg) : TracerFull.Marshaled :=
  match a with
  | ArgJSON b => TracerFull.Bytes b
  | ArgUnsupported => TracerFull.MarshalError
  | ArgPanics => TracerFull.MarshalPanic
  end.

(** A connection over a Unix-domain socket, one over TCP, and a
    [*pgx.Conn] without [PgConn]. *)
Definition unix_addr : Tracer.Addr :=
  Tracer.OtherAddr "unix" "/tmp/.s.PGSQL.26257".

Definition unix_conn : TracerFull.PgxConn :=
  TracerFull.mkPgxConn
    (Some (TracerFull.mkPgConn (Some (Tracer.mkNetConn (Some unix_addr))))).

Definition tcp_conn : TracerFull.PgxConn :=
  TracerFull.mkPgxConn
    (Some (TracerFull.mkPgConn
             (Some (Tracer.mkNetConn (Some (Tracer.TCPAddr "10.0.0.7:26257")))))).

Definition bare_conn : TracerFull.PgxConn := TracerFull.mkPgxConn None.

(** A set-up in which the writer pool cannot be created. *)
Definition no_writer_world : World :=
  mkWorld None None None (Some (ErrPool "no route")) [].

(** A traced query: "select now()" without arguments, answered with one
    row; the wall clock in nanoseconds since the zero time. *)
Definition sample_start : TracerLog.TraceQueryStartData (option string) :=
  TracerLog.mkStartData (option string)
    [115; 101; 108; 101; 99; 116; 32; 110; 111; 119; 40; 41] [].

Definition sample_end : TracerLog.TraceQueryEndData string :=
  TracerLog.mkEndData string
    (TracerLog.mkCommandTag [83; 69; 76; 69; 67; 84; 32; 49] 1) None.

Definition wall_start : Z := 63897000000000000000.
Definition wall_end : Z := 63897000000000250000.

Definition outer_ctx : TracerLog.Context :=
  [(TracerLog.traceStartKey,
    TracerLog.traceStart (TracerLog.TimeNow 63896999999997000000 2000000))].

(** The example's queries: two pings, then a failure. *)
Definition ping_stamp (i : Z) : Z := 1700000000 + i.

Definition ping_world : Example.World string Z :=
  Example.mkWorld string Z None None None
    (fun i => if i <? 2 then inl (ping_stamp i) else inr "conn reset"%string).

End Runs.


(** * Properties *)

(** ** Machine integers *)

Module GoIntFacts.

Import GoInt.

Lemma int32_id z : in_int32 z -> int32 z = z.
Proof.
  unfold in_int32, int32, wrap. intros H.
  rewrite Z.mod_small; lia.
Qed.

Lemma int64_id z : in_int64 z -> int64 z = z.
Proof.
  unfold in_int64, int64, wrap. intros H.
  rewrite Z.mod_small; lia.
Qed.

(** Truncated and floored division by 3 agree from 0 on. *)
Lemma quot3_nonneg z : 0 <= z -> Z.quot z 3 = z / 3.
Proof. intros H. apply Z.quot_div_nonneg; lia. Qed.

Lemma quot3_neg z : z < 0 -> Z.quot z 3 <= 0.
Proof.
  intros H. rewrite <- (Z.opp_involutive z), Z.quot_opp_l by lia.
  assert (0 <= Z.quot (- z) 3) by (apply Z.quot_pos; lia). lia.
Qed.

End GoIntFacts.

(** ** Configuration *)

Module MainSpec.

Import GoInt GoIntFacts Main Demo.

Lemma long_short_default_unset dflt long short :
  long <= 0 -> short <= 0 -> long_short_default long short dflt = dflt.
Proof.
  intros Hl Hs. unfold long_short_default.
  destruct (Z.ltb_spec 0 long); [lia|].
  destruct (Z.ltb_spec 0 short); [lia|]. reflexivity.
Qed.

(** Each [override2] touches one field only. *)
Ltac split_overrides :=
  unfold parseFlags, override2, override1;
  repeat match goal with
         | |- context [0 <? ?x] => destruct (Z.ltb_spec 0 x)
         end;
  cbn.

(** C5. For iterations, timeout, reader-max-conns, writer-max-conns,
    reader-sleep and writer-sleep, the configuration built by [parseFlags]
    holds the long flag's value when that is positive, otherwise the short
    flag's value when that is positive, otherwise the default (0, i.e.
    "derive", for writer-max-conns); a form that is zero counts as not
    given. *)
Theorem parseFlags_long_short_default (fl : Flags) (getenv : string) :
  let cfg := parseFlags fl getenv in
  Iterations cfg
    = long_short_default (itersLong fl) (itersShort fl) defaultIterations
  /\ Timeout cfg
    = long_short_default (timeoutLong fl) (timeoutShort fl) defaultTimeout
  /\ ReaderMax cfg
    = long_short_default (readerLong fl) (readerShort fl) defaultReaderMaxConns
  /\ WriterMax cfg
    = long_short_default (writerLong fl) (writerShort fl) 0
  /\ ReaderSleep cfg
    = long_short_default (readerSleepLong fl) (readerSleepShort fl)
                         defaultReaderSleep
  /\ WriterSleep cfg
    = long_short_default (writerSleepLong fl) (writerSleepShort fl)
                         defaultWriterSleep.
Proof.
  unfold long_short_default. split_overrides. all: repeat split; reflexivity.
Qed.

(** No flag given at all: every field is the default. *)
Example parseFlags_defaults :
  parseFlags (mkFlags 0 0 0 0 0 0 0 0 0 0 0 0 0 0) "postgres://u:p@h/db"
  = mkConfig 1000 300000000000 12 0 50000000 50000000 1 1
             "postgres://u:p@h/db".
Proof. reflexivity. Qed.

(** [-i 7 --iterations 9 -r 5 -t -3]: long wins, a negative value is
    ignored. *)
Example parseFlags_mixed :
  parseFlags (mkFlags 7 9 (-3) 0 5 0 0 0 0 0 0 0 0 0) "d"
  = mkConfig 9 300000000000 5 0 50000000 50000000 1 1 "d".
Proof. reflexivity. Qed.

(** [validateConfig] as a disjunction. *)
Lemma validateConfig_error_iff (cfg : Config) :
  validateConfig cfg <> None
  <-> (DSN cfg = ""%string \/ Iterations cfg <= 0 \/ Timeout cfg <= 0
       \/ ReaderMax cfg <= 0 \/ ReaderConc cfg <= 0 \/ WriterConc cfg <= 0).
Proof.
  unfold validateConfig.
  destruct (String.eqb_spec (DSN cfg) ""); [split; [auto | discriminate]|].
  destruct (Z.leb_spec (Iterations cfg) 0); [split; [auto | discriminate]|].
  destruct (Z.leb_spec (Timeout cfg) 0); [split; [auto | discriminate]|].
  destruct (Z.leb_spec (ReaderMax cfg) 0);
    [split; [auto 6 | discriminate]|].
  destruct (Z.leb_spec (ReaderConc cfg) 0);
    [split; [auto 6 | discriminate]|].
  destruct (Z.leb_spec (WriterConc cfg) 0);
    [split; [auto 7 | discriminate]|].
  cbn. split; [congruence|]. intros [?|[?|[?|[?|[?|?]]]]]; try lia; congruence.
Qed.

(** C10. Whatever the flags, negative values included, the configuration
    built by [parseFlags] has positive iterations, timeout, reader pool
    size and concurrencies, and non-negative sleeps and writer pool size;
    so [validateConfig] rejects it exactly when [os.Getenv] gave the empty
    string for DATABASE_URL, and then with the "DATABASE_URL is required"
    error. *)
Theorem parseFlags_valid_up_to_dsn (fl : Flags) (getenv : string) :
  let cfg := parseFlags fl getenv in
  0 < Iterations cfg /\ 0 < Timeout cfg /\ 0 < ReaderMax cfg
  /\ 0 < ReaderConc cfg /\ 0 < WriterConc cfg
  /\ 0 <= ReaderSleep cfg /\ 0 <= WriterSleep cfg /\ 0 <= WriterMax cfg
  /\ DSN cfg = getenv
  /\ validateConfig cfg
     = if String.eqb getenv "" then Some ErrDSNRequired else None.
Proof.
  unfold validateConfig. split_overrides.
  all: repeat match goal with
              | |- context [?x <=? 0] => destruct (Z.leb_spec x 0); try lia
              end.
  all: cbn; unfold defaultIterations, defaultTimeout, defaultReaderMaxConns,
         defaultReaderSleep, defaultWriterSleep, defaultConcurrency,
         Minute, Second, Millisecond in *.
  all: repeat split; try lia; try reflexivity.
Qed.

(** The writer pool's size for an unset writer-max-conns, as long as a
    third of the reader's fits [int32]. *)
Lemma deriveWriterMax_unset (readerMax : Z) :
  readerMax < 3 * 2 ^ 31 ->
  deriveWriterMax readerMax 0 = Z.max 1 (readerMax / 3).
Proof.
  intros Hr. unfold deriveWriterMax. cbn [Z.ltb Z.compare].
  destruct (Z.lt_ge_cases readerMax 0) as [Hn | Hp].
  - pose proof (quot3_neg _ Hn).
    destruct (Z.ltb_spec (Z.quot readerMax 3) 1); [|lia].
    assert (readerMax / 3 < 0) by (apply Z.div_lt_upper_bound; lia).
    rewrite Z.max_l by lia. reflexivity.
  - rewrite quot3_nonneg by assumption.
    assert (0 <= readerMax / 3) by (apply Z.div_pos; lia).
    assert (readerMax / 3 < 2 ^ 31) by (apply Z.div_lt_upper_bound; lia).
    destruct (Z.ltb_spec (readerMax / 3) 1).
    + rewrite Z.max_l by lia. reflexivity.
    + rewrite Z.max_r by lia. apply int32_id. unfold in_int32. lia.
Qed.

(** The three sizes the specification quotes. *)
Example deriveWriterMax_12 : deriveWriterMax 12 0 = 4.
Proof. reflexivity. Qed.
Example deriveWriterMax_1 : deriveWriterMax 1 0 = 1.
Proof. reflexivity. Qed.
Example deriveWriterMax_2 : deriveWriterMax 2 0 = 1.
Proof. reflexivity. Qed.

(** On those three the log line agrees with the pool. *)
Example loggedWriterMax_quoted :
  map (fun r => loggedWriterMax (mkConfig 1 1 r 0 0 0 1 1 "d")) [12; 1; 2]
  = [4; 1; 1].
Proof. reflexivity. Qed.

(** With writer-max-conns unset, the "config:" line and the pool agree
    exactly for reader sizes 1, 2 and the multiples of 3. *)
Lemma loggedWriterMax_agrees_iff (cfg : Config) :
  WriterMax cfg = 0 -> 0 < ReaderMax cfg < 2 ^ 31 ->
  (loggedWriterMax cfg = writerPoolMaxConns cfg
   <-> (ReaderMax cfg mod 3 = 0 \/ ReaderMax cfg <= 2)).
Proof.
  intros Hw Hr. unfold loggedWriterMax, writerPoolMaxConns. rewrite Hw.
  rewrite deriveWriterMax_unset by lia. cbn [Z.ltb Z.compare].
  rewrite int64_id by (unfold in_int64; lia).
  rewrite quot3_nonneg by lia.
  generalize (ReaderMax cfg) Hr. clear. intros r Hr.
  Z.div_mod_to_equations. lia.
Qed.

(** C2. With [-r 4] and writer-max-conns unset the configuration is valid
    and the writer pool gets [max(1, floor(4/3)) = 1] connection, but the
    "config:" line prints writer-max-conns=2: it rounds the third up where
    [deriveWriterMax] rounds it down. *)
Theorem logged_writer_max_differs_r4 :
  validateConfig config_r4 = None
  /\ WriterMax config_r4 = 0
  /\ writerPoolMaxConns config_r4 = Z.max 1 (ReaderMax config_r4 / 3)
  /\ writerPoolMaxConns config_r4 = 1
  /\ loggedWriterMax config_r4 = 2.
Proof. repeat split; reflexivity. Qed.

End MainSpec.

(** ** The DSN in the logs *)

Module RedactionSpec.

Import Main Demo.

Lemma same_but_password_username u1 u2 :
  same_but_password u1 u2 -> url_username u1 = url_username u2.
Proof.
  unfold same_but_password, url_username.
  intros (_ & _ & _ & _ & _ & _ & H).
  destruct (User u1), (User u2); tauto.
Qed.

Section WithParser.

Variable url_Parse : string -> option URL.

(** What is rendered of an accepted DSN. *)
Lemma redactedDSNInfo_parsed dsn u :
  url_Parse dsn = Some u ->
  redactedDSNInfo url_Parse dsn
  = sprintf_host_db_user (Host u) (Path u) (url_username u).
Proof.
  intros H. unfold redactedDSNInfo, url_username, Username. rewrite H.
  destruct (User u); reflexivity.
Qed.

(** DSNs in URL form.  Whatever URL parser is used: two DSNs it accepts,
    whose URLs have the same host, path and user name and differ in the
    password of the userinfo, are rendered alike, and the rendering is
    made of the URL's host, path and user name. *)
Lemma redactedDSNInfo_url_form (dsn1 dsn2 : string) (u1 u2 : URL) :
  url_Parse dsn1 = Some u1 ->
  url_Parse dsn2 = Some u2 ->
  same_but_password u1 u2 ->
  redactedDSNInfo url_Parse dsn1 = redactedDSNInfo url_Parse dsn2
  /\ redactedDSNInfo url_Parse dsn1
     = ("host=" ++ Host u1 ++ " db=" ++ Path u1
        ++ " user=" ++ url_username u1)%string.
Proof.
  intros H1 H2 Hsame.
  rewrite (redactedDSNInfo_parsed _ _ H1), (redactedDSNInfo_parsed _ _ H2).
  pose proof (same_but_password_username _ _ Hsame) as Hu.
  destruct Hsame as (_ & _ & Hh & Hp & _).
  rewrite Hh, Hp, Hu. split; reflexivity.
Qed.

(** A DSN the parser refuses is rendered as a constant. *)
Lemma redactedDSNInfo_invalid dsn :
  url_Parse dsn = None -> redactedDSNInfo url_Parse dsn = "<invalid dsn>".
Proof. intros H. unfold redactedDSNInfo. rewrite H. reflexivity. Qed.

End WithParser.

Example redactedDSNInfo_url_form_sample :
  redactedDSNInfo table_Parse
    "postgres://app:s3cret@db:26257/bank?sslmode=disable"
  = redactedDSNInfo table_Parse
      "postgres://app:hunter2@db:26257/bank?sslmode=disable"
  /\ redactedDSNInfo table_Parse
       "postgres://app:s3cret@db:26257/bank?sslmode=disable"
     = "host=db:26257 db=/bank user=app"%string.
Proof. split; reflexivity. Qed.

(** C4. A DSN that is in no URL form is logged whole.  [url.Parse] takes a
    string without control character, [:], [?], [#] and [%] that does not
    begin with a slash as a bare path; [redactedDSNInfo] prints the path
    as the database.  So a DSN in the keyword/value form, which pgx
    accepts, is in the "config:" line from its first byte to its last, the
    password as well. *)
Theorem redactedDSNInfo_logs_plain_dsn (other : string -> option URL)
        (dsn : string) :
  UrlPlain.plain dsn = true ->
  redactedDSNInfo (UrlPlain.url_Parse other) dsn
  = ("host= db=" ++ dsn ++ " user=")%string.
Proof.
  intros Hplain. unfold redactedDSNInfo, UrlPlain.url_Parse.
  rewrite Hplain. reflexivity.
Qed.

Lemma redactedDSNInfo_logs_plain_dsn_witness :
  redactedDSNInfo (UrlPlain.url_Parse table_Parse)
                  (UrlPlain.keyword_value_dsn "s3cret")
  = ("host= db=" ++ UrlPlain.keyword_value_dsn "s3cret" ++ " user=")%string.
Proof.
  apply (redactedDSNInfo_logs_plain_dsn table_Parse
           (UrlPlain.keyword_value_dsn "s3cret")).
  vm_compute. reflexivity.
Defined.

(** The line for that DSN, and for the one with another password: the two
    differ. *)
Example keyword_value_dsn_logged :
  redactedDSNInfo (UrlPlain.url_Parse table_Parse)
                  (UrlPlain.keyword_value_dsn "s3cret")
  = "host= db=host=db port=26257 user=app password=s3cret dbname=bank user="%string
  /\ redactedDSNInfo (UrlPlain.url_Parse table_Parse)
                     (UrlPlain.keyword_value_dsn "hunter2")
     = "host= db=host=db port=26257 user=app password=hunter2 dbname=bank user="%string.
Proof. split; reflexivity. Qed.

(** The parser agrees with the table on the DSNs in URL form. *)
Example url_form_not_plain :
  UrlPlain.url_Parse table_Parse
    "postgres://app:s3cret@db:26257/bank?sslmode=disable"
  = Some (bank_url "s3cret").
Proof. reflexivity. Qed.

End RedactionSpec.

(** ** The tracer's helpers *)

Module TracerSpec.

Import Tracer Demo.
Local Open Scope list_scope.

Section SafeArgs.

Variable Any : Type.
Variable json_Marshal : Any -> option string.

Local Abbreviation render := (rendered_arg Any json_Marshal).
Local Abbreviation loop := (safeArgs_loop Any json_Marshal).

Lemma safeArgs_body_app (done : list string) (a : Any) (x : string)
      (todo : list string) :
  safeArgs_body Any json_Marshal (length done) a (done ++ x :: todo)
  = done ++ render a :: todo.
Proof.
  unfold safeArgs_body, rendered_arg.
  destruct (json_Marshal a);
    rewrite insert_app_r_alt by lia;
    rewrite Nat.sub_diag; reflexivity.
Qed.

(** After [length done] turns the slice holds the renderings [done] and
    the untouched rest; the remaining turns fill the rest in order. *)
Lemma safeArgs_loop_fills (args : list Any) :
  forall (done todo : list string),
    length todo = length args ->
    loop (length done) args (done ++ todo) = done ++ map render args.
Proof.
  induction args as [|a args IH]; intros done todo Hlen.
  - destruct todo; [reflexivity | discriminate].
  - destruct todo as [|x todo]; [discriminate|].
    cbn [safeArgs_loop map]. rewrite safeArgs_body_app.
    replace (S (length done)) with (length (done ++ [render a]))
      by (rewrite length_app; cbn; lia).
    replace (done ++ render a :: todo) with ((done ++ [render a]) ++ todo)
      by (rewrite <- app_assoc; reflexivity).
    rewrite IH by (cbn in Hlen; lia).
    rewrite <- app_assoc. reflexivity.
Qed.

Lemma safeArgs_vals_map (args : list Any) :
  safeArgs_vals Any json_Marshal args = map render args.
Proof.
  unfold safeArgs_vals.
  apply (safeArgs_loop_fills args [] (replicate (length args) ""%string)).
  apply length_replicate.
Qed.

(** When [json.Marshal] returns on every argument, [safeArgs] renders one
    entry per argument, in order: entry [i] is the JSON encoding of
    argument [i] when marshaling succeeds and the marker "<unmarshalable>"
    otherwise; the entries are joined with ", " between brackets. *)
Lemma safeArgs_one_entry_per_arg (args : list Any) :
  length (safeArgs_vals Any json_Marshal args) = length args
  /\ (forall i : nat,
        safeArgs_vals Any json_Marshal args !! i = render <$> (args !! i))
  /\ safeArgs Any json_Marshal args
     = ("[" ++ String.concat ", " (map render args) ++ "]")%string.
Proof.
  unfold safeArgs, strings_Join. rewrite safeArgs_vals_map.
  split; [apply length_map|]. split; [|reflexivity].
  intros i. apply list_lookup_fmap.
Qed.

End SafeArgs.

Example safeArgs_sample :
  safeArgs (option string) sample_Marshal
           [Some "1"%string; None; Some "true"%string]
  = "[1, <unmarshalable>, true]"%string.
Proof. reflexivity. Qed.

Example safeArgs_empty :
  safeArgs (option string) sample_Marshal [] = "[]"%string.
Proof. reflexivity. Qed.

(** On a connection with its [PgConn]: a TCP address is rendered by its
    own [String()], any other kind of address as the constant "<remote>",
    and a nil connection, nil transport or nil address as the constant
    "<nil>". *)
Lemma safeRemoteAddr_cases (conn : option Conn) :
  safeRemoteAddr conn
  = match transport_addr conn with
    | Some (TCPAddr str) => str
    | Some (OtherAddr _ _) => "<remote>"%string
    | None => "<nil>"%string
    end.
Proof.
  destruct conn as [[[[[[str | nw str]|]]|]]|]; reflexivity.
Qed.

Example safeRemoteAddr_tcp :
  safeRemoteAddr (Some (mkConn (Some (mkNetConn (Some (TCPAddr "10.0.0.7:26257"))))))
  = "10.0.0.7:26257"%string.
Proof. reflexivity. Qed.

Example safeRemoteAddr_unix :
  safeRemoteAddr
    (Some (mkConn (Some (mkNetConn
       (Some (OtherAddr "unix" "/tmp/.s.PGSQL.26257"))))))
  = "<remote>"%string.
Proof. reflexivity. Qed.

End TracerSpec.

(** ** The tracer's helpers, with the panics of Go *)

Module TracerFullSpec.

Import Tracer TracerFull Runs.
Local Open Scope list_scope.

Section SafeArgs.

Variable Any : Type.
Variable json_Marshal : Any -> Marshaled.

Local Abbreviation returns := (fun a => returned (json_Marshal a)).

(** As long as [json.Marshal] does not panic, the loop is the loop of
    [Tracer]. *)
Lemma safeArgs_loop_returns (args : list Any) : forall i vals,
  Forall (fun a => json_Marshal a <> MarshalPanic) args ->
  safeArgs_loop Any json_Marshal i args vals
  = Returns (Tracer.safeArgs_loop Any returns i args vals).
Proof.
  induction args as [|a args IH]; intros i vals Hall; [reflexivity|].
  inversion Hall as [|? ? Ha Hrest]; subst.
  cbn [safeArgs_loop Tracer.safeArgs_loop].
  unfold safeArgs_body, Tracer.safeArgs_body, returned.
  destruct (json_Marshal a); [| |contradiction]; apply IH; exact Hrest.
Qed.

(** The first panic of [json.Marshal] is the panic of the loop. *)
Lemma safeArgs_loop_panics (args : list Any) : forall i vals,
  Exists (fun a => json_Marshal a = MarshalPanic) args ->
  safeArgs_loop Any json_Marshal i args vals = Panics.
Proof.
  induction args as [|a args IH]; intros i vals Hex;
    inversion Hex as [? ? Ha | ? ? Hrest]; subst;
    cbn [safeArgs_loop]; unfold safeArgs_body.
  - rewrite Ha. reflexivity.
  - destruct (json_Marshal a); [apply IH; exact Hrest .. | reflexivity].
Qed.

Lemma rendered_returns (a : Any) :
  rendered Any json_Marshal a = rendered_arg Any returns a.
Proof. unfold rendered, rendered_arg, returned. destruct (json_Marshal a); reflexivity. Qed.

(** C8. For every argument list and every behaviour of [json.Marshal].
    When [json.Marshal] panics on no argument, [safeArgs] returns, and its
    rendering has one entry per argument, in order: entry [i] is the JSON
    encoding of argument [i] when marshaling succeeds and the marker
    "<unmarshalable>" when it gives an error; the entries are joined with
    ", " between brackets; no argument is dropped.  When [json.Marshal]
    panics on some argument, as it does when the argument's own
    [MarshalJSON] panics, [safeArgs] panics: it has no [recover]. *)
Theorem safeArgs_entries_or_panic (args : list Any) :
  (Forall (fun a => json_Marshal a <> MarshalPanic) args ->
   exists vals,
     safeArgs_vals Any json_Marshal args = Returns vals
     /\ length vals = length args
     /\ (forall i : nat,
           vals !! i = rendered Any json_Marshal <$> (args !! i))
     /\ safeArgs Any json_Marshal args
        = Returns ("[" ++ String.concat ", "
                            (map (rendered Any json_Marshal) args)
                       ++ "]")%string)
  /\ (Exists (fun a => json_Marshal a = MarshalPanic) args ->
      safeArgs Any json_Marshal args = Panics).
Proof.
  split.
  - intros Hall.
    destruct (TracerSpec.safeArgs_one_entry_per_arg Any returns args)
      as (Hlen & Hentry & Hall_).
    exists (Tracer.safeArgs_vals Any returns args).
    assert (Hvals : safeArgs_vals Any json_Marshal args
                    = Returns (Tracer.safeArgs_vals Any returns args))
      by (apply safeArgs_loop_returns; exact Hall).
    split; [exact Hvals|]. split; [exact Hlen|]. split.
    + intros i. rewrite Hentry. destruct (args !! i) as [a|]; [|reflexivity].
      cbn. rewrite rendered_returns. reflexivity.
    + unfold safeArgs. rewrite Hvals.
      unfold Tracer.safeArgs in Hall_. rewrite Hall_.
      replace (map (rendered Any json_Marshal) args)
        with (map (rendered_arg Any returns) args); [reflexivity|].
      apply map_ext. intros a. symmetry. apply rendered_returns.
  - intros Hex. unfold safeArgs, safeArgs_vals.
    rewrite safeArgs_loop_panics by exact Hex. reflexivity.
Qed.

End SafeArgs.

Lemma safeArgs_entries_or_panic_witness :
  (exists vals,
     safeArgs_vals SampleArg marshal_sample
                   [ArgJSON "1"; ArgUnsupported; ArgJSON "true"]
     = Returns vals
     /\ length vals = 3%nat
     /\ (forall i : nat,
           vals !! i
           = rendered SampleArg marshal_sample
               <$> ([ArgJSON "1"; ArgUnsupported; ArgJSON "true"] !! i))
     /\ safeArgs SampleArg marshal_sample
                 [ArgJSON "1"; ArgUnsupported; ArgJSON "true"]
        = Returns "[1, <unmarshalable>, true]"%string)
  /\ safeArgs SampleArg marshal_sample [ArgJSON "1"; ArgPanics] = Panics.
Proof.
  split.
  - apply (safeArgs_entries_or_panic SampleArg marshal_sample
             [ArgJSON "1"; ArgUnsupported; ArgJSON "true"]).
    repeat constructor; discriminate.
  - apply (safeArgs_entries_or_panic SampleArg marshal_sample
             [ArgJSON "1"; ArgPanics]).
    right. left. reflexivity.
Defined.

(** An argument whose [MarshalJSON] panics takes [safeArgs] with it, and
    the arguments before and after it are not rendered. *)
Lemma safeArgs_panics :
  safeArgs SampleArg marshal_sample [ArgJSON "1"; ArgPanics; ArgJSON "true"]
  = Panics.
Proof. reflexivity. Qed.

(** On a connection with its [PgConn], and on the nil connection,
    [safeRemoteAddr] is the function of [Tracer]. *)
Lemma safeRemoteAddr_returns (conn : option PgxConn) :
  holds_PgConn conn ->
  safeRemoteAddr conn = Returns (Tracer.safeRemoteAddr (with_PgConn conn)).
Proof.
  unfold holds_PgConn. intros H.
  destruct conn as [[[pg|]]|]; [| |reflexivity].
  - destruct pg as [[[[t|]]|]]; [destruct t| |]; reflexivity.
  - destruct (H _ eq_refl eq_refl).
Qed.

(** C7. For every connection that is nil or holds its [PgConn],
    [safeRemoteAddr] returns: the address's own [String()] when the
    transport address is a [*net.TCPAddr]; the constant "<remote>" for an
    address of any other type, the address of a Unix-domain socket
    included, whatever that address is; and the constant "<nil>" for a nil
    connection, a nil transport or a nil address. *)
Theorem safeRemoteAddr_tcp_or_placeholder (conn : option PgxConn) :
  holds_PgConn conn ->
  safeRemoteAddr conn
  = Returns match transport_addr conn with
            | Some (TCPAddr str) => str
            | Some (OtherAddr _ _) => "<remote>"%string
            | None => "<nil>"%string
            end.
Proof.
  intros H. rewrite (safeRemoteAddr_returns conn H).
  rewrite TracerSpec.safeRemoteAddr_cases. f_equal.
  unfold holds_PgConn in H.
  destruct conn as [[[pg|]]|]; [reflexivity | | reflexivity].
  destruct (H _ eq_refl eq_refl).
Qed.

Lemma safeRemoteAddr_tcp_or_placeholder_witness :
  safeRemoteAddr (Some tcp_conn) = Returns "10.0.0.7:26257"%string.
Proof.
  apply (safeRemoteAddr_tcp_or_placeholder (Some tcp_conn)).
  unfold holds_PgConn. intros c [= <-]. discriminate.
Defined.

(** A connection over a Unix-domain socket has an address, which is not
    rendered; and on a [*pgx.Conn] without [PgConn] the call panics. *)
Lemma safeRemoteAddr_unix_and_bare :
  transport_addr (Some unix_conn) = Some unix_addr
  /\ addr_String unix_addr = "/tmp/.s.PGSQL.26257"%string
  /\ safeRemoteAddr (Some unix_conn) = Returns "<remote>"%string
  /\ safeRemoteAddr (Some bare_conn) = Panics.
Proof. repeat split; reflexivity. Qed.

End TracerFullSpec.

(** ** The workload *)

Module WorkloadSpec.

Import Main Workload Invariant Progress Demo.
Local Open Scope list_scope.

(** *** Lists of events *)

Lemma pair_eqb_eq p q : pair_eqb p q = true <-> p = q.
Proof.
  destruct p, q. unfold pair_eqb. cbn.
  rewrite andb_true_iff, !Z.eqb_eq. split; [intros []|intros [=]]; subst; auto.
Qed.

Lemma existsb_pair_In p l : existsb (pair_eqb p) l = true -> In p l.
Proof.
  rewrite existsb_exists. intros (q & Hq & He).
  apply pair_eqb_eq in He. subst. exact Hq.
Qed.

Lemma In_remove_other (p q : Z * Z) l :
  In p l -> p <> q ->
  In p (List.filter (fun p' => negb (pair_eqb p' q)) l).
Proof.
  intros Hin Hne. apply filter_In. split; [exact Hin|].
  destruct (pair_eqb p q) eqn:E; [|reflexivity].
  apply pair_eqb_eq in E. contradiction.
Qed.

(** *** Frame *)

Lemma stream_set_same s x st : stream s (set_stream s x st) = x.
Proof. destruct s; reflexivity. Qed.

Lemma stream_set_other s s' x st :
  s <> s' -> stream s' (set_stream s x st) = stream s' st.
Proof. destruct s, s'; intros H; try reflexivity; contradiction. Qed.

Lemma gctx_set s x st : gctx (set_stream s x st) = gctx st.
Proof. destruct s; reflexivity. Qed.

Lemma gErr_set s x st : gErr (set_stream s x st) = gErr st.
Proof. destruct s; reflexivity. Qed.

Lemma stream_goto_same s p evs st :
  stream s (goto s p evs st)
  = mkStreamSt p (running (stream s st)) (grpErr (stream s st))
               (evs ++ hist (stream s st)).
Proof. apply stream_set_same. Qed.

Lemma stream_goto_other s s' p evs st :
  s <> s' -> stream s' (goto s p evs st) = stream s' st.
Proof. apply stream_set_other. Qed.

Lemma gctx_goto s p evs st : gctx (goto s p evs st) = gctx st.
Proof. apply gctx_set. Qed.

Lemma gErr_goto s p evs st : gErr (goto s p evs st) = gErr st.
Proof. apply gErr_set. Qed.

Lemma stream_grpDone_other s s' i j mr evs st :
  s <> s' -> stream s' (grpDone s i j mr evs st) = stream s' st.
Proof. apply stream_set_other. Qed.

Lemma gctx_grpDone s i j mr evs st :
  gctx (grpDone s i j mr evs st) = gctx st.
Proof. apply gctx_set. Qed.

Lemma gErr_grpDone s i j mr evs st :
  gErr (grpDone s i j mr evs st) = gErr st.
Proof. apply gErr_set. Qed.

Lemma stream_goReturn_same s r evs st :
  stream s (goReturn s r evs st)
  = mkStreamSt (PReturned r) (running (stream s st)) (grpErr (stream s st))
               (EvReturn s r :: evs ++ hist (stream s st)).
Proof.
  unfold goReturn, goto. destruct r as [e|]; [|apply stream_set_same].
  rewrite gErr_set. destruct (gErr st); [apply stream_set_same|].
  destruct s; reflexivity.
Qed.

Lemma stream_goReturn_other s s' r evs st :
  s <> s' -> stream s' (goReturn s r evs st) = stream s' st.
Proof.
  intros H. unfold goReturn, goto. destruct r as [e|];
    [|apply stream_set_other; exact H].
  rewrite gErr_set. destruct (gErr st); [apply stream_set_other; exact H|].
  destruct s, s'; try reflexivity; contradiction.
Qed.

Lemma gctx_goReturn s r evs st :
  gctx (goReturn s r evs st) = gctx st
  \/ (gctx (goReturn s r evs st) = cancel (gctx st) /\ r <> None
      /\ gErr st = None).
Proof.
  unfold goReturn, goto. destruct r as [e|]; [|left; apply gctx_set].
  rewrite gErr_set. destruct (gErr st) eqn:E; [left; apply gctx_set|].
  right. cbn. rewrite gctx_set. auto.
Qed.

Lemma stays_done_cancel g : stays_done g (cancel g).
Proof. intros c ->. reflexivity. Qed.

Lemma stays_done_refl g : stays_done g g.
Proof. intros c H. exact H. Qed.

Lemma stays_done_goReturn s r evs st :
  stays_done (gctx st) (gctx (goReturn s r evs st)).
Proof.
  destruct (gctx_goReturn s r evs st) as [-> | [-> _]];
    [apply stays_done_refl | apply stays_done_cancel].
Qed.

Lemma stream_grpDone_same s i j mr evs st :
  stream s (grpDone s i j mr evs st)
  = mkStreamSt (pc (stream s st))
      (List.filter (fun p => negb (pair_eqb p (i, j))) (running (stream s st)))
      (match mr, grpErr (stream s st) with
       | Some e, None => Some e
       | _, ge => ge
       end)
      (EvMemberReturn s i j mr :: evs ++ hist (stream s st)).
Proof. apply stream_set_same. Qed.

Lemma gErr_goReturn s r evs st :
  gErr (goReturn s r evs st)
  = match gErr st with
    | Some e => Some e
    | None => r
    end.
Proof.
  unfold goReturn.
  cbv zeta. destruct r as [e|]; rewrite ?gErr_goto;
    destruct (gErr st) eqn:E; cbn [gErr]; rewrite ?gErr_goto; auto.
Qed.

Lemma gctx_goReturn_Some s e evs st :
  gErr st = None -> gctx (goReturn s (Some e) evs st) = cancel (gctx st).
Proof.
  intros H. destruct (gctx_goReturn s (Some e) evs st) as [Hg | [Hg _]];
    [|exact Hg].
  unfold goReturn in *.
  rewrite gErr_goto, H in *. cbn. rewrite gctx_goto. reflexivity.
Qed.

(** A failed read: the member logs the error and returns nil; nothing
    else changes. *)
Lemma reader_query_error_step cfg i j e st st' :
  step cfg (AQueryResult Reader i j (Some e)) st = Some st' ->
  pc (rd st') = pc (rd st) /\ gctx st' = gctx st /\ gErr st' = gErr st
  /\ wr st' = wr st
  /\ hist (rd st')
     = EvMemberReturn Reader i j None :: EvQueryError Reader e :: hist (rd st).
Proof.
  cbn [step member]. destruct (existsb _ _); [|discriminate].
  intros [= <-]. cbn. auto.
Qed.

#[local] Opaque goReturn goto grpDone set_stream.

Ltac step_inj H := injection H as <-.

(** Case analysis on the scrutinee of the match at the head of [H]. *)
Ltac case_head H :=
  match type of H with
  | match ?x with _ => _ end = _ => destruct x eqn:?
  | (if ?x then _ else _) = _ => destruct x eqn:?
  | (let '(_, _) := ?x in _) = _ => destruct x eqn:?
  end.

(** Every way [step] can succeed, with [st'] replaced by what it is. *)
Ltac step_cases H :=
  match type of H with
  | step _ ?a _ = Some _ =>
      destruct a as [|?s|?r|?s ?i ?j ?r|?s|]; cbn [step] in H;
      try unfold run_stream in H;
      repeat (case_head H; try discriminate H);
      step_inj H
  end.

Create Rewrite HintDb frame.
Create HintDb frame.
#[local] Hint Rewrite gctx_goto gctx_set gctx_grpDone gErr_goto gErr_set
  gErr_grpDone : frame.
#[local] Hint Resolve stays_done_refl stays_done_goReturn stays_done_cancel
  : frame.

Lemma step_gctx cfg a st st' :
  step cfg a st = Some st' -> stays_done (gctx st) (gctx st').
Proof.
  intros H. step_cases H; autorewrite with frame;
    try match goal with
        | E : gctx ?st = Some _ |- context [goReturn] => rewrite <- E
        end;
    auto with frame.
  all: try (intros c [=]).
  all: try (cbn; congruence).
Qed.

Lemma step_other cfg a st st' s :
  step cfg a st = Some st' -> actor a <> Some s ->
  stream s st' = stream s st.
Proof.
  intros H Hne. step_cases H; cbn [actor] in Hne;
    try (assert (s0 <> s) by congruence);
    try (assert (Writer <> s) by congruence);
    try (assert (Reader <> s) by congruence);
    first [ apply stream_goto_other; assumption
          | apply stream_goReturn_other; assumption
          | apply stream_set_other; assumption
          | apply stream_grpDone_other; assumption
          | destruct s; reflexivity ].
Qed.


(** *** Histories *)

Lemma hinv_split cfg s h post e pre :
  hinv cfg s h -> h = post ++ e :: pre -> event_ok cfg s pre e.
Proof.
  intros Hh ->. induction post as [|p post IH]; cbn in Hh; [tauto|].
  apply IH. tauto.
Qed.

Lemma hinv_In cfg s h e :
  hinv cfg s h -> In e h -> exists pre, event_ok cfg s pre e /\ incl pre h.
Proof.
  induction h as [|e0 h IH]; cbn; [tauto|]. intros [H0 Hh] [-> | Hin].
  - exists h. split; [exact H0 | apply incl_tl, incl_refl].
  - destruct (IH Hh Hin) as (pre & Hok & Hincl).
    exists pre. split; [exact Hok | apply incl_tl, Hincl].
Qed.

Lemma member_nil s i r evs mr :
  member s i r = (evs, mr) ->
  mr = None /\ forall cfg h, hinv cfg s h -> hinv cfg s (evs ++ h).
Proof.
  unfold member. destruct s, r; intros [= <- <-]; (split; [reflexivity|]);
    intros cfg h Hh; cbn; auto.
Qed.

(** *** The invariant is kept *)

Lemma sinv_mono cfg s g g' x :
  sinv cfg s g x -> stays_done g g' -> sinv cfg s g' x.
Proof.
  intros [Hg Hh Hp] Hd. constructor; try assumption.
  unfold at_pc in *. destruct (pc x); try assumption.
  destruct Hp as [Hr Hp]. split; [exact Hr|].
  destruct r as [[c| |]|]; cbn in *; auto.
Qed.

Lemma In_grow {A} (x : A) (evs h : list A) : In x h -> In x (evs ++ h).
Proof. intros H. apply in_or_app. right. exact H. Qed.

(** A member that returns leaves the others as they were: launched, and
    running or returned. *)
Lemma member_done_keeps s i j i0 j0 run h evs :
  In (EvLaunch s i0 j0) h
  /\ (In (i0, j0) run \/ In (EvMemberReturn s i0 j0 None) h) ->
  In (EvLaunch s i0 j0) (EvMemberReturn s i j None :: evs ++ h)
  /\ (In (i0, j0) (List.filter (fun p => negb (pair_eqb p (i, j))) run)
      \/ In (EvMemberReturn s i0 j0 None)
            (EvMemberReturn s i j None :: evs ++ h)).
Proof.
  intros [Hl Hr]. split; [right; apply In_grow; exact Hl|].
  destruct Hr as [Hr | Hr]; [|right; right; apply In_grow; exact Hr].
  destruct (pair_eqb (i0, j0) (i, j)) eqn:E.
  - apply pair_eqb_eq in E. injection E as -> ->. right. left. reflexivity.
  - left. apply In_remove_other; [exact Hr|].
    intros Heq. apply pair_eqb_eq in Heq. congruence.
Qed.

Lemma rounds_done_grow s i evs h :
  rounds_done s i h -> rounds_done s i (evs ++ h).
Proof. intros H k Hk. apply In_grow, H, Hk. Qed.

Lemma rounds_done_cons s i e h :
  rounds_done s i h -> rounds_done s i (e :: h).
Proof. apply (rounds_done_grow s i [e]). Qed.

Lemma rounds_done_le s i i' h :
  rounds_done s i h -> i' <= i -> rounds_done s i' h.
Proof. intros H Hle k Hk. apply H. lia. Qed.

Lemma rounds_done_barrier s i h :
  rounds_done s i h -> rounds_done s (i + 1) (EvBarrier s i :: h).
Proof.
  intros H k Hk. destruct (Z.eq_dec k i) as [-> | Hne];
    [left; reflexivity | right; apply H; lia].
Qed.

Lemma step_actor cfg a st st' s :
  step cfg a st = Some st' -> actor a = Some s ->
  sinv cfg s (gctx st) (stream s st) -> sinv cfg s (gctx st') (stream s st').
Proof.
  intros H Ha [Hg Hh Hp]. unfold at_pc in Hp.
  step_cases H; cbn [actor] in Ha; try discriminate Ha;
    injection Ha as Ha; subst;
    rewrite ?stream_goto_same, ?stream_goReturn_same, ?stream_set_same,
      ?stream_grpDone_same;
    cbn [stream] in *;
    try match goal with E : pc _ = _ |- _ => rewrite E in Hp end.
  - (* reader: "goroutine started" *)
    constructor; unfold at_pc, rounds_done; cbn; intuition lia.
  - (* writer: "goroutine started", "ensuring table exists" *)
    destruct Hp as [Hr Hp].
    constructor; cbn; rewrite ?Hp; cbn; intuition discriminate.
  - (* loop head, gctx done *)
    constructor; unfold at_pc; cbn; try tauto.
    split; [tauto|]. apply stays_done_goReturn. assumption.
  - (* loop head, a new round *)
    destruct Hp as (Hr & Hi & Hd).
    constructor; unfold at_pc; cbn [grpErr hist pc running hinv event_ok];
      try tauto.
    + split; [|assumption]. intros _ Hpos. apply Hd. lia.
    + repeat split; try lia; try (apply rounds_done_cons; exact Hd).
  - (* loop head, all rounds done *)
    destruct Hp as (Hr & Hi & Hd).
    match goal with E : (_ <? _) = false |- _ => apply Z.ltb_ge in E end.
    constructor; unfold at_pc; cbn; try tauto.
    split; [assumption|].
    apply (rounds_done_grow s _ [EvReturn s None; EvDone s]).
    eapply rounds_done_le; eassumption.
  - (* grp.Go *)
    destruct Hp as (Hi & Hd & Hn & Hp).
    constructor; unfold at_pc; cbn [grpErr hist pc running hinv event_ok];
      try tauto.
    split; [lia|]. split; [apply rounds_done_cons; exact Hd|].
    split; [lia|]. intros j0 Hj0.
    destruct (Z.eq_dec j0 j) as [-> | Hne].
    + split; [left; reflexivity | left; left; reflexivity].
    + destruct (Hp j0 ltac:(lia)) as [Hl [Hr | Hr]];
        (split; [right; exact Hl|]);
        [left; right; exact Hr | right; right; exact Hr].
  - (* the inner loop is over *)
    destruct Hp as (Hi & Hd & Hn & Hp).
    match goal with E : (_ <? _) = false |- _ => apply Z.ltb_ge in E end.
    constructor; unfold at_pc; cbn; try tauto.
    split; [assumption|]. split; [assumption|].
    intros j0 Hj0. apply Hp. lia.
  - (* grp.Wait returns *)
    destruct Hp as (Hi & Hd & Hp).
    match goal with E : running _ = [] |- _ => rewrite E in Hp end.
    rewrite Hg.
    constructor; unfold at_pc; cbn [grpErr hist pc running app hinv event_ok].
    + reflexivity.
    + split; [|assumption]. intros _ j0 Hj0.
      destruct (Hp j0 Hj0) as [Hl [[] | Hr]]. split; assumption.
    + repeat split; try assumption. apply rounds_done_barrier, Hd.
  - (* the select after the batch, gctx done *)
    constructor; unfold at_pc; cbn; try tauto.
    split; [tauto|]. apply stays_done_goReturn. assumption.
  - (* the DDL failed *)
    destruct Hp as (Hr & _ & Hp).
    constructor; unfold at_pc; cbn; try tauto.
    repeat split; try assumption.
    intros i [Hd | Hin]; [discriminate | exact (Hp i Hin)].
  - (* the DDL went through *)
    constructor; unfold at_pc, rounds_done; cbn; intuition lia.
  - (* a member's query returns *)
    match goal with E : member _ _ _ = _ |- _ =>
      destruct (member_nil _ _ _ _ _ E) as [-> Hm] end.
    match goal with E : existsb _ _ = true |- _ =>
      apply existsb_pair_In in E; rename E into Hin end.
    constructor; unfold at_pc; cbn [grpErr hist pc running app hinv event_ok].
    + assumption.
    + split; [reflexivity | apply Hm; assumption].
    + destruct (pc (stream s st));
        try (destruct Hp as [Hr _]; rewrite Hr in Hin; destruct Hin).
      * destruct Hp as (Hi & Hd & Hn & Hp).
        split; [assumption|].
        split; [apply rounds_done_cons, rounds_done_grow, Hd|].
        split; [assumption|].
        intros k Hk. apply member_done_keeps, Hp, Hk.
      * destruct Hp as (Hi & Hd & Hp).
        split; [assumption|].
        split; [apply rounds_done_cons, rounds_done_grow, Hd|].
        intros k Hk. apply member_done_keeps, Hp, Hk.
  - (* the timer of the select *)
    destruct Hp as (Hr & Hi & Hp).
    constructor; unfold at_pc; cbn; try tauto.
    repeat split; try assumption. lia.
Qed.

Lemma step_Inv_stream cfg a st st' s :
  step cfg a st = Some st' ->
  sinv cfg s (gctx st) (stream s st) -> sinv cfg s (gctx st') (stream s st').
Proof.
  intros H Hs.
  destruct (actor a) as [s0|] eqn:Ha.
  - destruct s, s0; try (eapply step_actor; eassumption).
    all: rewrite (step_other _ _ _ _ _ H) by congruence;
      eapply sinv_mono; [eassumption | eapply step_gctx; eassumption].
  - rewrite (step_other _ _ _ _ _ H) by congruence.
    eapply sinv_mono; [eassumption | eapply step_gctx; eassumption].
Qed.

Lemma cancel_done g : cancel g <> None.
Proof. destruct g; discriminate. Qed.

Lemma stays_done_not_None g g' : stays_done g g' -> g <> None -> g' <> None.
Proof.
  intros Hd Hg. destruct g as [c|]; [|contradiction].
  rewrite (Hd c eq_refl). discriminate.
Qed.

Lemma ginv_goReturn s r evs st :
  ginv st -> (forall e, r = Some e -> fatal_error e) ->
  ginv (goReturn s r evs st).
Proof.
  intros Hi Hr e. rewrite gErr_goReturn. destruct (gErr st) as [e0|] eqn:E.
  - intros [= <-]. destruct (Hi e0 E) as [Hg Hf]. split; [|exact Hf].
    eapply stays_done_not_None; [apply stays_done_goReturn | exact Hg].
  - intros ->. split; [|apply Hr; reflexivity].
    rewrite gctx_goReturn_Some by exact E. apply cancel_done.
Qed.

Lemma ginv_same st st' :
  ginv st -> gErr st' = gErr st -> stays_done (gctx st) (gctx st') ->
  ginv st'.
Proof.
  intros Hi He Hd e. rewrite He. intros H. destruct (Hi e H) as [Hg Hf].
  split; [|exact Hf]. eapply stays_done_not_None; eassumption.
Qed.

Lemma step_gErr cfg a st st' :
  step cfg a st = Some st' ->
  gErr st' = gErr st
  \/ exists s r evs,
       st' = goReturn s r evs st /\ forall e, r = Some e -> fatal_error e.
Proof.
  intros H.
  step_cases H;
    first [ left; autorewrite with frame; reflexivity
          | right; do 3 eexists; split;
            [ reflexivity
            | first [ intros ? [= <-]; unfold fatal_error; eauto
                    | intros ? [=] ] ] ].
Qed.

Lemma step_ginv cfg a st st' : step cfg a st = Some st' -> ginv st -> ginv st'.
Proof.
  intros H Hi.
  destruct (step_gErr _ _ _ _ H) as [He | (s & r & evs & -> & Hr)].
  - eapply ginv_same; [exact Hi | exact He | eapply step_gctx; exact H].
  - apply ginv_goReturn; assumption.
Qed.

Lemma step_Inv cfg a st st' :
  step cfg a st = Some st' -> Inv cfg st -> Inv cfg st'.
Proof.
  intros H (Hr & Hw & Hg). split; [|split].
  - exact (step_Inv_stream _ _ _ _ Reader H Hr).
  - exact (step_Inv_stream _ _ _ _ Writer H Hw).
  - exact (step_ginv _ _ _ _ H Hg).
Qed.

Lemma Inv_init cfg : Inv cfg init.
Proof.
  split; [|split]; [constructor; cbn; auto .. | intros e [=]].
Qed.

Lemma exec_Inv cfg acts : forall st st',
  exec cfg acts st = Some st' -> Inv cfg st -> Inv cfg st'.
Proof.
  induction acts as [|a acts IH]; cbn; intros st st' H Hi.
  - injection H as <-. exact Hi.
  - destruct (step cfg a st) as [st1|] eqn:E; [|discriminate].
    eapply IH; [exact H|]. eapply step_Inv; eassumption.
Qed.

Lemma Inv_stream cfg st s : Inv cfg st -> sinv cfg s (gctx st) (stream s st).
Proof. intros (Hr & Hw & _). destruct s; assumption. Qed.

Lemma reachable_sinv cfg acts st s :
  exec cfg acts init = Some st -> sinv cfg s (gctx st) (stream s st).
Proof.
  intros H. apply Inv_stream. eapply exec_Inv; [exact H | apply Inv_init].
Qed.

(** *** Barriers and rounds *)

(** C9. In every reachable state and for either stream: whenever the
    history shows that [grp.Wait()] of round [i] returned, each of the
    [conc] members of that round was started and has returned before;
    whenever it shows that round [i + 1] began, the barrier of round [i]
    was passed before; and while a member is still running the goroutine
    cannot leave [grp.Wait()].  (Histories are newest first: in
    [post ++ e :: pre] the events [pre] came before [e].) *)
Theorem round_barrier_order (cfg : Config) (acts : list Action) (st : State)
        (s : Stream) (i : Z) :
  exec cfg acts init = Some st ->
  (forall post pre, hist (stream s st) = post ++ EvBarrier s i :: pre ->
     forall j, 0 <= j < conc cfg s ->
       In (EvLaunch s i j) pre /\ In (EvMemberReturn s i j None) pre)
  /\ (forall post pre, hist (stream s st) = post ++ EvRound s (i + 1) :: pre ->
        0 <= i -> In (EvBarrier s i) pre)
  /\ (pc (stream s st) = PWait i -> running (stream s st) <> [] ->
      step cfg (ARun s) st = None).
Proof.
  intros Hex. destruct (reachable_sinv cfg acts st s Hex) as [_ Hh _].
  split; [|split].
  - intros post pre Hs. exact (hinv_split _ _ _ _ _ _ Hh Hs eq_refl).
  - intros post pre Hs Hi.
    pose proof (hinv_split _ _ _ _ _ _ Hh Hs eq_refl ltac:(lia)) as Hb.
    replace (i + 1 - 1) with i in Hb by lia. exact Hb.
  - intros Hpc Hrun. cbn [step]. unfold run_stream. rewrite Hpc.
    destruct (running (stream s st)); [contradiction | reflexivity].
Qed.

Lemma round_barrier_order_witness :
  (forall post pre,
      hist (stream Reader (demo_state demo_round0))
      = post ++ EvBarrier Reader 0 :: pre ->
      forall j, 0 <= j < conc demo_cfg Reader ->
        In (EvLaunch Reader 0 j) pre /\ In (EvMemberReturn Reader 0 j None) pre)
  /\ (forall post pre,
        hist (stream Reader (demo_state demo_round0))
        = post ++ EvRound Reader (0 + 1) :: pre ->
        0 <= 0 -> In (EvBarrier Reader 0) pre)
  /\ (pc (stream Reader (demo_state demo_round0)) = PWait 0 ->
      running (stream Reader (demo_state demo_round0)) <> [] ->
      step demo_cfg (ARun Reader) (demo_state demo_round0) = None).
Proof.
  apply (round_barrier_order demo_cfg demo_round0 (demo_state demo_round0)
                             Reader 0).
  vm_compute. reflexivity.
Defined.

(** The history of the small run, oldest event last. *)
Example demo_round0_history :
  hist (rd (demo_state demo_round0))
  = [EvBarrier Reader 0;
     EvMemberReturn Reader 0 0 None; EvPing 1;
     EvMemberReturn Reader 0 1 None; EvQueryError Reader (ErrPool "conn reset");
     EvLaunch Reader 0 1; EvLaunch Reader 0 0;
     EvRound Reader 0; EvStarted Reader].
Proof. vm_compute. reflexivity. Qed.

(** With one read outstanding the barrier is closed. *)
Example demo_barrier_closed :
  option_map (fun st => step demo_cfg (ARun Reader) st)
    (exec demo_cfg
       [ARun Reader; ARun Reader; ARun Reader; ARun Reader; ARun Reader;
        AQueryResult Reader 0 1 None] init)
  = Some None.
Proof. vm_compute. reflexivity. Qed.

(** *** Query errors in the reader *)

Lemma hinv_no_batch cfg s h e : hinv cfg s h -> ~ In (EvBatchError s e) h.
Proof.
  intros Hh Hin. destruct (hinv_In _ _ _ _ Hh Hin) as (pre & Hok & _).
  cbn in Hok. congruence.
Qed.

Lemma hinv_barrier_In cfg s h i :
  hinv cfg s h -> In (EvBarrier s i) h ->
  forall j, 0 <= j < conc cfg s ->
    In (EvLaunch s i j) h /\ In (EvMemberReturn s i j None) h.
Proof.
  intros Hh Hin j Hj. destruct (hinv_In _ _ _ _ Hh Hin) as (pre & Hok & Hincl).
  destruct (Hok eq_refl j Hj) as [Hl Hr]. split; apply Hincl; assumption.
Qed.

(** *** The DDL of the writer *)

(** A goroutine that has returned does nothing more. *)
Lemma returned_stuck cfg a st st' s r :
  sinv cfg s (gctx st) (stream s st) ->
  pc (stream s st) = PReturned r ->
  step cfg a st = Some st' -> stream s st' = stream s st.
Proof.
  intros [_ _ Hp] Hpc H. unfold at_pc in Hp. rewrite Hpc in Hp.
  destruct Hp as [Hrun _].
  destruct (actor a) as [s0|] eqn:Ha;
    [|apply (step_other _ _ _ _ _ H); congruence].
  destruct s, s0; try (apply (step_other _ _ _ _ _ H); congruence).
  all: destruct a as [|s1|r1|s1 i j r1|s1|]; cbn [actor] in Ha;
    try discriminate Ha; try (injection Ha as ->);
    cbn [step stream] in *; unfold run_stream in H; cbn [stream] in H;
    rewrite ?Hpc, ?Hrun in H; discriminate H.
Qed.

Lemma exec_returned_stuck cfg acts s r : forall st st',
  Inv cfg st -> pc (stream s st) = PReturned r ->
  exec cfg acts st = Some st' -> stream s st' = stream s st.
Proof.
  induction acts as [|a acts IH]; cbn; intros st st' Hi Hpc H.
  - injection H as <-. reflexivity.
  - destruct (step cfg a st) as [st1|] eqn:E; [|discriminate].
    pose proof (returned_stuck _ _ _ _ _ _ (Inv_stream _ _ s Hi) Hpc E) as Hs.
    rewrite (IH st1 st'); [exact Hs | eapply step_Inv; eassumption | | exact H].
    rewrite Hs. exact Hpc.
Qed.

Lemma exec_gctx cfg acts : forall st st',
  exec cfg acts st = Some st' -> stays_done (gctx st) (gctx st').
Proof.
  induction acts as [|a acts IH]; cbn; intros st st' H.
  - injection H as <-. apply stays_done_refl.
  - destruct (step cfg a st) as [st1|] eqn:E; [|discriminate].
    intros c Hc. apply (IH _ _ H). apply (step_gctx _ _ _ _ E). exact Hc.
Qed.

Lemma step_gErr_sticky cfg a st st' e :
  step cfg a st = Some st' -> gErr st = Some e -> gErr st' = Some e.
Proof.
  intros H He.
  destruct (step_gErr _ _ _ _ H) as [-> | (s & r & evs & -> & _)];
    [exact He|].
  rewrite gErr_goReturn, He. reflexivity.
Qed.

Lemma exec_gErr_sticky cfg acts e : forall st st',
  exec cfg acts st = Some st' -> gErr st = Some e -> gErr st' = Some e.
Proof.
  induction acts as [|a acts IH]; cbn; intros st st' H He.
  - injection H as <-. exact He.
  - destruct (step cfg a st) as [st1|] eqn:E; [|discriminate].
    apply (IH _ _ H). eapply step_gErr_sticky; eassumption.
Qed.

(** Once [gctx] is done no stream begins a round. *)
Lemma step_no_new_round cfg a st st' c s i :
  gctx st = Some c -> step cfg a st = Some st' ->
  In (EvRound s i) (hist (stream s st')) ->
  In (EvRound s i) (hist (stream s st)).
Proof.
  intros Hc H.
  destruct (actor a) as [s0|] eqn:Ha;
    [|rewrite (step_other _ _ _ _ s H) by congruence; auto].
  destruct (Stream_eq_dec s0 s) as [-> | Hne];
    [|rewrite (step_other _ _ _ _ s H) by congruence; auto].
  step_cases H; cbn [actor] in Ha; try discriminate Ha;
    injection Ha as Ha; subst;
    rewrite ?stream_goto_same, ?stream_goReturn_same, ?stream_set_same,
      ?stream_grpDone_same; cbn [hist app];
    try congruence.
  all: try match goal with
           | |- context [match grpErr ?x with _ => _ end] => destruct (grpErr x)
           end.
  all: try match goal with
           | E : member ?s _ ?r = _ |- _ =>
               unfold member in E; destruct s, r; injection E as <- <-
           end.
  all: cbn [In app]; intuition discriminate.
Qed.

Lemma exec_no_new_round cfg acts c s i : forall st st',
  gctx st = Some c -> exec cfg acts st = Some st' ->
  In (EvRound s i) (hist (stream s st')) ->
  In (EvRound s i) (hist (stream s st)).
Proof.
  induction acts as [|a acts IH]; cbn; intros st st' Hc H.
  - injection H as <-. auto.
  - destruct (step cfg a st) as [st1|] eqn:E; [|discriminate].
    intros Hin. eapply step_no_new_round; [exact Hc | exact E |].
    eapply IH; [|exact H | exact Hin]. exact (step_gctx _ _ _ _ E c Hc).
Qed.

(** *** A stream stops once [gctx] is done *)

Lemma remove_member_shorter (p : Z * Z) l :
  In p l ->
  (length (List.filter (fun q => negb (pair_eqb q p)) l) < length l)%nat.
Proof.
  induction l as [|q l IH]; cbn; [tauto|]. intros [-> | Hin].
  - replace (pair_eqb p p) with true by (symmetry; apply pair_eqb_eq; reflexivity).
    cbn. pose proof (filter_length_le (fun q => negb (pair_eqb q p)) l). lia.
  - specialize (IH Hin). destruct (negb (pair_eqb q p)); cbn; lia.
Qed.

Lemma step_steps_left cfg a st st' s c :
  sinv cfg s (gctx st) (stream s st) -> gctx st = Some c ->
  actor a = Some s -> step cfg a st = Some st' ->
  (steps_left cfg s (stream s st') < steps_left cfg s (stream s st))%nat.
Proof.
  intros [_ _ Hp] Hc Ha H. unfold at_pc in Hp.
  remember (steps_left cfg s (stream s st')) as n' eqn:Hn'.
  remember (steps_left cfg s (stream s st)) as n eqn:Hn.
  step_cases H; cbn [actor] in Ha; try discriminate Ha;
    injection Ha as Ha; subst; unfold steps_left;
    rewrite ?stream_goto_same, ?stream_goReturn_same, ?stream_set_same,
      ?stream_grpDone_same;
    cbn [stream] in *;
    try match goal with E : pc _ = _ |- _ => rewrite E in *  end;
    cbn [pc running length]; try lia; try congruence.
  (* a member's query returns *)
  match goal with E : existsb _ _ = true |- _ =>
    apply existsb_pair_In in E; rename E into Hin end.
  pose proof (remove_member_shorter _ _ Hin) as Hlt.
  destruct (pc (stream s st));
    try (destruct Hp as [Hr _]; rewrite Hr in Hin; destruct Hin); lia.
Qed.

Lemma exec_steps_left cfg acts s c : forall st st',
  Inv cfg st -> gctx st = Some c -> exec cfg acts st = Some st' ->
  (length (List.filter (acts_of s) acts) + steps_left cfg s (stream s st')
   <= steps_left cfg s (stream s st))%nat.
Proof.
  induction acts as [|a acts IH]; cbn [exec List.filter]; intros st st' Hi Hc H.
  - injection H as <-. cbn. lia.
  - destruct (step cfg a st) as [st1|] eqn:E; [|discriminate].
    assert (Hi1 : Inv cfg st1) by (eapply step_Inv; eassumption).
    pose proof (step_gctx _ _ _ _ E c Hc) as Hc1.
    specialize (IH st1 st' Hi1 Hc1 H).
    unfold acts_of at 1. destruct (actor a) as [s'|] eqn:Ha.
    + destruct (Stream_eq_dec s' s) as [-> | Hne].
      * pose proof (step_steps_left _ _ _ _ _ _ (Inv_stream _ _ s Hi) Hc Ha E).
        cbn [length]. lia.
      * rewrite (step_other _ _ _ _ s E) in IH by congruence. exact IH.
    + rewrite (step_other _ _ _ _ s E) in IH by congruence. exact IH.
Qed.

(** Once [gctx] is done, a stream that has not returned can take a step
    (its own, or the return of one of its members' queries). *)
Lemma cancelled_progress cfg st s c :
  sinv cfg s (gctx st) (stream s st) -> gctx st = Some c ->
  (forall r, pc (stream s st) <> PReturned r) ->
  s = Reader \/ pc (stream s st) <> PDDL ->
  exists a st', actor a = Some s /\ step cfg a st = Some st'.
Proof.
  intros [_ _ Hp] Hc Hnr Hd. unfold at_pc in Hp.
  destruct (pc (stream s st)) as [| |i|i j|i|i|r] eqn:Hpc.
  - exists (ARun s). cbn [step actor]. unfold run_stream. rewrite Hpc.
    destruct s; eauto.
  - destruct Hd as [-> | Hd]; [|contradiction].
    destruct Hp as (_ & [=] & _).
  - exists (ARun s). cbn [step actor]. unfold run_stream. rewrite Hpc, Hc.
    destruct (i <? Iterations cfg); eauto.
  - exists (ARun s). cbn [step actor]. unfold run_stream. rewrite Hpc.
    destruct (j <? conc cfg s); eauto.
  - destruct (running (stream s st)) as [|[i0 j0] l] eqn:Hrun.
    + exists (ARun s). cbn [step actor]. unfold run_stream.
      rewrite Hpc, Hrun. eauto.
    + exists (AQueryResult s i0 j0 None). cbn [step actor]. rewrite Hrun.
      cbn [existsb].
      replace (pair_eqb (i0, j0) (i0, j0)) with true
        by (symmetry; apply pair_eqb_eq; reflexivity).
      cbn [orb]. destruct (member s i0 None); eauto.
  - exists (ARun s). cbn [step actor]. unfold run_stream. rewrite Hpc, Hc.
    eauto.
  - destruct (Hnr r eq_refl).
Qed.

Lemma pc_goReturn s r evs st : pc (stream s (goReturn s r evs st)) = PReturned r.
Proof. rewrite stream_goReturn_same. reflexivity. Qed.

(** C1. Let the DDL of the writer fail with [e] in a reachable state, and
    let the run go on in any way.  Then the writer has returned
    "writer DDL: e" and never began a round; [gctx] is done, and stays
    done with the same cause; [g] holds an error, this one unless it held
    one already; the reader begins no round after the failure, and where
    it stands at a round boundary (the loop head or the select after a
    batch) its next step is to return, with [gctx.Err()] if rounds were
    left; the only non-nil results of either goroutine are [gctx.Err()]
    and this DDL error, and no result of a member's query changes the
    error of [g] or [gctx].  From the failure on the reader takes at most
    [steps_left] more steps, whatever the schedule, and it is never stuck
    before it has returned. *)
Theorem ddl_failure_is_fatal (cfg : Config) (before after : list Action)
        (st1 st2 st3 : State) (e : Error) :
  exec cfg before init = Some st1 ->
  step cfg (ADDLResult (Some e)) st1 = Some st2 ->
  exec cfg after st2 = Some st3 ->
  pc (wr st3) = PReturned (Some (ErrWrap "writer DDL: " e))
  /\ (forall i, ~ In (EvRound Writer i) (hist (wr st3)))
  /\ (exists c, gctx st2 = Some c /\ gctx st3 = Some c)
  /\ (exists err, gErr st3 = Some err
        /\ (gErr st1 = None -> err = ErrWrap "writer DDL: " e))
  /\ (forall i, In (EvRound Reader i) (hist (rd st3)) ->
        In (EvRound Reader i) (hist (rd st2)))
  /\ (forall i, pc (rd st3) = PLoop i ->
        exists st4 r, step cfg (ARun Reader) st3 = Some st4
          /\ pc (rd st4) = PReturned r
          /\ (i < Iterations cfg -> exists c, r = Some (ErrCtx c)))
  /\ (forall i, pc (rd st3) = PSleep i ->
        exists st4 c, step cfg (ARun Reader) st3 = Some st4
          /\ pc (rd st4) = PReturned (Some (ErrCtx c)))
  /\ (forall s r, pc (stream s st3) = PReturned (Some r) ->
        (exists c, r = ErrCtx c)
        \/ (s = Writer /\ r = ErrWrap "writer DDL: " e))
  /\ (forall s i j r st4, step cfg (AQueryResult s i j r) st3 = Some st4 ->
        gErr st4 = gErr st3 /\ gctx st4 = gctx st3)
  /\ (length (List.filter (acts_of Reader) after)
      + steps_left cfg Reader (rd st3) <= steps_left cfg Reader (rd st2))%nat
  /\ ((forall r, pc (rd st3) <> PReturned r) ->
      exists a st4, actor a = Some Reader /\ step cfg a st3 = Some st4).
Proof.
  intros H1 H2 H3.
  assert (Hi1 : Inv cfg st1) by (eapply exec_Inv; [exact H1 | apply Inv_init]).
  assert (Hi2 : Inv cfg st2) by (eapply step_Inv; eassumption).
  assert (Hi3 : Inv cfg st3) by (eapply exec_Inv; eassumption).
  (* the failing step *)
  cbn [step] in H2. destruct (pc (wr st1)) eqn:Hpc1; try discriminate H2.
  injection H2 as H2.
  assert (Hw2 : pc (wr st2) = PReturned (Some (ErrWrap "writer DDL: " e)))
    by (rewrite <- H2; apply (pc_goReturn Writer)).
  assert (Hg2 : gErr st2 = match gErr st1 with
                           | Some e0 => Some e0
                           | None => Some (ErrWrap "writer DDL: " e)
                           end)
    by (rewrite <- H2; apply gErr_goReturn).
  assert (Hc2 : exists c, gctx st2 = Some c).
  { destruct (gErr st2) as [e2|] eqn:E2;
      [|destruct (gErr st1); discriminate Hg2].
    destruct Hi2 as (_ & _ & Hgi). destruct (Hgi e2 E2) as [Hne _].
    destruct (gctx st2) as [c|]; [eauto | contradiction]. }
  destruct Hc2 as [c Hc2].
  pose proof (exec_gctx _ _ _ _ H3 c Hc2) as Hc3.
  (* the writer stays where it returned *)
  pose proof (exec_returned_stuck cfg after Writer _ st2 st3 Hi2 Hw2 H3) as Hw3.
  cbn [stream] in Hw3.
  pose proof (Inv_stream _ _ Writer Hi3) as [_ _ Hpw]. unfold at_pc in Hpw.
  cbn [stream] in Hpw. rewrite Hw3, Hw2 in Hpw. destruct Hpw as (_ & _ & _ & Hnr).
  split; [rewrite Hw3; exact Hw2|].
  split; [rewrite Hw3; exact Hnr|].
  split; [exists c; auto|].
  split.
  { destruct (gErr st2) as [e2|] eqn:E2;
      [|destruct (gErr st1); discriminate Hg2].
    exists e2. split; [eapply exec_gErr_sticky; eassumption|].
    intros Hn. rewrite Hn in Hg2. congruence. }
  split; [intros i; apply (exec_no_new_round cfg after c Reader i st2 st3 Hc2 H3)|].
  split.
  { intros i Hpc. cbn [step]. unfold run_stream. cbn [stream].
    rewrite Hpc, Hc3. destruct (i <? Iterations cfg) eqn:Hlt.
    - eexists _, _. split; [reflexivity|].
      split; [apply (pc_goReturn Reader) | eauto].
    - eexists _, _. split; [reflexivity|].
      split; [apply (pc_goReturn Reader)|].
      apply Z.ltb_ge in Hlt. lia. }
  split.
  { intros i Hpc. cbn [step]. unfold run_stream. cbn [stream].
    rewrite Hpc, Hc3. eexists _, c. split; [reflexivity|].
    apply (pc_goReturn Reader). }
  split.
  { intros s r Hpc. pose proof (Inv_stream _ _ s Hi3) as [_ _ Hp].
    unfold at_pc in Hp. rewrite Hpc in Hp. destruct Hp as [_ Hp].
    destruct r as [c'| |p e']; cbn in Hp; [eauto | contradiction|].
    destruct Hp as (-> & -> & _). right. split; [reflexivity|].
    cbn [stream] in Hpc. rewrite Hw3, Hw2 in Hpc. congruence. }
  split.
  { intros s i j r st4 Hs. cbn [step] in Hs.
    destruct (existsb _ _); [|discriminate].
    destruct (member s i r) as [evs mr]. injection Hs as <-.
    autorewrite with frame. auto. }
  split.
  { exact (exec_steps_left cfg after Reader c st2 st3 Hi2 Hc2 H3). }
  intros Hlive.
  apply (cancelled_progress cfg st3 Reader c (Inv_stream _ _ Reader Hi3) Hc3
           Hlive).
  left. reflexivity.
Qed.

Lemma ddl_failure_is_fatal_witness :
  let st1 := demo_state demo_round0 in
  let st2 := demo_state (demo_round0 ++ [ADDLResult (Some demo_ddl_error)]) in
  let st3 := demo_state (demo_round0 ++ [ADDLResult (Some demo_ddl_error)]
                           ++ [ATimer Reader]) in
  pc (wr st3) = PReturned (Some (ErrWrap "writer DDL: " demo_ddl_error))
  /\ (forall i, ~ In (EvRound Writer i) (hist (wr st3)))
  /\ (exists c, gctx st2 = Some c /\ gctx st3 = Some c)
  /\ (exists err, gErr st3 = Some err
        /\ (gErr st1 = None -> err = ErrWrap "writer DDL: " demo_ddl_error))
  /\ (forall i, In (EvRound Reader i) (hist (rd st3)) ->
        In (EvRound Reader i) (hist (rd st2)))
  /\ (forall i, pc (rd st3) = PLoop i ->
        exists st4 r, step demo_cfg (ARun Reader) st3 = Some st4
          /\ pc (rd st4) = PReturned r
          /\ (i < Iterations demo_cfg -> exists c, r = Some (ErrCtx c)))
  /\ (forall i, pc (rd st3) = PSleep i ->
        exists st4 c, step demo_cfg (ARun Reader) st3 = Some st4
          /\ pc (rd st4) = PReturned (Some (ErrCtx c)))
  /\ (forall s r, pc (stream s st3) = PReturned (Some r) ->
        (exists c, r = ErrCtx c)
        \/ (s = Writer /\ r = ErrWrap "writer DDL: " demo_ddl_error))
  /\ (forall s i j r st4,
        step demo_cfg (AQueryResult s i j r) st3 = Some st4 ->
        gErr st4 = gErr st3 /\ gctx st4 = gctx st3)
  /\ (length (List.filter (acts_of Reader) [ATimer Reader])
      + steps_left demo_cfg Reader (rd st3)
      <= steps_left demo_cfg Reader (rd st2))%nat
  /\ ((forall r, pc (rd st3) <> PReturned r) ->
      exists a st4, actor a = Some Reader /\ step demo_cfg a st3 = Some st4).
Proof.
  apply (ddl_failure_is_fatal demo_cfg demo_round0 [ATimer Reader]
           (demo_state demo_round0)
           (demo_state (demo_round0 ++ [ADDLResult (Some demo_ddl_error)]))
           (demo_state (demo_round0 ++ [ADDLResult (Some demo_ddl_error)]
                          ++ [ATimer Reader]))
           demo_ddl_error).
  - vm_compute. reflexivity.
  - vm_compute. reflexivity.
  - vm_compute. reflexivity.
Defined.

(** The end of that run: the reader is at the loop head of round 1, sees
    [gctx] done and returns [context.Canceled]; [g.Wait()] gives the DDL
    error. *)
Example demo_ddl_failure_run :
  let st := demo_state (demo_round0 ++ [ADDLResult (Some demo_ddl_error);
                                        ATimer Reader; ARun Reader]) in
  pc (rd st) = PReturned (Some (ErrCtx Canceled))
  /\ gWait st = Some (Some (ErrWrap "writer DDL: " demo_ddl_error))
  /\ List.filter (fun e => match e with EvRound _ _ => true | _ => false end)
                 (hist (rd st) ++ hist (wr st))
     = [EvRound Reader 0].
Proof. vm_compute. auto. Qed.

(** *** A stream that is given its turns goes on to its return *)

Lemma loop_left_round cfg s i :
  i < Iterations cfg ->
  loop_left cfg s i = (round_cost cfg s + loop_left cfg s (i + 1))%nat.
Proof.
  intros Hi. unfold loop_left.
  replace (Z.to_nat (Iterations cfg - i))
    with (S (Z.to_nat (Iterations cfg - (i + 1)))) by lia.
  cbn [Nat.mul]. lia.
Qed.

Lemma loop_left_pos cfg s i : (0 < loop_left cfg s i)%nat.
Proof. unfold loop_left. rewrite Nat.add_1_r. apply Nat.lt_0_succ. Qed.

(** Every action of a stream brings it nearer to its return. *)
Lemma step_work_left cfg a st st' s :
  sinv cfg s (gctx st) (stream s st) ->
  actor a = Some s -> step cfg a st = Some st' ->
  (work_left cfg s (stream s st') < work_left cfg s (stream s st))%nat.
Proof.
  intros [_ _ Hp] Ha H. unfold at_pc in Hp.
  step_cases H; cbn [actor] in Ha; try discriminate Ha;
    injection Ha as Ha; subst; unfold work_left;
    rewrite ?stream_goto_same, ?stream_goReturn_same, ?stream_set_same,
      ?stream_grpDone_same;
    cbn [stream] in *;
    try match goal with E : pc _ = _ |- _ => rewrite E in *  end;
    cbn [pc running length]; try lia; try congruence.
  all: try match goal with
           | E : (?i <? Iterations ?c) = true |- _ =>
               apply Z.ltb_lt in E;
               rewrite (loop_left_round c _ i E); unfold round_cost
           end.
  all: try match goal with
           | E : (_ <? conc _ _) = true |- _ => apply Z.ltb_lt in E
           end.
  all: try lia.
  all: try (unfold loop_left; lia).
  (* a member's query returns *)
  match goal with E : existsb _ _ = true |- _ =>
    apply existsb_pair_In in E; rename E into Hin end.
  pose proof (remove_member_shorter _ _ Hin) as Hlt.
  destruct (pc (stream s st));
    try (destruct Hp as [Hr _]; rewrite Hr in Hin; destruct Hin); lia.
Qed.

(** A stream takes at most [work_left] actions, whatever the schedule. *)
Lemma exec_work_left cfg acts s : forall st st',
  Inv cfg st -> exec cfg acts st = Some st' ->
  (length (List.filter (acts_of s) acts) + work_left cfg s (stream s st')
   <= work_left cfg s (stream s st))%nat.
Proof.
  induction acts as [|a acts IH]; cbn [exec List.filter]; intros st st' Hi H.
  - injection H as <-. cbn. lia.
  - destruct (step cfg a st) as [st1|] eqn:E; [|discriminate].
    assert (Hi1 : Inv cfg st1) by (eapply step_Inv; eassumption).
    specialize (IH st1 st' Hi1 H).
    unfold acts_of at 1. destruct (actor a) as [s'|] eqn:Ha.
    + destruct (Stream_eq_dec s' s) as [-> | Hne].
      * pose proof (step_work_left _ _ _ _ _ (Inv_stream _ _ s Hi) Ha E).
        cbn [length]. lia.
      * rewrite (step_other _ _ _ _ s E) in IH by congruence. exact IH.
    + rewrite (step_other _ _ _ _ s E) in IH by congruence. exact IH.
Qed.

(** A stream that has not returned is never stuck: the action that comes
    next is enabled, whatever the result of the query that returns. *)
Lemma next_action_enabled cfg res st s :
  sinv cfg s (gctx st) (stream s st) ->
  (forall r, pc (stream s st) <> PReturned r) ->
  exists a st',
    next_action res s st = Some a /\ actor a = Some s
    /\ step cfg a st = Some st'.
Proof.
  intros [_ _ Hp] Hnr. unfold at_pc in Hp. unfold next_action.
  destruct (pc (stream s st)) as [| |i|i j|i|i|r] eqn:Hpc.
  - exists (ARun s). cbn [step actor]. unfold run_stream. rewrite Hpc.
    destruct s; eauto.
  - destruct Hp as (_ & -> & _). exists (ADDLResult None).
    cbn [step actor stream] in *. rewrite Hpc. eauto.
  - exists (ARun s). cbn [step actor]. unfold run_stream. rewrite Hpc.
    destruct (i <? Iterations cfg); [destruct (gctx st)|]; eauto.
  - exists (ARun s). cbn [step actor]. unfold run_stream. rewrite Hpc.
    destruct (j <? conc cfg s); eauto.
  - destruct (running (stream s st)) as [|[i0 j0] l] eqn:Hrun.
    + exists (ARun s). cbn [step actor]. unfold run_stream.
      rewrite Hpc, Hrun. eauto.
    + exists (AQueryResult s i0 j0 (res i0 j0)). cbn [step actor].
      rewrite Hrun. cbn [existsb].
      replace (pair_eqb (i0, j0) (i0, j0)) with true
        by (symmetry; apply pair_eqb_eq; reflexivity).
      cbn [orb]. destruct (member s i0 (res i0 j0)); eauto.
  - exists (ATimer s). cbn [step actor]. rewrite Hpc. eauto.
  - destruct (Hnr r eq_refl).
Qed.

(** The action that comes next does not end [gctx]. *)
Lemma next_action_gctx cfg res st st' s a :
  next_action res s st = Some a -> step cfg a st = Some st' ->
  gctx st = None -> gctx st' = None.
Proof.
  unfold next_action. intros Hn H Hg.
  destruct (pc (stream s st)) as [| |i|i j|i|i|r] eqn:Hpc;
    try discriminate Hn;
    try (destruct (running (stream s st)) as [|[i0 j0] l] eqn:Hrun);
    injection Hn as <-; cbn [step] in H; unfold run_stream in H;
    rewrite ?Hpc, ?Hrun, ?Hg in H;
    repeat (case_head H; try discriminate H); step_inj H;
    autorewrite with frame; try exact Hg.
  all: destruct (gctx_goReturn s None [EvDone s] st) as [-> | (_ & Hne & _)];
    [exact Hg | destruct (Hne eq_refl)].
Qed.

Lemma alone_actions cfg res s fuel : forall st a,
  In a (alone cfg res s fuel st) ->
  exists st0, next_action res s st0 = Some a.
Proof.
  induction fuel as [|fuel IH]; intros st a; cbn [alone]; [intros []|].
  destruct (next_action res s st) as [a0|] eqn:Hn; [|intros []].
  destruct (step cfg a0 st) as [st1|]; [|intros []].
  intros [<- | Hin]; [eauto | eapply IH; exact Hin].
Qed.

(** What [next_action] picks is an action of the stream, and a query it
    lets return has the result [res] gives. *)
Lemma next_action_of cfg res s st a :
  next_action res s st = Some a ->
  sinv cfg s (gctx st) (stream s st) ->
  actor a = Some s
  /\ forall i j r, a = AQueryResult s i j r -> r = res i j.
Proof.
  unfold next_action. intros Hn [_ _ Hp]. unfold at_pc in Hp.
  destruct (pc (stream s st)) as [| |i|i j|i|i|r] eqn:Hpc;
    try discriminate Hn;
    try (destruct (running (stream s st)) as [|[i0 j0] l] eqn:Hrun);
    injection Hn as <-; cbn [actor];
    try (split; [reflexivity | intros ? ? ? [=]; subst; reflexivity]).
  all: destruct Hp as (_ & -> & _); split; [reflexivity | intros ? ? ? [=]].
Qed.

(** Given its turns, a stream reaches its return within [work_left]
    actions, and [gctx] is not done then if it was not before. *)
Lemma alone_returns cfg res s : forall fuel st,
  Inv cfg st -> (work_left cfg s (stream s st) <= fuel)%nat ->
  exists st' r,
    exec cfg (alone cfg res s fuel st) st = Some st'
    /\ pc (stream s st') = PReturned r
    /\ (gctx st = None -> gctx st' = None)
    /\ forall a, In a (alone cfg res s fuel st) ->
         actor a = Some s
         /\ forall i j r', a = AQueryResult s i j r' -> r' = res i j.
Proof.
  induction fuel as [|fuel IH]; intros st Hi Hw.
  - exists st. destruct (pc (stream s st)) as [| |i|i j|i|i|r] eqn:Hpc;
      unfold work_left in Hw; rewrite Hpc in Hw;
      try (pose proof (loop_left_pos cfg s 0); lia);
      try (pose proof (loop_left_pos cfg s i);
           pose proof (loop_left_pos cfg s (i + 1)); lia).
    exists r. cbn. repeat split; auto; contradiction.
  - cbn [alone].
    destruct (pc (stream s st)) as [| |i|i j|i|i|r] eqn:Hpc.
    7: { exists st, r. unfold next_action. rewrite Hpc. cbn.
         repeat split; auto; contradiction. }
    all: destruct (next_action_enabled cfg res st s (Inv_stream _ _ s Hi))
      as (a & st1 & Hn & Ha & Hs); [rewrite Hpc; discriminate|];
      rewrite Hn, Hs;
      pose proof (step_work_left _ _ _ _ _ (Inv_stream _ _ s Hi) Ha Hs) as Hlt;
      destruct (IH st1 (step_Inv _ _ _ _ Hs Hi) ltac:(lia))
        as (st' & r & Hex & Hr & Hg & Hall);
      exists st', r; cbn [exec]; rewrite Hs;
      (split; [exact Hex|]); (split; [exact Hr|]);
      (split; [intros Hg0; apply Hg;
               exact (next_action_gctx _ _ _ _ _ _ Hn Hs Hg0)|]);
      intros a' [<- | Hin];
      [exact (next_action_of cfg _ _ _ _ Hn (Inv_stream _ _ s Hi))
      | exact (Hall a' Hin)].
Qed.

(** *** Query errors in the reader *)

(** A stream that returned while [gctx] was not done returned nil, after
    all its rounds. *)
Lemma returned_not_done cfg st s r :
  sinv cfg s (gctx st) (stream s st) ->
  pc (stream s st) = PReturned r -> gctx st = None ->
  (s = Reader \/ forall e, r <> Some (ErrWrap "writer DDL: " e)) ->
  r = None
  /\ forall i, 0 <= i < Iterations cfg -> round_run cfg s (hist (stream s st)) i.
Proof.
  intros [_ Hh Hp] Hpc Hg Hs. unfold at_pc in Hp. rewrite Hpc in Hp.
  destruct Hp as [_ Hp]. destruct r as [[c| |p e]|]; cbn in Hp.
  - congruence.
  - contradiction.
  - destruct Hp as (Hw & -> & _). destruct Hs as [-> | Hs];
      [discriminate Hw | destruct (Hs e eq_refl)].
  - split; [reflexivity|]. intros i Hi. split; [exact (Hp i Hi)|].
    apply (hinv_barrier_In _ _ _ _ Hh). exact (Hp i Hi).
Qed.

(** C3. For the reader, in every reachable state.  Safety: a member whose
    query failed logs the error and returns nil to [grp]; the failure
    changes neither where the goroutine stands, nor [gctx], nor the error
    of [g], nor the writer; [grp] never holds an error and "batch error" is
    never logged; every round whose barrier was passed had all
    [ReaderConc] members started and returned; the goroutine returns a
    non-nil error only when [gctx] is done, and that error is
    [gctx.Err()]; and when it returns nil every one of the [Iterations]
    rounds has passed its barrier.  Progress: as long as the reader has
    not returned, an action of it is enabled, whichever result the query
    that returns next has; each of its actions brings it nearer to its
    return, by the measure [work_left]; and when [gctx] is not done, the
    reader, given its turns, goes on to return nil within [work_left]
    actions, however the queries still to return turn out (all of them
    may fail): every one of the [Iterations] rounds is then run in full,
    all [ReaderConc] members started and returned and the barrier
    passed. *)
Theorem reader_query_errors_only_logged (cfg : Config) (acts : list Action)
        (st : State) :
  exec cfg acts init = Some st ->
  (forall i e, member Reader i (Some e) = ([EvQueryError Reader e], None))
  /\ (forall i j e st',
        step cfg (AQueryResult Reader i j (Some e)) st = Some st' ->
        pc (rd st') = pc (rd st) /\ gctx st' = gctx st /\ gErr st' = gErr st
        /\ wr st' = wr st
        /\ hist (rd st')
           = EvMemberReturn Reader i j None :: EvQueryError Reader e
               :: hist (rd st))
  /\ grpErr (rd st) = None
  /\ (forall e, ~ In (EvBatchError Reader e) (hist (rd st)))
  /\ (forall i, In (EvBarrier Reader i) (hist (rd st)) ->
        forall j, 0 <= j < ReaderConc cfg ->
          In (EvLaunch Reader i j) (hist (rd st))
          /\ In (EvMemberReturn Reader i j None) (hist (rd st)))
  /\ (forall e, pc (rd st) = PReturned (Some e) ->
        exists c, gctx st = Some c /\ e = ErrCtx c)
  /\ (pc (rd st) = PReturned None ->
      forall i, 0 <= i < Iterations cfg -> In (EvBarrier Reader i) (hist (rd st)))
  /\ (forall res : Results,
        (forall r, pc (rd st) <> PReturned r) ->
        exists a st',
          next_action res Reader st = Some a /\ actor a = Some Reader
          /\ step cfg a st = Some st')
  /\ (forall a st',
        actor a = Some Reader -> step cfg a st = Some st' ->
        (work_left cfg Reader (rd st') < work_left cfg Reader (rd st))%nat)
  /\ (forall res : Results,
        gctx st = None ->
        let turns := alone cfg res Reader (work_left cfg Reader (rd st)) st in
        exists st',
          exec cfg turns st = Some st'
          /\ (forall a, In a turns ->
                actor a = Some Reader
                /\ forall i j r, a = AQueryResult Reader i j r -> r = res i j)
          /\ pc (rd st') = PReturned None /\ gctx st' = None
          /\ forall i, 0 <= i < Iterations cfg ->
               round_run cfg Reader (hist (rd st')) i).
Proof.
  intros Hex.
  assert (Hinv : Inv cfg st) by (eapply exec_Inv; [exact Hex | apply Inv_init]).
  pose proof (Inv_stream _ _ Reader Hinv) as Hsinv.
  destruct Hsinv as [Hg Hh Hp]. cbn [stream] in *. unfold at_pc in Hp.
  split; [reflexivity|]. split; [|split; [exact Hg|]].
  - intros i j e st'. apply reader_query_error_step.
  - split; [intros e; apply (hinv_no_batch _ _ _ _ Hh)|].
    split; [intros i Hin; apply (hinv_barrier_In _ _ _ _ Hh Hin)|].
    split.
    { intros e Hpc. rewrite Hpc in Hp. destruct Hp as [_ Hp].
      destruct e as [c| |p e]; cbn in Hp.
      - eauto.
      - contradiction.
      - destruct Hp as [[=] _]. }
    split.
    { intros Hpc. rewrite Hpc in Hp. destruct Hp as [_ Hp]. exact Hp. }
    split.
    { intros res Hnr.
      exact (next_action_enabled cfg res st Reader
               (Inv_stream _ _ Reader Hinv) Hnr). }
    split.
    { intros a st' Ha Hs.
      exact (step_work_left _ _ _ _ _ (Inv_stream _ _ Reader Hinv) Ha Hs). }
    intros res Hnone.
    destruct (alone_returns cfg res Reader
                (work_left cfg Reader (rd st)) st Hinv (le_n _))
      as (st' & r & Hrun & Hr & Hgc & Hall).
    exists st'. split; [exact Hrun|]. split; [exact Hall|].
    assert (Hinv' : Inv cfg st') by (eapply exec_Inv; eassumption).
    destruct (returned_not_done cfg st' Reader r
                (Inv_stream _ _ Reader Hinv') Hr (Hgc Hnone) (or_introl eq_refl))
      as [-> Hrounds].
    cbn [stream] in *. auto.
Qed.

Lemma reader_query_errors_only_logged_witness :
  let cfg := demo_cfg in
  let st := demo_state demo_round0 in
  (forall i e, member Reader i (Some e) = ([EvQueryError Reader e], None))
  /\ (forall i j e st',
        step cfg (AQueryResult Reader i j (Some e)) st = Some st' ->
        pc (rd st') = pc (rd st) /\ gctx st' = gctx st /\ gErr st' = gErr st
        /\ wr st' = wr st
        /\ hist (rd st')
           = EvMemberReturn Reader i j None :: EvQueryError Reader e
               :: hist (rd st))
  /\ grpErr (rd st) = None
  /\ (forall e, ~ In (EvBatchError Reader e) (hist (rd st)))
  /\ (forall i, In (EvBarrier Reader i) (hist (rd st)) ->
        forall j, 0 <= j < ReaderConc cfg ->
          In (EvLaunch Reader i j) (hist (rd st))
          /\ In (EvMemberReturn Reader i j None) (hist (rd st)))
  /\ (forall e, pc (rd st) = PReturned (Some e) ->
        exists c, gctx st = Some c /\ e = ErrCtx c)
  /\ (pc (rd st) = PReturned None ->
      forall i, 0 <= i < Iterations cfg -> In (EvBarrier Reader i) (hist (rd st)))
  /\ (forall res : Results,
        (forall r, pc (rd st) <> PReturned r) ->
        exists a st',
          next_action res Reader st = Some a /\ actor a = Some Reader
          /\ step cfg a st = Some st')
  /\ (forall a st',
        actor a = Some Reader -> step cfg a st = Some st' ->
        (work_left cfg Reader (rd st') < work_left cfg Reader (rd st))%nat)
  /\ (forall res : Results,
        gctx st = None ->
        let turns := alone cfg res Reader (work_left cfg Reader (rd st)) st in
        exists st',
          exec cfg turns st = Some st'
          /\ (forall a, In a turns ->
                actor a = Some Reader
                /\ forall i j r, a = AQueryResult Reader i j r -> r = res i j)
          /\ pc (rd st') = PReturned None /\ gctx st' = None
          /\ forall i, 0 <= i < Iterations cfg ->
               round_run cfg Reader (hist (rd st')) i).
Proof.
  apply (reader_query_errors_only_logged demo_cfg demo_round0
           (demo_state demo_round0)).
  vm_compute. reflexivity.
Defined.

Example demo_all_fail_completes :
  pc (rd (demo_state demo_all_fail)) = PReturned None
  /\ gctx (demo_state demo_all_fail) = None
  /\ gErr (demo_state demo_all_fail) = None
  /\ List.filter (fun e => match e with EvBarrier _ _ => true | _ => false end)
                 (hist (rd (demo_state demo_all_fail)))
     = [EvBarrier Reader 1; EvBarrier Reader 0].
Proof. vm_compute. auto. Qed.

(** After round 0 of [demo_round0], in which a read failed, let every
    read still to come fail too: the reader, given its turns, passes the
    barrier of round 1 as well and returns nil, in the ten actions the
    bound allows. *)
Example demo_round0_goes_on :
  let res : Results := fun _ _ => Some (ErrPool "timeout") in
  let st := demo_state demo_round0 in
  let turns := alone demo_cfg res Reader (work_left demo_cfg Reader (rd st)) st in
  work_left demo_cfg Reader (rd st) = 10%nat
  /\ turns
     = [ATimer Reader; ARun Reader; ARun Reader; ARun Reader; ARun Reader;
        AQueryResult Reader 1 1 (Some (ErrPool "timeout"));
        AQueryResult Reader 1 0 (Some (ErrPool "timeout"));
        ARun Reader; ATimer Reader; ARun Reader]
  /\ (exists st', exec demo_cfg turns st = Some st'
                  /\ pc (rd st') = PReturned None).
Proof. vm_compute. repeat split. eexists. split; reflexivity. Qed.

(** *** Barriers belong to rounds that were begun *)

Lemma step_begun cfg a st st' s :
  step cfg a st = Some st' -> begun s (stream s st) -> begun s (stream s st').
Proof.
  intros H [Hb Hp].
  destruct (actor a) as [s0|] eqn:Ha;
    [|rewrite (step_other _ _ _ _ s H) by congruence; split; assumption].
  destruct (Stream_eq_dec s0 s) as [-> | Hne];
    [|rewrite (step_other _ _ _ _ s H) by congruence; split; assumption].
  step_cases H; cbn [actor] in Ha; try discriminate Ha;
    injection Ha as Ha; subst; unfold begun;
    rewrite ?stream_goto_same, ?stream_goReturn_same, ?stream_set_same,
      ?stream_grpDone_same; cbn [hist pc app];
    try match goal with E : pc _ = _ |- _ => rewrite E in Hp end.
  all: try match goal with
           | |- context [match grpErr ?x with _ => _ end] => destruct (grpErr x)
           end.
  all: try match goal with
           | E : member ?s _ ?r = _ |- _ =>
               unfold member in E; destruct s, r; injection E as <- <-
           end.
  all: cbn [In app]; split;
    [ intros k Hk;
      repeat (destruct Hk as [Hk | Hk];
              [try discriminate Hk; try (injection Hk as <-)|]);
      auto 10
    | try exact I; auto 10 ].
  all: destruct (pc (stream _ st)); auto.
Qed.

Lemma exec_begun cfg acts s : forall st st',
  exec cfg acts st = Some st' -> begun s (stream s st) -> begun s (stream s st').
Proof.
  induction acts as [|a acts IH]; cbn [exec]; intros st st' H Hb.
  - injection H as <-. exact Hb.
  - destruct (step cfg a st) as [st1|] eqn:E; [|discriminate].
    eapply IH; [exact H|]. eapply step_begun; eassumption.
Qed.

Lemma reachable_begun cfg acts st s :
  exec cfg acts init = Some st -> begun s (stream s st).
Proof.
  intros H. eapply exec_begun; [exact H|].
  destruct s; split; cbn; auto; intros k [].
Qed.

Lemma exec_app cfg acts1 : forall acts2 st st1 st2,
  exec cfg acts1 st = Some st1 -> exec cfg acts2 st1 = Some st2 ->
  exec cfg (acts1 ++ acts2) st = Some st2.
Proof.
  induction acts1 as [|a acts1 IH]; cbn [exec app]; intros acts2 st st1 st2 H1 H2.
  - injection H1 as <-. exact H2.
  - destruct (step cfg a st) as [st'|]; [|discriminate].
    eapply IH; eassumption.
Qed.

End WorkloadSpec.

(** ** [main] *)

Module OrchestratorSpec.

Import Main Workload Orchestrator Demo MainSpec.
Local Open Scope list_scope.

Section WithParser.

Variable url_Parse : string -> option URL.

(** The effects of [run] begin with the "config:" line and the parsing of
    the pool configuration. *)
Lemma run_begins (cfg : Config) (w : World) :
  exists rest,
    fst (run url_Parse cfg w)
    = FxLogConfig cfg (loggedWriterMax cfg) (redactedDSNInfo url_Parse (DSN cfg))
        :: FxParsePoolConfig (DSN cfg) :: rest.
Proof.
  unfold run.
  destruct (parseConfig_err w); [eexists; reflexivity|].
  destruct (newNodeHealthChecker_err w); [eexists; reflexivity|].
  destruct (newReaderPool_err w); [eexists; reflexivity|].
  destruct (newWriterPool_err w); [eexists; reflexivity|].
  destruct (exec cfg (schedule w) init) as [st|]; [|eexists; reflexivity].
  destruct (gWait st) as [[e|]|]; eexists; reflexivity.
Qed.

(** C6. [validateConfig] gives an error exactly when the DSN is empty or
    one of iterations, timeout, reader-max-conns, reader-conc, writer-conc
    is not positive.  [main] calls it on the parsed flags before anything
    else: when it gives an error, [log.Fatal] with that error is the only
    effect of [main] (no pool configuration, health checker, poller, pool
    or workload, and no second attempt) and the exit status is 1; when it
    gives none, the effects of [main] are those of [run], followed at most
    by a [log.Fatal]. *)
Theorem validateConfig_gates_main (cfg : Config) (fl : Flags)
        (getenv : string) (w : World) :
  (validateConfig cfg <> None
   <-> (DSN cfg = ""%string \/ Iterations cfg <= 0 \/ Timeout cfg <= 0
        \/ ReaderMax cfg <= 0 \/ ReaderConc cfg <= 0 \/ WriterConc cfg <= 0))
  /\ match validateConfig (parseFlags fl getenv) with
     | Some err =>
         main url_Parse fl getenv w = ([FxFatal (ErrConfig err)], Some 1)
         /\ existsb creates_resource (fst (main url_Parse fl getenv w)) = false
     | None =>
         exists tail,
           fst (main url_Parse fl getenv w)
           = fst (run url_Parse (parseFlags fl getenv) w) ++ tail
           /\ forallb (fun fx => negb (creates_resource fx)) tail = true
     end.
Proof.
  split; [apply validateConfig_error_iff|].
  unfold main. destruct (validateConfig (parseFlags fl getenv)) as [err|].
  - split; reflexivity.
  - destruct (run url_Parse (parseFlags fl getenv) w) as [fx [|[e|]|]];
      cbn [fst].
    + exists []. rewrite app_nil_r. split; reflexivity.
    + exists [FxFatal (ErrRun e)]. split; reflexivity.
    + exists []. rewrite app_nil_r. split; reflexivity.
    + exists []. rewrite app_nil_r. split; reflexivity.
Qed.

End WithParser.

(** No DATABASE_URL: one fatal error and nothing else. *)
Example main_without_dsn :
  main table_Parse (mkFlags 0 0 0 0 0 0 0 0 0 0 0 0 0 0) ""
       (mkWorld None None None None [])
  = ([FxFatal (ErrConfig ErrDSNRequired)], Some 1).
Proof. reflexivity. Qed.

(** [validateConfig] on configurations [parseFlags] cannot build. *)
Example validateConfig_zero_iterations :
  validateConfig (mkConfig 0 1 1 0 0 0 1 1 "d") = Some (ErrIterations 0).
Proof. reflexivity. Qed.

Example validateConfig_negative_conc :
  validateConfig (mkConfig 1 1 1 0 0 0 1 (-2) "d")
  = Some (ErrConcurrency 1 (-2)).
Proof. reflexivity. Qed.

(** [-r 4]: what [run] logs and what it asks of the writer pool, up to the
    start of the workload. *)
Example run_r4_effects :
  firstn 6 (fst (run table_Parse config_r4 (mkWorld None None None None [])))
  = [FxLogConfig config_r4 2 "host=db:26257 db=/bank user=app";
     FxParsePoolConfig "postgres://app@db:26257/bank";
     FxNewNodeHealthChecker "postgres://app@db:26257/bank";
     FxGoPoll;
     FxNewRetryPool "reader" 4;
     FxNewRetryPool "writer" 1].
Proof. reflexivity. Qed.

End OrchestratorSpec.

(** ** What [parseFlags] builds *)

Module MainFacts.

Import Main Setup.

Lemma override2_keeps (P : Config -> Prop) long short set cfg :
  (forall v c, 0 < v -> P c -> P (set v c)) ->
  P cfg -> P (override2 long short set cfg).
Proof.
  intros Hset Hc. unfold override2.
  destruct (Z.ltb_spec 0 long); [auto|].
  destruct (Z.ltb_spec 0 short); auto.
Qed.

Lemma override1_keeps (P : Config -> Prop) v set cfg :
  (forall v c, 0 < v -> P c -> P (set v c)) ->
  P cfg -> P (override1 v set cfg).
Proof.
  intros Hset Hc. unfold override1. destruct (Z.ltb_spec 0 v); auto.
Qed.

Lemma parseFlags_well_formed fl getenv : well_formed getenv (parseFlags fl getenv).
Proof.
  unfold parseFlags.
  repeat first [ apply override1_keeps | apply override2_keeps ];
    try (intros v c Hv (H1 & H2 & H3 & H4 & H5 & H6); cbn;
         repeat split; assumption).
  unfold well_formed; cbn.
  unfold defaultIterations, defaultTimeout, defaultReaderMaxConns,
    defaultConcurrency, Minute, Second, Millisecond.
  repeat split; lia.
Qed.

Lemma parseFlags_positive fl getenv :
  0 < Iterations (parseFlags fl getenv)
  /\ 0 < ReaderConc (parseFlags fl getenv)
  /\ 0 < WriterConc (parseFlags fl getenv).
Proof.
  destruct (parseFlags_well_formed fl getenv) as (_ & H1 & _ & _ & H2 & H3).
  auto.
Qed.

Lemma parseFlags_DSN fl getenv : DSN (parseFlags fl getenv) = getenv.
Proof. apply parseFlags_well_formed. Qed.

(** With a DSN, what [parseFlags] builds passes [validateConfig]. *)
Lemma validateConfig_parseFlags (fl : Flags) (getenv : string) :
  getenv <> ""%string -> validateConfig (parseFlags fl getenv) = None.
Proof.
  intros Hdsn.
  destruct (parseFlags_well_formed fl getenv) as (HD & H1 & H2 & H3 & H4 & H5).
  unfold validateConfig. rewrite HD.
  destruct (String.eqb_spec getenv ""); [contradiction|].
  destruct (Z.leb_spec (Iterations (parseFlags fl getenv)) 0); [lia|].
  destruct (Z.leb_spec (Timeout (parseFlags fl getenv)) 0); [lia|].
  destruct (Z.leb_spec (ReaderMax (parseFlags fl getenv)) 0); [lia|].
  destruct (Z.leb_spec (ReaderConc (parseFlags fl getenv)) 0); [lia|].
  destruct (Z.leb_spec (WriterConc (parseFlags fl getenv)) 0); [lia|].
  reflexivity.
Qed.

(** What the overrides leave alone, and what they set. *)
Lemma override2_other {A} (f : Config -> A) long short set cfg :
  (forall v c, f (set v c) = f c) ->
  f (override2 long short set cfg) = f cfg.
Proof.
  intros H. unfold override2.
  destruct (0 <? long); [apply H|]. destruct (0 <? short); [apply H|].
  reflexivity.
Qed.

Lemma override1_other {A} (f : Config -> A) v set cfg :
  (forall v c, f (set v c) = f c) ->
  f (override1 v set cfg) = f cfg.
Proof. intros H. unfold override1. destruct (0 <? v); [apply H | reflexivity]. Qed.

Lemma override2_same (f : Config -> Z) long short set cfg :
  (forall v c, f (set v c) = v) ->
  f (override2 long short set cfg)
  = if 0 <? long then long else if 0 <? short then short else f cfg.
Proof.
  intros H. unfold override2.
  destruct (0 <? long); [apply H|]. destruct (0 <? short); [apply H|].
  reflexivity.
Qed.

End MainFacts.


(** ** The budget of queries *)

Module CensusSpec.

Import Main Workload Invariant WorkloadSpec Census.
Local Open Scope list_scope.

#[local] Opaque goReturn goto grpDone set_stream.

Lemma count_cons kind e h :
  count kind (e :: h) = (if kind e then 1 else 0) + count kind h.
Proof.
  unfold count. cbn [List.filter]. destruct (kind e); cbn [length]; lia.
Qed.

Lemma count_nil kind : count kind [] = 0.
Proof. reflexivity. Qed.

Lemma count_nonneg kind h : 0 <= count kind h.
Proof. unfold count. lia. Qed.

(** A member's own log line is none of the counted events. *)
Lemma member_count s i r evs mr h :
  member s i r = (evs, mr) ->
  count is_launch (evs ++ h) = count is_launch h
  /\ count is_member_return (evs ++ h) = count is_member_return h
  /\ count is_round (evs ++ h) = count is_round h
  /\ count is_barrier (evs ++ h) = count is_barrier h.
Proof.
  unfold member. intros Hm.
  destruct s, r; injection Hm as <- <-; cbn [app]; rewrite !count_cons;
    repeat split; reflexivity.
Qed.

Lemma remove_member_length (p : Z * Z) l :
  List.NoDup l -> In p l ->
  (length (List.filter (fun q => negb (pair_eqb q p)) l) + 1 = length l)%nat.
Proof.
  induction l as [|q l IH]; cbn [In List.filter length]; [tauto|].
  intros Hnd [-> | Hin]; inversion Hnd as [|? ? Hnotin Hnd']; subst.
  - replace (pair_eqb p p) with true
      by (symmetry; apply pair_eqb_eq; reflexivity).
    cbn [negb]. rewrite forallb_filter_id; [lia|].
    apply forallb_forall. intros q Hq. destruct (pair_eqb q p) eqn:E;
      [|reflexivity]. apply pair_eqb_eq in E. subst. contradiction.
  - destruct (pair_eqb q p) eqn:E.
    + apply pair_eqb_eq in E. subst. contradiction.
    + cbn [negb length]. specialize (IH Hnd' Hin). lia.
Qed.

Lemma trips_nonneg n : 0 <= trips n.
Proof. unfold trips. lia. Qed.

Lemma trips_pos n : 0 < n -> trips n = n.
Proof. unfold trips. lia. Qed.

Lemma trips_nonpos n : n <= 0 -> trips n = 0.
Proof. unfold trips. lia. Qed.

Ltac count_events :=
  cbn [app]; rewrite ?count_cons, ?count_nil;
  cbn [is_launch is_member_return is_round is_barrier].

Ltac census_fields :=
  constructor; cbn [pc running hist length]; unfold census_at;
  cbn [pc running hist]; count_events.

(** The census is kept by the steps of the stream itself. *)
Lemma step_census cfg a st st' s :
  step cfg a st = Some st' -> actor a = Some s ->
  sinv cfg s (gctx st) (stream s st) ->
  census cfg s (stream s st) -> census cfg s (stream s st').
Proof.
  intros H Ha [Hg _ Hs] [Hnd Hm Hr Hp]. unfold at_pc in Hs.
  unfold census_at in Hp.
  pose proof (trips_nonneg (Iterations cfg)) as HN.
  pose proof (trips_nonneg (conc cfg s)) as HC.
  step_cases H; cbn [actor] in Ha; try discriminate Ha;
    injection Ha as Ha; subst;
    rewrite ?stream_goto_same, ?stream_goReturn_same, ?stream_set_same,
      ?stream_grpDone_same;
    cbn [stream] in *;
    try match goal with E : pc _ = _ |- _ => rewrite E in * end;
    try match goal with E : running _ = [] |- _ => rewrite E in * end;
    try rewrite Hg in *;
    try match goal with E : (_ <? _) = true |- _ => apply Z.ltb_lt in E end;
    try match goal with E : (_ <? _) = false |- _ => apply Z.ltb_ge in E end.
  - (* reader: "goroutine started" *)
    census_fields; try assumption; lia.
  - (* writer: "goroutine started", "ensuring table exists" *)
    census_fields; try assumption; lia.
  - (* loop head, gctx done *)
    census_fields; try assumption; try lia.
    all: try (unfold trips in *; split; [nia | lia]).
  - (* loop head, a new round *)
    destruct Hs as (Hrun & _). rewrite Hrun in Hm.
    census_fields; try (cbn [length] in Hm; lia); [constructor|].
    unfold trips in *. repeat split; try lia.
    all: match goal with Hin : In _ [] |- _ => destruct Hin end.
  - (* loop head, all rounds done *)
    assert (i = trips (Iterations cfg)) as -> by (unfold trips in *; lia).
    census_fields; try assumption; lia.
  - (* grp.Go *)
    destruct Hp as (Hi & Hn & Hl & Hb & Hall).
    census_fields; try lia.
    + constructor; [|assumption]. intros Hin.
      destruct (Hall _ Hin) as [_ Hlt]. cbn in Hlt. lia.
    + unfold trips in *.
      split; [lia|]. split; [lia|]. split; [lia|]. split; [lia|].
      intros q [<- | Hin]; cbn [fst snd]; [lia|].
      destruct (Hall _ Hin). lia.
  - (* the inner loop is over *)
    census_fields; try assumption; try lia.
    unfold trips in *. repeat split; lia.
  - (* grp.Wait returns *)
    census_fields; cbn [length] in *; try lia. constructor.
  - (* the select after the batch, gctx done *)
    census_fields; try assumption; try lia.
    all: try (unfold trips in *; split; [nia | lia]).
  - (* the DDL failed *)
    census_fields; try assumption; try lia.
    all: try (unfold trips in *; split; [nia | lia]).
  - (* the DDL went through *)
    census_fields; try assumption; lia.
  - (* a member's query returns *)
    match goal with E : existsb _ _ = true |- _ =>
      apply existsb_pair_In in E; rename E into Hin end.
    pose proof (remove_member_length _ _ Hnd Hin) as Hlen.
    match goal with E : member _ _ _ = _ |- _ =>
      destruct (member_count _ _ _ _ _ (hist (stream s st)) E)
        as (Hml & Hmm & Hmr & Hmb)
    end.
    constructor; cbn [pc running hist]; unfold census_at; cbn [pc running hist];
      rewrite ?count_cons; cbn [is_launch is_member_return is_round is_barrier];
      rewrite ?Hml, ?Hmm, ?Hmr, ?Hmb.
    + apply List.NoDup_filter. exact Hnd.
    + lia.
    + lia.
    + destruct (pc (stream s st)) as [| | | | | |[?|]]; try lia.
      destruct Hp as (Hi & Hn & Hl & Hb & Hall).
      split; [lia|]. split; [lia|]. split; [lia|]. split; [lia|].
      intros q Hq. apply filter_In in Hq as [Hq _]. apply Hall, Hq.
  - (* the timer of the select *)
    census_fields; try assumption; try lia.
    unfold trips in *. repeat split; lia.
Qed.

Lemma census_init cfg s : census cfg s (stream s init).
Proof.
  destruct s; constructor; cbn; try constructor; try reflexivity.
Qed.

(** Both invariants along a schedule. *)
Lemma exec_census cfg acts : forall st st',
  exec cfg acts st = Some st' -> Inv cfg st ->
  (forall s, census cfg s (stream s st)) ->
  forall s, census cfg s (stream s st').
Proof.
  induction acts as [|a acts IH]; cbn [exec]; intros st st' H Hi Hc s.
  - injection H as <-. apply Hc.
  - destruct (step cfg a st) as [st1|] eqn:E; [|discriminate].
    apply (IH st1 st' H (step_Inv _ _ _ _ E Hi)). clear s. intros s.
    destruct (actor a) as [s0|] eqn:Ha.
    + destruct (Stream_eq_dec s0 s) as [-> | Hne].
      * eapply step_census; eauto using Inv_stream.
      * rewrite (step_other _ _ _ _ s E) by congruence. apply Hc.
    + rewrite (step_other _ _ _ _ s E) by congruence. apply Hc.
Qed.

Lemma reachable_census cfg acts st s :
  exec cfg acts init = Some st -> census cfg s (stream s st).
Proof.
  intros H. eapply exec_census; [exact H | apply Inv_init |].
  intros s'. apply census_init.
Qed.

End CensusSpec.

(** ** What [g.Wait()] gives *)

Module VerdictSpec.
Import Main Workload Invariant WorkloadSpec Verdict.
Local Open Scope list_scope.

Ltac pick_stream :=
  first [ exists Reader; cbn; congruence | exists Writer; cbn; congruence ].

Lemma step_verdict cfg a st st' (P : Prop) :
  step cfg a st = Some st' -> verdict P st ->
  verdict (P \/ a = AParentCancel) st'.
Proof.
  intros H [H1 H2 H3 H4].
  destruct st as [g ge [rp rr rg rh] [wp wr_ wg wh]].
  destruct a as [|[|]|r|[|] i j r|[|]|]; unfold step, run_stream in H;
    cbn in H;
    repeat (case_head H; try discriminate H);
    injection H as <-;
    cbn in *; subst.
  all: try (destruct ge as [e0|]; cbn).
  all: constructor; cbn.
  all: try congruence.
  (* gctx is done with Canceled *)
  all: try solve [ intros Hc; first [ left; discriminate
                                    | right; right; reflexivity
                                    | destruct (H1 Hc) as [Hne | HP];
                                      [ congruence | right; left; exact HP ]
                                    | injection Hc as ->;
                                      destruct (H1 eq_refl) as [Hne | HP];
                                      [ congruence | right; left; exact HP ] ] ].
  (* the error of g, when it is gctx.Err() *)
  all: try solve [ intros c0 Hc0; injection Hc0 as ->;
                   first [ destruct (H2 _ eq_refl); auto
                         | split; [reflexivity|]; intros ->;
                           destruct (H1 eq_refl); [congruence | auto] ] ].
  all: try solve [ intros c0 Hc0; destruct (H2 c0 Hc0); split;
                   [congruence | auto] ].
  (* who returned it *)
  all: try solve [ intros e1 He1; injection He1 as <-;
                   first [ pick_stream
                         | destruct (H3 _ eq_refl) as [[|] Hs]; cbn in Hs;
                           pick_stream ] ].
  (* nobody returned an error yet *)
  all: try solve [ intros _ [|] e1; cbn;
                   first [ congruence
                         | exact (H4 eq_refl Reader e1)
                         | exact (H4 eq_refl Writer e1) ] ].
Qed.

Lemma verdict_init (P : Prop) : verdict P init.
Proof. constructor; cbn; try congruence. intros _ [|] e; cbn; congruence. Qed.

Lemma verdict_mono (P Q : Prop) st : (P -> Q) -> verdict P st -> verdict Q st.
Proof.
  intros HPQ [H1 H2 H3 H4]. constructor; auto.
  - intros Hc. destruct (H1 Hc); auto.
  - intros c Hc. destruct (H2 c Hc). auto.
Qed.

Lemma exec_verdict cfg acts : forall st st' (P : Prop),
  exec cfg acts st = Some st' -> verdict P st ->
  verdict (P \/ In AParentCancel acts) st'.
Proof.
  induction acts as [|a acts IH]; cbn [exec]; intros st st' P H Hv.
  - injection H as <-. eapply verdict_mono; [|exact Hv]. auto.
  - destruct (step cfg a st) as [st1|] eqn:E; [|discriminate].
    eapply verdict_mono; [|eapply IH; [exact H|]; eapply step_verdict;
                            eassumption].
    cbn [In]. intuition auto.
Qed.

Lemma reachable_verdict cfg acts st :
  exec cfg acts init = Some st -> verdict (In AParentCancel acts) st.
Proof.
  intros H. eapply verdict_mono;
    [|eapply exec_verdict; [exact H | apply (verdict_init False)]].
  intuition auto.
Qed.

(** X2. What [g.Wait()] can give [run].  An error it gives is one of
    three: [context.DeadlineExceeded], with [gctx] done by the deadline of
    [ctxRun]; [context.Canceled], and then the ctx given to [run] was
    cancelled by its caller during the run ([main] never does that: it
    cancels only when [run] has returned); or the error of the DDL,
    wrapped, returned by the writer before any round.  It is never the
    error of a read or an upsert, and the cancellation [g] itself does
    when a goroutine fails never shows as the error of [g]. *)
Theorem run_error_is_deadline_or_ddl (cfg : Config) (acts : list Action)
        (st : State) (e : Error) :
  exec cfg acts init = Some st ->
  gWait st = Some (Some e) ->
  (e = ErrCtx DeadlineExceeded /\ gctx st = Some DeadlineExceeded)
  \/ (e = ErrCtx Canceled /\ gctx st = Some Canceled
      /\ In AParentCancel acts)
  \/ (exists e', e = ErrWrap "writer DDL: " e'
                 /\ pc (wr st) = PReturned (Some e)
                 /\ forall i, ~ In (EvRound Writer i) (hist (wr st))).
Proof.
  intros Hex Hw. unfold gWait in Hw.
  destruct (pc (rd st)) eqn:Hr; try discriminate Hw.
  destruct (pc (wr st)) eqn:Hwr; try discriminate Hw.
  injection Hw as Hg.
  destruct (reachable_verdict _ _ _ Hex) as [_ H2 H3 _].
  destruct (H3 e Hg) as [s Hs].
  destruct (reachable_sinv cfg acts st s Hex) as [_ _ Hp].
  unfold at_pc in Hp. rewrite Hs in Hp. destruct Hp as [_ Hp].
  destruct e as [c| |p e']; cbn in Hp.
  - destruct (H2 c Hg) as [Hd Hpar]. destruct c.
    + right. left. auto.
    + left. auto.
  - contradiction.
  - destruct Hp as (-> & -> & Hnr). right. right. exists e'.
    cbn [stream] in Hs. rewrite Hs in Hwr. injection Hwr as <-. auto.
Qed.

End VerdictSpec.

(** ** Runs of the workload *)

Module RunSpec.

Import Main Workload Invariant WorkloadSpec Census CensusSpec Verdict
       VerdictSpec Demo Runs.
Local Open Scope list_scope.

Lemma census_budget cfg s x :
  census cfg s x ->
  count is_launch (hist x) <= trips (Iterations cfg) * trips (conc cfg s)
  /\ count is_barrier (hist x) <= trips (Iterations cfg).
Proof.
  intros [_ _ _ Hp]. unfold census_at in Hp.
  pose proof (trips_nonneg (Iterations cfg)) as HN.
  pose proof (trips_nonneg (conc cfg s)) as HC.
  destruct (pc x) as [| |i|i n|i|i|[e|]]; unfold trips in *;
    split; try lia; nia.
Qed.

(** A goroutine that returned nil has had all its members return. *)
Lemma query_budget_facts cfg acts st s :
  exec cfg acts init = Some st ->
  pc (stream s st) = PReturned None ->
  count is_member_return (hist (stream s st))
  = trips (Iterations cfg) * trips (conc cfg s).
Proof.
  intros Hex Hpc.
  destruct (reachable_census cfg acts st s Hex) as [_ Hm _ Hp].
  destruct (reachable_sinv cfg acts st s Hex) as [_ _ Hs].
  unfold census_at in Hp. unfold at_pc in Hs. rewrite Hpc in *.
  destruct Hs as [Hrun _]. rewrite Hrun in Hm. cbn [length] in Hm. lia.
Qed.

(** X1. The budget of queries.  In every reachable state a stream has started
    at most [Iterations] rounds and [Iterations * conc] members (bounds
    that are not positive count as 0), and every member it started has
    returned or is still running; when the goroutine has returned nil it
    has run exactly [Iterations] rounds and started exactly
    [Iterations * conc] members, all of which have returned. *)
Theorem query_budget (cfg : Config) (acts : list Action) (st : State)
        (s : Stream) :
  exec cfg acts init = Some st ->
  let x := stream s st in
  let N := trips (Iterations cfg) in
  let C := trips (conc cfg s) in
  count is_launch (hist x) <= N * C
  /\ count is_round (hist x) <= N
  /\ count is_launch (hist x)
     = count is_member_return (hist x) + Z.of_nat (length (running x))
  /\ (pc x = PReturned None ->
      count is_round (hist x) = N /\ count is_barrier (hist x) = N
      /\ count is_launch (hist x) = N * C
      /\ count is_member_return (hist x) = N * C).
Proof.
  intros Hex x N C.
  pose proof (reachable_census cfg acts st s Hex) as Hc.
  destruct (census_budget _ _ _ Hc) as [Hl Hb].
  destruct (reachable_sinv cfg acts st s Hex) as [_ _ Hs].
  destruct Hc as [_ Hm Hr Hp]. unfold census_at in Hp. unfold at_pc in Hs.
  fold x in Hl, Hb, Hm, Hr, Hp, Hs. fold N in Hl, Hb, Hp. fold C in Hl, Hp.
  split; [exact Hl|]. split; [|split; [exact Hm|]].
  - destruct (pc x) as [| |i|i n|i|i|[e|]]; unfold N, trips in *; lia.
  - intros Hpc. rewrite Hpc in *. destruct Hs as [Hrun _].
    rewrite Hrun in Hm. cbn [length] in Hm. lia.
Qed.

Lemma query_budget_witness :
  let x := stream Reader budget_state in
  let N := trips (Iterations budget_cfg) in
  let C := trips (conc budget_cfg Reader) in
  count is_launch (hist x) <= N * C
  /\ count is_round (hist x) <= N
  /\ count is_launch (hist x)
     = count is_member_return (hist x) + Z.of_nat (length (running x))
  /\ (pc x = PReturned None ->
      count is_round (hist x) = N /\ count is_barrier (hist x) = N
      /\ count is_launch (hist x) = N * C
      /\ count is_member_return (hist x) = N * C).
Proof.
  apply (query_budget budget_cfg budget_run budget_state Reader).
  vm_compute. reflexivity.
Defined.

Example budget_state_counts :
  pc (rd budget_state) = PReturned None /\ pc (wr budget_state) = PReturned None
  /\ count is_launch (hist (rd budget_state)) = 1
  /\ count is_launch (hist (wr budget_state)) = 1
  /\ gWait budget_state = Some None.
Proof. vm_compute. auto. Qed.

(** *** What [g.Wait()] gives *)

Lemma run_error_is_deadline_or_ddl_witness :
  let st := demo_state demo_parent_cancel in
  let e := ErrCtx Canceled in
  (e = ErrCtx DeadlineExceeded /\ gctx st = Some DeadlineExceeded)
  \/ (e = ErrCtx Canceled /\ gctx st = Some Canceled
      /\ In AParentCancel demo_parent_cancel)
  \/ (exists e', e = ErrWrap "writer DDL: " e'
                 /\ pc (wr st) = PReturned (Some e)
                 /\ forall i, ~ In (EvRound Writer i) (hist (wr st))).
Proof.
  apply (run_error_is_deadline_or_ddl demo_cfg demo_parent_cancel).
  - vm_compute. reflexivity.
  - vm_compute. reflexivity.
Defined.

(** When the DDL fails, its error is what [g.Wait()] gives, although the
    reader then returns [context.Canceled]. *)
Example ddl_error_is_the_verdict :
  let st := demo_state (demo_round0 ++ [ADDLResult (Some demo_ddl_error);
                                        ATimer Reader; ARun Reader]) in
  gWait st = Some (Some (ErrWrap "writer DDL: " demo_ddl_error))
  /\ pc (rd st) = PReturned (Some (ErrCtx Canceled)).
Proof. vm_compute. auto. Qed.

Example demo_deadline_run :
  let st := demo_state (demo_deadline ++ demo_after_deadline) in
  pc (rd st) = PReturned (Some (ErrCtx DeadlineExceeded))
  /\ pc (wr st)
     = PReturned (Some (ErrWrap "writer DDL: " (ErrCtx DeadlineExceeded)))
  /\ gWait st = Some (Some (ErrCtx DeadlineExceeded)).
Proof. vm_compute. auto. Qed.

(** *** Once [gctx] is done *)

(** X3. Cancellation.  From a reachable state in which [gctx] is done with
    cause [c], however the run goes on: [gctx] stays done with cause [c];
    stream [s] begins no further round; it takes at most [steps_left]
    further actions; what it has returned, if it has, is one of three:
    the context error [c]; nil, and then it had begun every one of its
    [Iterations] rounds before (the select after the last batch may still
    take the timer, after which the loop is over); or, for the writer,
    the wrapped error of the DDL, no round begun; and as long as it has
    not returned and is not waiting for the DDL, one of its actions is
    enabled. *)
Theorem cancellation_stops_stream (cfg : Config) (before after : list Action)
        (st1 st2 : State) (c : CtxErr) (s : Stream) :
  exec cfg before init = Some st1 ->
  gctx st1 = Some c ->
  exec cfg after st1 = Some st2 ->
  gctx st2 = Some c
  /\ (forall i, In (EvRound s i) (hist (stream s st2)) ->
        In (EvRound s i) (hist (stream s st1)))
  /\ (length (List.filter (acts_of s) after)
      + steps_left cfg s (stream s st2)
      <= steps_left cfg s (stream s st1))%nat
  /\ (forall r, pc (stream s st2) = PReturned r ->
        r = Some (ErrCtx c)
        \/ (r = None
            /\ forall k, 0 <= k < Iterations cfg ->
                 In (EvRound s k) (hist (stream s st1)))
        \/ (s = Writer
            /\ (exists e, r = Some (ErrWrap "writer DDL: " e))
            /\ forall i, ~ In (EvRound s i) (hist (stream s st2))))
  /\ ((forall r, pc (stream s st2) <> PReturned r) ->
      pc (stream s st2) <> PDDL ->
      exists a st3, actor a = Some s /\ step cfg a st2 = Some st3).
Proof.
  intros H1 Hc H2.
  assert (Hi1 : Inv cfg st1) by (eapply exec_Inv; [exact H1 | apply Inv_init]).
  assert (Hi2 : Inv cfg st2) by (eapply exec_Inv; eassumption).
  pose proof (exec_gctx _ _ _ _ H2 c Hc) as Hc2.
  pose proof (exec_no_new_round cfg after c s) as Hnew.
  split; [exact Hc2|].
  split; [intros i; apply (Hnew i st1 st2 Hc H2)|].
  split; [exact (exec_steps_left cfg after s c st1 st2 Hi1 Hc H2)|].
  split.
  - intros r Hpc. destruct (Inv_stream _ _ s Hi2) as [_ _ Hp].
    unfold at_pc in Hp. rewrite Hpc in Hp. destruct Hp as [_ Hp].
    destruct r as [[c'| |p e]|]; cbn in Hp.
    + left. congruence.
    + contradiction.
    + destruct Hp as (-> & -> & Hnr). right. right. eauto.
    + right. left. split; [reflexivity|]. intros k Hk.
      apply (Hnew k st1 st2 Hc H2).
      destruct (reachable_begun cfg (before ++ after) st2 s
                  (exec_app _ _ _ _ _ _ H1 H2)) as [Hb _].
      apply Hb, Hp, Hk.
  - intros Hlive Hddl.
    apply (cancelled_progress cfg st2 s c (Inv_stream _ _ s Hi2) Hc2 Hlive).
    right. exact Hddl.
Qed.

Lemma cancellation_stops_stream_witness :
  let st1 := demo_state demo_deadline in
  let st2 := demo_state (demo_deadline ++ demo_after_deadline) in
  gctx st2 = Some DeadlineExceeded
  /\ (forall i, In (EvRound Reader i) (hist (stream Reader st2)) ->
        In (EvRound Reader i) (hist (stream Reader st1)))
  /\ (length (List.filter (acts_of Reader) demo_after_deadline)
      + steps_left demo_cfg Reader (stream Reader st2)
      <= steps_left demo_cfg Reader (stream Reader st1))%nat
  /\ (forall r, pc (stream Reader st2) = PReturned r ->
        r = Some (ErrCtx DeadlineExceeded)
        \/ (r = None
            /\ forall k, 0 <= k < Iterations demo_cfg ->
                 In (EvRound Reader k) (hist (stream Reader st1)))
        \/ (Reader = Writer
            /\ (exists e, r = Some (ErrWrap "writer DDL: " e))
            /\ forall i, ~ In (EvRound Reader i) (hist (stream Reader st2))))
  /\ ((forall r, pc (stream Reader st2) <> PReturned r) ->
      pc (stream Reader st2) <> PDDL ->
      exists a st3, actor a = Some Reader /\ step demo_cfg a st2 = Some st3).
Proof.
  apply (cancellation_stops_stream demo_cfg demo_deadline demo_after_deadline
           (demo_state demo_deadline)
           (demo_state (demo_deadline ++ demo_after_deadline))
           DeadlineExceeded Reader).
  - vm_compute. reflexivity.
  - vm_compute. reflexivity.
  - vm_compute. reflexivity.
Defined.

(** The deadline passes while the reader is in the select after its last
    batch; the timer is taken, and the reader returns nil with [gctx]
    done. *)
Example nil_after_the_deadline :
  let acts := demo_all_fail_but_last ++ [ADeadline; ATimer Reader; ARun Reader] in
  gctx (demo_state acts) = Some DeadlineExceeded
  /\ pc (rd (demo_state acts)) = PReturned None.
Proof. vm_compute. auto. Qed.

(** In that run the reader takes six of the seven actions the bound
    allows. *)
Example demo_deadline_steps :
  steps_left demo_cfg Reader (rd (demo_state demo_deadline)) = 7%nat
  /\ length (List.filter (acts_of Reader) demo_after_deadline) = 6%nat.
Proof. vm_compute. auto. Qed.

(** *** Query errors in the writer *)

(** X4. Upserts that fail.  In every reachable state: a member of the writer
    whose upsert failed logs the error and returns nil to [grp]; the
    failure changes neither where the goroutine stands, nor [gctx], nor
    the error of [g], nor the reader; [grp] never holds an error and
    "batch error" is never logged; and the only non-nil results of the
    writer are [gctx.Err()] with [gctx] done, and the wrapped error of the
    DDL with no round begun. *)
Theorem writer_query_errors_only_logged (cfg : Config) (acts : list Action)
        (st : State) :
  exec cfg acts init = Some st ->
  (forall i e, member Writer i (Some e) = ([EvQueryError Writer e], None))
  /\ (forall i j e st',
        step cfg (AQueryResult Writer i j (Some e)) st = Some st' ->
        pc (wr st') = pc (wr st) /\ gctx st' = gctx st /\ gErr st' = gErr st
        /\ rd st' = rd st
        /\ hist (wr st')
           = EvMemberReturn Writer i j None :: EvQueryError Writer e
               :: hist (wr st))
  /\ grpErr (wr st) = None
  /\ (forall e, ~ In (EvBatchError Writer e) (hist (wr st)))
  /\ (forall e, pc (wr st) = PReturned (Some e) ->
        (exists c, gctx st = Some c /\ e = ErrCtx c)
        \/ (exists e', e = ErrWrap "writer DDL: " e'
                       /\ forall i, ~ In (EvRound Writer i) (hist (wr st)))).
Proof.
  intros Hex. destruct (reachable_sinv cfg acts st Writer Hex) as [Hg Hh Hp].
  cbn [stream] in *. unfold at_pc in Hp.
  split; [reflexivity|]. split; [|split; [exact Hg|]].
  - intros i j e st' Hs. cbn [step member stream] in Hs.
    destruct (existsb _ _); [|discriminate]. injection Hs as <-. cbn. auto.
  - split; [intros e; apply (hinv_no_batch _ _ _ _ Hh)|].
    intros e Hpc. rewrite Hpc in Hp. destruct Hp as [_ Hp].
    destruct e as [c| |p e]; cbn in Hp.
    + left. eauto.
    + contradiction.
    + right. destruct Hp as (_ & -> & Hnr). eauto.
Qed.

Lemma writer_query_errors_only_logged_witness :
  let st := budget_state in
  (forall i e, member Writer i (Some e) = ([EvQueryError Writer e], None))
  /\ (forall i j e st',
        step budget_cfg (AQueryResult Writer i j (Some e)) st = Some st' ->
        pc (wr st') = pc (wr st) /\ gctx st' = gctx st /\ gErr st' = gErr st
        /\ rd st' = rd st
        /\ hist (wr st')
           = EvMemberReturn Writer i j None :: EvQueryError Writer e
               :: hist (wr st))
  /\ grpErr (wr st) = None
  /\ (forall e, ~ In (EvBatchError Writer e) (hist (wr st)))
  /\ (forall e, pc (wr st) = PReturned (Some e) ->
        (exists c, gctx st = Some c /\ e = ErrCtx c)
        \/ (exists e', e = ErrWrap "writer DDL: " e'
                       /\ forall i, ~ In (EvRound Writer i) (hist (wr st)))).
Proof.
  apply (writer_query_errors_only_logged budget_cfg budget_run budget_state).
  vm_compute. reflexivity.
Defined.

(** In that run the upsert failed and the writer still returned nil. *)
Example budget_writer_history :
  hist (wr budget_state)
  = [EvReturn Writer None; EvDone Writer; EvBarrier Writer 0;
     EvMemberReturn Writer 0 0 None;
     EvQueryError Writer (ErrPool "restart transaction");
     EvLaunch Writer 0 0; EvRound Writer 0;
     EvEnsuring; EvStarted Writer].
Proof. vm_compute. reflexivity. Qed.

(** *** When [run] succeeds *)

(** [g.Wait()] gives nil only when both goroutines returned nil. *)
Lemma gWait_nil cfg acts st :
  exec cfg acts init = Some st -> gWait st = Some None ->
  pc (rd st) = PReturned None /\ pc (wr st) = PReturned None.
Proof.
  intros Hex Hw. unfold gWait in Hw.
  destruct (pc (rd st)) as [| | | | | |rr] eqn:Hr; try discriminate Hw.
  destruct (pc (wr st)) as [| | | | | |rw] eqn:Hwr; try discriminate Hw.
  injection Hw as Hg.
  destruct (reachable_verdict _ _ _ Hex) as [_ _ _ H4].
  pose proof (H4 Hg Reader) as HR. pose proof (H4 Hg Writer) as HW.
  cbn [stream] in HR, HW. rewrite Hr in HR. rewrite Hwr in HW.
  destruct rr as [e|]; [destruct (HR e eq_refl)|].
  destruct rw as [e|]; [destruct (HW e eq_refl)|]. auto.
Qed.

End RunSpec.

(** ** How [main] ends *)

Module MainExitSpec.

Import Main Workload Orchestrator Invariant WorkloadSpec Census CensusSpec
       Verdict VerdictSpec RunSpec Demo Runs Setup MainFacts.
Local Open Scope list_scope.

Section WithParser.

Variable url_Parse : string -> option URL.

(** Once the flags are parsed, [main] ends with status 0 only if
    DATABASE_URL was not empty, every library call of the set-up
    succeeded, and both goroutines returned nil after all their rounds:
    [Iterations * ReaderConc] reads and [Iterations * WriterConc] upserts
    were started and have returned; "workload complete" is then logged and
    the writer pool, the reader pool and the poller are released, in this
    order. *)
Lemma main_parsed_exit_zero (fl : Flags) (getenv : string) (w : World)
        (fx : list Effect) :
  main url_Parse fl getenv w = (fx, Some 0) ->
  let cfg := parseFlags fl getenv in
  getenv <> ""%string
  /\ parseConfig_err w = None /\ newNodeHealthChecker_err w = None
  /\ newReaderPool_err w = None /\ newWriterPool_err w = None
  /\ exists st,
       exec cfg (schedule w) init = Some st
       /\ pc (rd st) = PReturned None /\ pc (wr st) = PReturned None
       /\ count is_member_return (hist (rd st))
          = Iterations cfg * ReaderConc cfg
       /\ count is_member_return (hist (wr st))
          = Iterations cfg * WriterConc cfg
       /\ fx = [FxLogConfig cfg (loggedWriterMax cfg)
                             (redactedDSNInfo url_Parse (DSN cfg));
                 FxParsePoolConfig (DSN cfg);
                 FxNewNodeHealthChecker (DSN cfg); FxGoPoll;
                 FxNewRetryPool "reader" (readerPoolMaxConns cfg);
                 FxNewRetryPool "writer" (writerPoolMaxConns cfg);
                 FxLogStarting;
                 FxWorkload (rev (hist (rd st))) (rev (hist (wr st)));
                 FxLogComplete; FxPoolClose "writer"; FxPoolClose "reader";
                 FxCancelPoll].
Proof.
  intros Hm cfg.
  destruct (parseFlags_positive fl getenv) as (HN & HRC & HWC).
  pose proof (parseFlags_DSN fl getenv) as Hdsn.
  unfold main in Hm. fold cfg in Hm, HN, HRC, HWC, Hdsn.
  clearbody cfg.
  destruct (validateConfig cfg) as [err|] eqn:Hv; [discriminate Hm|].
  split.
  { intros ->. unfold validateConfig in Hv. rewrite Hdsn in Hv.
    discriminate Hv. }
  unfold run in Hm.
  destruct (parseConfig_err w); [discriminate Hm|].
  destruct (newNodeHealthChecker_err w); [discriminate Hm|].
  destruct (newReaderPool_err w); [discriminate Hm|].
  destruct (newWriterPool_err w); [discriminate Hm|].
  do 4 (split; [reflexivity|]).
  destruct (exec cfg (schedule w) init) as [st|] eqn:Hex; [|discriminate Hm].
  destruct (gWait st) as [[e|]|] eqn:Hw; try discriminate Hm.
  injection Hm as <-.
  destruct (gWait_nil _ _ _ Hex Hw) as [Hr Hwr].
  pose proof (query_budget_facts cfg (schedule w) st Reader Hex) as HbR.
  pose proof (query_budget_facts cfg (schedule w) st Writer Hex) as HbW.
  cbn [stream conc] in HbR, HbW.
  rewrite (trips_pos (Iterations cfg)) in HbR, HbW by assumption.
  rewrite (trips_pos (ReaderConc cfg)) in HbR by assumption.
  rewrite (trips_pos (WriterConc cfg)) in HbW by assumption.
  exists st. split; [reflexivity|].
  split; [exact Hr|]. split; [exact Hwr|].
  split; [apply HbR; exact Hr|]. split; [apply HbW; exact Hwr|].
  reflexivity.
Qed.

(** X5. Exit status 0.  The process ends with status 0 in two cases only.
    Either the command line asks for help: [flag.Parse] prints the usage
    and exits, and nothing else is done, whatever DATABASE_URL holds.  Or
    the flags are parsed, DATABASE_URL is not empty, every library call of
    the set-up succeeded, and both goroutines returned nil after all their
    rounds: [Iterations * ReaderConc] reads and [Iterations * WriterConc]
    upserts were started and have returned; "workload complete" is then
    logged and the writer pool, the reader pool and the poller are
    released, in this order. *)
Theorem main_exit_zero (args : Program.CommandLine) (getenv : string) (w : World)
        (out : list Program.Output) :
  Program.main url_Parse args getenv w = (out, Some 0) ->
  (args = Program.Help /\ out = [Program.OutUsage])
  \/ exists fl,
       args = Program.Parsed fl
       /\ let cfg := parseFlags fl getenv in
          getenv <> ""%string
          /\ parseConfig_err w = None /\ newNodeHealthChecker_err w = None
          /\ newReaderPool_err w = None /\ newWriterPool_err w = None
          /\ exists st,
               exec cfg (schedule w) init = Some st
               /\ pc (rd st) = PReturned None /\ pc (wr st) = PReturned None
               /\ count is_member_return (hist (rd st))
                  = Iterations cfg * ReaderConc cfg
               /\ count is_member_return (hist (wr st))
                  = Iterations cfg * WriterConc cfg
               /\ out = map Program.OutEffect
                        [FxLogConfig cfg (loggedWriterMax cfg)
                                     (redactedDSNInfo url_Parse (DSN cfg));
                         FxParsePoolConfig (DSN cfg);
                         FxNewNodeHealthChecker (DSN cfg); FxGoPoll;
                         FxNewRetryPool "reader" (readerPoolMaxConns cfg);
                         FxNewRetryPool "writer" (writerPoolMaxConns cfg);
                         FxLogStarting;
                         FxWorkload (rev (hist (rd st))) (rev (hist (wr st)));
                         FxLogComplete; FxPoolClose "writer";
                         FxPoolClose "reader"; FxCancelPoll].
Proof.
  intros Hm. destruct args as [fl| |]; cbn [Program.main] in Hm.
  - right. exists fl. split; [reflexivity|].
    destruct (Orchestrator.main url_Parse fl getenv w) as [fx status] eqn:Hmain.
    injection Hm as <- ->.
    destruct (main_parsed_exit_zero fl getenv w fx Hmain)
      as (Hdsn & H1 & H2 & H3 & H4 & st & Hex & Hr & Hw & Hcr & Hcw & ->).
    do 5 (split; [assumption|]).
    exists st. do 5 (split; [assumption|]). reflexivity.
  - left. injection Hm as <-. auto.
  - discriminate Hm.
Qed.

(** X6. A failing set-up is fatal.  With a DSN in the environment, when
    parsing the pool configuration, creating the health checker or
    creating one of the two pools fails, [main] ends with status 1 and its
    last effect is [log.Fatal] of that call's error, wrapped with the
    prefix of the call; the workload is never started; the poller, once
    started, is cancelled, and the reader pool is closed when the writer
    pool was attempted. *)
Theorem setup_failure_is_fatal (fl : Flags) (getenv : string) (w : World) :
  getenv <> ""%string ->
  parseConfig_err w <> None \/ newNodeHealthChecker_err w <> None
  \/ newReaderPool_err w <> None \/ newWriterPool_err w <> None ->
  exists fx prefix e,
    main url_Parse fl getenv w
    = (fx ++ [FxFatal (ErrRun (ErrWrap prefix e))], Some 1)
    /\ In (prefix, Some e)
          [("parse config: "%string, parseConfig_err w);
           ("create health tracker: "%string, newNodeHealthChecker_err w);
           ("create reader pool: "%string, newReaderPool_err w);
           ("create writer pool: "%string, newWriterPool_err w)]
    /\ forallb (fun x => negb (of_workload x)) fx = true
    /\ (In FxGoPoll fx -> In FxCancelPoll fx)
    /\ (In (FxNewRetryPool "writer"
              (writerPoolMaxConns (parseFlags fl getenv))) fx ->
        In (FxPoolClose "reader") fx).
Proof.
  intros Hdsn Hfail. unfold main.
  rewrite (validateConfig_parseFlags fl getenv Hdsn).
  generalize (parseFlags fl getenv). intros cfg. unfold run.
  destruct (parseConfig_err w) as [e|].
  { eexists _, _, e. split; [reflexivity|]. cbn.
    split; [auto|]. split; [reflexivity|].
    split; intros H; decompose [or] H; discriminate || contradiction. }
  destruct (newNodeHealthChecker_err w) as [e|].
  { eexists _, _, e. split; [reflexivity|]. cbn.
    split; [auto|]. split; [reflexivity|].
    split; intros H; decompose [or] H; discriminate || contradiction. }
  destruct (newReaderPool_err w) as [e|].
  { eexists _, _, e. split; [reflexivity|]. cbn.
    split; [auto 6|]. split; [reflexivity|].
    split; [intros _; auto 10|].
    intros H; decompose [or] H; discriminate || contradiction. }
  destruct (newWriterPool_err w) as [e|].
  { eexists _, _, e. split; [reflexivity|]. cbn.
    split; [auto 6|]. split; [reflexivity|].
    split; intros _; auto 10. }
  exfalso. decompose [or] Hfail; congruence.
Qed.

End WithParser.

Lemma main_exit_zero_witness :
  let getenv := "postgres://app@db:26257/bank"%string in
  let args := Program.Parsed budget_flags in
  let out := fst (Program.main table_Parse args getenv budget_world) in
  (args = Program.Help /\ out = [Program.OutUsage])
  \/ exists fl,
       args = Program.Parsed fl
       /\ let cfg := parseFlags fl getenv in
          getenv <> ""%string
          /\ parseConfig_err budget_world = None
          /\ newNodeHealthChecker_err budget_world = None
          /\ newReaderPool_err budget_world = None
          /\ newWriterPool_err budget_world = None
          /\ exists st,
               exec cfg (schedule budget_world) init = Some st
               /\ pc (rd st) = PReturned None /\ pc (wr st) = PReturned None
               /\ count is_member_return (hist (rd st))
                  = Iterations cfg * ReaderConc cfg
               /\ count is_member_return (hist (wr st))
                  = Iterations cfg * WriterConc cfg
               /\ out = map Program.OutEffect
                        [FxLogConfig cfg (loggedWriterMax cfg)
                                     (redactedDSNInfo table_Parse (DSN cfg));
                         FxParsePoolConfig (DSN cfg);
                         FxNewNodeHealthChecker (DSN cfg); FxGoPoll;
                         FxNewRetryPool "reader" (readerPoolMaxConns cfg);
                         FxNewRetryPool "writer" (writerPoolMaxConns cfg);
                         FxLogStarting;
                         FxWorkload (rev (hist (rd st))) (rev (hist (wr st)));
                         FxLogComplete; FxPoolClose "writer";
                         FxPoolClose "reader"; FxCancelPoll].
Proof.
  apply (main_exit_zero table_Parse (Program.Parsed budget_flags)
           "postgres://app@db:26257/bank" budget_world).
  vm_compute. reflexivity.
Defined.

(** [-h] with no DATABASE_URL: the usage, and status 0; a flag that is
    not defined: status 2. *)
Example main_help :
  Program.main table_Parse Program.Help "" budget_world = ([Program.OutUsage], Some 0)
  /\ Program.main table_Parse Program.BadFlag "" budget_world
     = ([Program.OutFlagError; Program.OutUsage], Some 2).
Proof. split; reflexivity. Qed.

Lemma setup_failure_is_fatal_witness :
  let getenv := "postgres://app@db:26257/bank"%string in
  let w := no_writer_world in
  exists fx prefix e,
    main table_Parse flags_r4 getenv w
    = (fx ++ [FxFatal (ErrRun (ErrWrap prefix e))], Some 1)
    /\ In (prefix, Some e)
          [("parse config: "%string, parseConfig_err w);
           ("create health tracker: "%string, newNodeHealthChecker_err w);
           ("create reader pool: "%string, newReaderPool_err w);
           ("create writer pool: "%string, newWriterPool_err w)]
    /\ forallb (fun x => negb (of_workload x)) fx = true
    /\ (In FxGoPoll fx -> In FxCancelPoll fx)
    /\ (In (FxNewRetryPool "writer"
              (writerPoolMaxConns (parseFlags flags_r4 getenv))) fx ->
        In (FxPoolClose "reader") fx).
Proof.
  apply (setup_failure_is_fatal table_Parse flags_r4
           "postgres://app@db:26257/bank"
           no_writer_world).
  - discriminate.
  - right. right. right. discriminate.
Defined.

End MainExitSpec.

(** ** tracer.go: oneLine and the trace hooks *)

Module TracerLogSpec.

Import Tracer TracerLog.
Local Open Scope list_scope.

Lemma space_is_space : unicode_IsSpace space = true.
Proof. reflexivity. Qed.

Lemma newline_is_space : unicode_IsSpace newline = true.
Proof. reflexivity. Qed.

Lemma eqb_space_is_space r : (r =? space) = true -> unicode_IsSpace r = true.
Proof. intros H. apply Z.eqb_eq in H. subst. reflexivity. Qed.

(** *** Fields *)

Lemma fields_from_blank cur s :
  forallb unicode_IsSpace s = true ->
  fields_from cur s = match cur with [] => [] | _ => [rev cur] end.
Proof.
  revert cur. induction s as [|r s IH]; intros cur H; [reflexivity|].
  cbn in H. apply andb_true_iff in H as [Hr Hs].
  cbn [fields_from]. rewrite Hr. destruct cur; rewrite (IH [] Hs); reflexivity.
Qed.

Lemma fields_from_app_blank s : forall cur t,
  forallb unicode_IsSpace t = true ->
  fields_from cur (s ++ t) = fields_from cur s.
Proof.
  induction s as [|r s IH]; intros cur t Ht.
  - cbn [app fields_from]. apply fields_from_blank, Ht.
  - cbn [app fields_from]. destruct (unicode_IsSpace r).
    + destruct cur; rewrite (IH [] t Ht); reflexivity.
    + apply IH, Ht.
Qed.

Lemma fields_trim_left s : fields_from [] (trim_left s) = fields_from [] s.
Proof.
  induction s as [|r s IH]; [reflexivity|].
  cbn [trim_left]. destruct (unicode_IsSpace r) eqn:E.
  - cbn [fields_from]. rewrite E. exact IH.
  - reflexivity.
Qed.

(** A string is white space followed by what [trim_left] keeps. *)
Lemma trim_left_split s :
  exists blank, forallb unicode_IsSpace blank = true
                /\ s = blank ++ trim_left s.
Proof.
  induction s as [|r s (blank & Hb & Hs)]; [exists []; auto|].
  cbn [trim_left]. destruct (unicode_IsSpace r) eqn:E.
  - exists (r :: blank). cbn. rewrite E, Hb. split; [reflexivity|].
    f_equal. exact Hs.
  - exists []. auto.
Qed.

Lemma forallb_rev {A} (f : A -> bool) l :
  forallb f (rev l) = forallb f l.
Proof.
  induction l as [|x l IH]; [reflexivity|].
  cbn [rev forallb]. rewrite forallb_app, IH. cbn. rewrite andb_true_r.
  apply andb_comm.
Qed.

Lemma fields_TrimSpace s : strings_Fields (strings_TrimSpace s) = strings_Fields s.
Proof.
  unfold strings_Fields, strings_TrimSpace.
  destruct (trim_left_split (rev (trim_left s))) as (blank & Hb & Hs).
  assert (Hu : trim_left s
               = rev (trim_left (rev (trim_left s))) ++ rev blank)
    by (rewrite <- rev_app_distr, <- Hs, rev_involutive; reflexivity).
  transitivity (fields_from [] (trim_left s)); [|apply fields_trim_left].
  symmetry. etransitivity; [apply f_equal, Hu|].
  apply fields_from_app_blank. rewrite forallb_rev. exact Hb.
Qed.

Lemma fields_replace_newlines s : forall cur,
  fields_from cur (replace_newlines s) = fields_from cur s.
Proof.
  induction s as [|r s IH]; intros cur; [reflexivity|].
  cbn [replace_newlines map fields_from]. fold (replace_newlines s).
  destruct (Z.eqb_spec r newline) as [-> | Hne].
  - rewrite space_is_space, newline_is_space. destruct cur; rewrite IH; reflexivity.
  - destruct (unicode_IsSpace r); [destruct cur|]; rewrite IH; reflexivity.
Qed.

Lemma oneLine_fields s : oneLine s = join (fields_from [] s) [space].
Proof.
  unfold oneLine. unfold strings_Fields at 1.
  rewrite fields_replace_newlines. fold (strings_Fields (strings_TrimSpace s)).
  rewrite fields_TrimSpace. reflexivity.
Qed.

(** X7. The first two steps of [oneLine] change nothing of its result:
    [strings.Fields] already drops the white space at both ends and treats
    a line feed like any other white space. *)
Theorem oneLine_is_fields_joined (s : list rune) :
  oneLine s = join (strings_Fields s) [space].
Proof.
  unfold oneLine. unfold strings_Fields at 1.
  rewrite fields_replace_newlines.
  fold (strings_Fields (strings_TrimSpace s)).
  rewrite fields_TrimSpace. reflexivity.
Qed.


(** *** Joined fields *)

Lemma ink_not_space r : is_ink r = true -> (r =? space) = false.
Proof.
  unfold is_ink. intros H. destruct (Z.eqb_spec r space) as [-> |]; auto.
Qed.

Lemma fields_from_ok s : forall cur,
  forallb is_ink cur = true -> Forall field_ok (fields_from cur s).
Proof.
  assert (Hrev : forall cur, cur <> [] -> forallb is_ink cur = true ->
                             field_ok (rev cur)).
  { intros cur Hne Hink. split.
    - intros Hr. apply Hne. rewrite <- (rev_involutive cur), Hr. reflexivity.
    - rewrite forallb_rev. exact Hink. }
  induction s as [|r s IH]; intros cur Hink; cbn [fields_from].
  - destruct cur as [|c cur]; constructor; [|constructor].
    apply Hrev; [discriminate | exact Hink].
  - destruct (unicode_IsSpace r) eqn:E.
    + destruct cur as [|c cur]; [apply IH; reflexivity|].
      constructor; [apply Hrev; [discriminate | exact Hink] | apply IH; reflexivity].
    + apply IH. cbn [forallb]. unfold is_ink at 1. rewrite E. exact Hink.
Qed.

Lemma join_cons f fs :
  fs <> [] -> join (f :: fs) [space] = f ++ space :: join fs [space].
Proof. destruct fs; [contradiction | reflexivity]. Qed.

Lemma single_spaced_field f t gap :
  field_ok f -> single_spaced gap (f ++ t) = single_spaced false t.
Proof.
  intros [Hne Hink]. revert gap. induction f as [|r f IH]; [contradiction|].
  intros gap. cbn in Hink. apply andb_true_iff in Hink as [Hr Hf].
  cbn [app single_spaced]. rewrite (ink_not_space r Hr).
  unfold is_ink in Hr. rewrite Hr. cbn [andb].
  destruct f as [|r' f]; [reflexivity|]. apply IH; [discriminate | exact Hf].
Qed.

Lemma single_spaced_join fs :
  fs <> [] -> Forall field_ok fs ->
  single_spaced true (join fs [space]) = true.
Proof.
  induction fs as [|f fs IH]; [contradiction|]. intros _ Hall.
  inversion Hall as [|? ? Hf Hfs]; subst.
  destruct fs as [|g fs].
  - cbn [join]. rewrite <- (app_nil_r f), single_spaced_field by exact Hf.
    reflexivity.
  - rewrite join_cons by discriminate.
    rewrite single_spaced_field by exact Hf.
    cbn [single_spaced]. rewrite Z.eqb_refl. cbn [negb andb].
    apply IH; [discriminate | exact Hfs].
Qed.

Lemma oneLine_normal s : one_line (oneLine s) = true.
Proof.
  rewrite oneLine_fields.
  pose proof (fields_from_ok s [] eq_refl) as Hall.
  destruct (fields_from [] s) as [|f fs] eqn:E; [reflexivity|].
  unfold one_line.
  rewrite (single_spaced_join (f :: fs)) by (discriminate || exact Hall).
  destruct (join (f :: fs) [space]); reflexivity.
Qed.

(** In a string that is single-spaced the only white space is the
    space. *)
Lemma single_spaced_only_space s : forall gap,
  single_spaced gap s = true ->
  forall r, In r s -> unicode_IsSpace r = true -> r = space.
Proof.
  induction s as [|c s IH]; intros gap H r Hin Hsp; [destruct Hin|].
  cbn [single_spaced] in H.
  destruct (Z.eqb_spec c space) as [-> | Hne].
  - apply andb_true_iff in H as [_ H].
    destruct Hin as [<- | Hin]; [reflexivity | exact (IH _ H r Hin Hsp)].
  - apply andb_true_iff in H as [Hc H].
    destruct Hin as [<- | Hin]; [|exact (IH _ H r Hin Hsp)].
    rewrite Hsp in Hc. discriminate Hc.
Qed.

(** X8. The result of [oneLine] is in one line: single spaces between its
    words and none at either end; the space is the only white space left
    in it, so it holds no line feed, carriage return or tab. *)
Theorem oneLine_one_line (s : list rune) :
  one_line (oneLine s) = true
  /\ (forall r, In r (oneLine s) -> unicode_IsSpace r = true -> r = space)
  /\ ~ In newline (oneLine s).
Proof.
  pose proof (oneLine_normal s) as H.
  assert (Hsp : forall r, In r (oneLine s) -> unicode_IsSpace r = true ->
                          r = space).
  { unfold one_line in H. destruct (oneLine s) as [|c t] eqn:E.
    - intros r [].
    - exact (single_spaced_only_space (c :: t) true H). }
  split; [exact H|]. split; [exact Hsp|].
  intros Hin. specialize (Hsp newline Hin newline_is_space). discriminate Hsp.
Qed.

Lemma join_nil_iff fs :
  Forall field_ok fs -> join fs [space] = [] -> fs = [].
Proof.
  intros Hall Hj. destruct fs as [|f fs]; [reflexivity|].
  inversion Hall as [|? ? [Hne _] _]; subst.
  destruct fs; cbn [join] in Hj; [contradiction|].
  destruct f; [contradiction | discriminate].
Qed.

Lemma join_fields_fixed s : forall cur,
  forallb is_ink cur = true ->
  single_spaced (match cur with [] => true | _ => false end) s = true ->
  join (fields_from cur s) [space] = rev cur ++ s.
Proof.
  induction s as [|r s IH]; intros cur Hink Hs.
  - destruct cur; [discriminate Hs|]. cbn [fields_from join].
    rewrite app_nil_r. reflexivity.
  - cbn [single_spaced] in Hs. cbn [fields_from].
    destruct (Z.eqb_spec r space) as [-> | Hne].
    + apply andb_true_iff in Hs as [Hgap Hs].
      destruct cur as [|c cur]; [discriminate Hgap|].
      rewrite space_is_space.
      pose proof (IH [] eq_refl Hs) as Hj. cbn [rev app] in Hj.
      rewrite join_cons.
      * rewrite Hj. reflexivity.
      * intros Hnil. rewrite Hnil in Hj. cbn in Hj. subst s. discriminate Hs.
    + apply andb_true_iff in Hs as [Hr Hs].
      apply negb_true_iff in Hr. rewrite Hr.
      rewrite (IH (r :: cur)).
      * cbn [rev]. rewrite <- app_assoc. reflexivity.
      * cbn [forallb]. unfold is_ink at 1. rewrite Hr. exact Hink.
      * exact Hs.
Qed.

(** X9. The strings [oneLine] leaves as they are are exactly those in one
    line; so applying it twice is the same as applying it once. *)
Theorem oneLine_fixed_points (s : list rune) :
  (oneLine s = s <-> one_line s = true)
  /\ oneLine (oneLine s) = oneLine s.
Proof.
  assert (Hfix : forall t, one_line t = true -> oneLine t = t).
  { intros t Ht. rewrite oneLine_fields.
    destruct t as [|r t]; [reflexivity|].
    apply (join_fields_fixed (r :: t) [] eq_refl). exact Ht. }
  split; [split|].
  - intros <-. apply oneLine_normal.
  - apply Hfix.
  - apply Hfix, oneLine_normal.
Qed.

(** *** What is kept *)

Lemma ink_app s t : ink (s ++ t) = ink s ++ ink t.
Proof. apply List.filter_app. Qed.

Lemma ink_id s : forallb is_ink s = true -> ink s = s.
Proof. apply forallb_filter_id. Qed.

Lemma ink_join f fs :
  ink (join (f :: fs) [space]) = ink f ++ ink (join fs [space]).
Proof.
  destruct fs as [|g fs]; [cbn [join]; cbn; rewrite app_nil_r; reflexivity|].
  rewrite join_cons by discriminate. rewrite ink_app. reflexivity.
Qed.

Lemma ink_fields s : forall cur,
  forallb is_ink cur = true ->
  ink (join (fields_from cur s) [space]) = rev cur ++ ink s.
Proof.
  assert (Hrev : forall cur, forallb is_ink cur = true -> ink (rev cur) = rev cur)
    by (intros cur H; apply ink_id; rewrite forallb_rev; exact H).
  induction s as [|r s IH]; intros cur Hink; cbn [fields_from].
  - destruct cur as [|c cur]; [reflexivity|]. cbn [join]. cbn [ink List.filter].
    rewrite app_nil_r. apply (Hrev (c :: cur) Hink).
  - unfold ink at 2. cbn [List.filter]. fold (ink s).
    destruct (unicode_IsSpace r) eqn:E; cbn [negb].
    + destruct cur as [|c cur]; [apply (IH [] eq_refl)|].
      rewrite ink_join, (IH [] eq_refl), (Hrev (c :: cur) Hink). reflexivity.
    + rewrite (IH (r :: cur)).
      * cbn [rev]. rewrite <- app_assoc. reflexivity.
      * cbn [forallb]. unfold is_ink at 1. rewrite E. exact Hink.
Qed.

Lemma oneLine_keeps_ink_aux s : ink (oneLine s) = ink s.
Proof. rewrite oneLine_fields. apply (ink_fields s [] eq_refl). Qed.

(** X10. [oneLine] neither drops, nor changes, nor reorders a rune that is
    not white space. *)
Theorem oneLine_keeps_ink (s : list rune) : ink (oneLine s) = ink s.
Proof.
  rewrite oneLine_fields.
  rewrite (ink_fields s [] eq_refl). reflexivity.
Qed.

Lemma ink_nil_iff s : ink s = [] <-> forallb unicode_IsSpace s = true.
Proof.
  induction s as [|r s IH]; [cbn; tauto|].
  unfold ink. cbn [List.filter forallb]. fold (ink s).
  destruct (unicode_IsSpace r); cbn [negb andb]; [exact IH|].
  split; discriminate.
Qed.

(** X11. [oneLine] gives the empty string exactly for the strings made of
    white space only, among them the empty one. *)
Theorem oneLine_empty_iff_blank (s : list rune) :
  oneLine s = [] <-> forallb unicode_IsSpace s = true.
Proof.
  split.
  - intros H. apply ink_nil_iff. rewrite <- oneLine_keeps_ink_aux, H.
    reflexivity.
  - intros H. rewrite oneLine_fields.
    rewrite fields_from_blank by exact H. reflexivity.
Qed.

(** "  select\n\t now()  " *)
Example oneLine_select_now :
  oneLine [32; 32; 115; 101; 108; 101; 99; 116; 10; 9; 32;
           110; 111; 119; 40; 41; 32; 32]
  = [115; 101; 108; 101; 99; 116; 32; 110; 111; 119; 40; 41].
Proof. reflexivity. Qed.


(** *** The trace hooks *)

Section Hooks.

Variable Any : Type.
Variable json_Marshal : Any -> option string.
Variable Err : Type.

(** Values under other keys do not hide the start of the query. *)
Lemma ctx_Value_others (inner : Context) (ctx : Context) :
  forallb (fun kv => negb (CtxKey_eqb (fst kv) traceStartKey)) inner = true ->
  ctx_Value (inner ++ ctx) traceStartKey = ctx_Value ctx traceStartKey.
Proof.
  induction inner as [|[k v] inner IH]; [reflexivity|].
  cbn [forallb fst app ctx_Value]. intros H.
  apply andb_true_iff in H as [Hk Hi]. apply negb_true_iff in Hk.
  rewrite Hk. apply IH, Hi.
Qed.

Lemma line_dur_End wall mono ctx conn (data : TraceQueryEndData Err) :
  line_dur Err (TraceQueryEnd Err wall mono ctx conn data)
  = Some (time_Since wall mono
            match ctx_Value ctx traceStartKey with
            | Some (traceStart t) => t
            | _ => TimeZero
            end).
Proof. unfold TraceQueryEnd. destruct (EndErr Err data); reflexivity. Qed.

(** X12. The duration of a query.  [TraceQueryEnd], given the context
    [TraceQueryStart] returned, possibly wrapped in values under other
    keys, reports the monotonic clock at the end minus the monotonic clock
    at the start (cut to the range of a duration), whatever the context
    held before, the start of an outer query included, and whether the
    query failed or not; the wall clock plays no part.  As long as the
    monotonic clock went on by less than [2 ^ 63] nanoseconds, this is the
    exact difference. *)
Theorem trace_duration_round_trip
        (wall0 mono0 wall1 mono1 : Z) (ctx inner : Context)
        (conn conn' : option Conn) (start : TraceQueryStartData Any)
        (fin : TraceQueryEndData Err) :
  forallb (fun kv => negb (CtxKey_eqb (fst kv) traceStartKey)) inner = true ->
  let ctx' := snd (TraceQueryStart Any json_Marshal Err (TimeNow wall0 mono0)
                                   ctx conn start) in
  let dur := line_dur Err (TraceQueryEnd Err wall1 mono1 (inner ++ ctx')
                                         conn' fin) in
  dur = Some (saturate (mono1 - mono0))
  /\ (mono0 <= mono1 < mono0 + 2 ^ 63 -> dur = Some (mono1 - mono0)).
Proof.
  intros Hinner ctx' dur.
  assert (Hdur : dur = Some (saturate (mono1 - mono0))).
  { unfold dur. rewrite line_dur_End.
    rewrite ctx_Value_others by exact Hinner. reflexivity. }
  split; [exact Hdur|].
  intros Hmono. rewrite Hdur. f_equal.
  unfold saturate, minDuration, maxDuration.
  destruct (Z.ltb_spec (mono1 - mono0) (- 2 ^ 63)); [lia|].
  destruct (Z.ltb_spec (2 ^ 63 - 1) (mono1 - mono0)); [lia|].
  reflexivity.
Qed.

(** X13. No start in the context.  When the context carries no start of a
    query, [TraceQueryEnd] takes the zero time for it and reports the time
    since then on the wall clock: the largest duration, as soon as the
    wall clock is [2 ^ 63] nanoseconds (about 292 years) past the zero
    time. *)
Theorem trace_end_without_start
        (wall mono : Z) (ctx : Context) (conn : option Conn)
        (fin : TraceQueryEndData Err) :
  ctx_Value ctx traceStartKey = None ->
  2 ^ 63 <= wall ->
  line_dur Err (TraceQueryEnd Err wall mono ctx conn fin) = Some maxDuration.
Proof.
  intros Hctx Hwall. rewrite line_dur_End, Hctx. cbn [time_Since].
  unfold saturate, minDuration, maxDuration.
  destruct (Z.ltb_spec (wall - 0) (- 2 ^ 63)); [lia|].
  destruct (Z.ltb_spec (2 ^ 63 - 1) (wall - 0)); [reflexivity | lia].
Qed.

End Hooks.

Lemma trace_duration_round_trip_witness :
  let ctx' := snd (TraceQueryStart (option string) Demo.sample_Marshal string
                     (TimeNow Runs.wall_start 5000000) Runs.outer_ctx None
                     Runs.sample_start) in
  let dur := line_dur string
               (TraceQueryEnd string Runs.wall_end 5250000
                  ([(otherKey 1, otherValue 7)] ++ ctx') None
                  Runs.sample_end) in
  dur = Some (saturate (5250000 - 5000000))
  /\ (5000000 <= 5250000 < 5000000 + 2 ^ 63 ->
      dur = Some (5250000 - 5000000)).
Proof.
  apply (trace_duration_round_trip (option string) Demo.sample_Marshal string
           Runs.wall_start 5000000 Runs.wall_end 5250000 Runs.outer_ctx
           [(otherKey 1, otherValue 7)] None None Runs.sample_start
           Runs.sample_end).
  reflexivity.
Defined.

Lemma trace_end_without_start_witness :
  line_dur string
    (TraceQueryEnd string Runs.wall_end 5250000 [(otherKey 1, otherValue 7)]
       None Runs.sample_end)
  = Some maxDuration.
Proof.
  apply (trace_end_without_start string Runs.wall_end 5250000
           [(otherKey 1, otherValue 7)] None Runs.sample_end).
  - reflexivity.
  - unfold Runs.wall_end. lia.
Defined.

(** [outer_ctx] holds the start of an outer query, three milliseconds of
    monotonic time earlier; without the inner start that one is
    measured. *)
Example outer_start_measured :
  line_dur string
    (TraceQueryEnd string Runs.wall_end 5250000 Runs.outer_ctx None
       Runs.sample_end)
  = Some (5250000 - 2000000).
Proof. reflexivity. Qed.

End TracerLogSpec.

(** ** The earlier main.go *)

Module LegacySpec.

Import GoInt GoIntFacts Main Legacy MainFacts.

(** A field of what [parseFlags] builds, read through the overrides. *)
Ltac through_overrides f :=
  unfold parseFlags;
  repeat first
    [ rewrite (override1_other f) by (intros; reflexivity)
    | rewrite (override2_other f) by (intros; reflexivity)
    | rewrite (override2_same f) by (intros; reflexivity) ];
  reflexivity.

(** The six settings both versions have are merged alike. *)
Lemma merge_parseFlags (fl : Flags) (getenv : string) :
  let s := merge fl in
  let cfg := parseFlags fl getenv in
  iterations s = Iterations cfg /\ timeout s = Timeout cfg
  /\ readerMax s = ReaderMax cfg /\ writerMax s = WriterMax cfg
  /\ readerSleep s = ReaderSleep cfg /\ writerSleep s = WriterSleep cfg.
Proof.
  cbv zeta. unfold merge. cbn [iterations timeout readerMax writerMax
                                readerSleep writerSleep].
  split; [symmetry; through_overrides Iterations|].
  split; [symmetry; through_overrides Timeout|].
  split; [symmetry; through_overrides ReaderMax|].
  split; [symmetry; through_overrides WriterMax|].
  split; [symmetry; through_overrides ReaderSleep|].
  symmetry; through_overrides WriterSleep.
Qed.

(** X14. The pool sizes of the two versions.  On the same flags the earlier
    main.go and the present one give the reader pool the same [MaxConns],
    whatever the flags; they give the writer pool the same [MaxConns] when
    writer-max-conns is given, or when the reader maximum fits [int32].
    The earlier version divides after the conversion to [int32], the
    present one before. *)
Theorem legacy_pool_sizes (fl : Flags) (getenv : string) :
  let cfg := parseFlags fl getenv in
  readerCfg_MaxConns (merge fl) = readerPoolMaxConns cfg
  /\ (0 < WriterMax cfg \/ in_int32 (ReaderMax cfg) ->
      writerCfg_MaxConns (merge fl) = writerPoolMaxConns cfg).
Proof.
  intros cfg.
  destruct (merge_parseFlags fl getenv) as (_ & _ & HR & HW & _).
  cbv zeta in HR, HW. fold cfg in HR, HW.
  unfold readerCfg_MaxConns, writerCfg_MaxConns, readerPoolMaxConns,
    writerPoolMaxConns, deriveWriterMax, readerCfg_MaxConns.
  rewrite HR, HW. split; [reflexivity|].
  intros Hcase.
  destruct (Z.ltb_spec 0 (WriterMax cfg)) as [Hw | Hw]; [reflexivity|].
  destruct Hcase as [Hpos | Hr]; [lia|].
  set (r := ReaderMax cfg) in *.
  rewrite (int32_id r) by exact Hr.
  assert (Hq : in_int32 (r ÷ 3)).
  { unfold in_int32 in *.
    pose proof (Z.quot_rem' r 3). pose proof (Z.rem_bound_abs r 3).
    destruct (Z_le_gt_dec 0 r).
    - pose proof (Z.rem_nonneg r 3). lia.
    - pose proof (Z.rem_nonpos r 3). lia. }
  rewrite (int32_id (r ÷ 3)) by exact Hq.
  destruct (Z.ltb_spec (r ÷ 3) 1); [reflexivity|].
  symmetry. apply int32_id. exact Hq.
Qed.

Lemma legacy_pool_sizes_witness :
  let cfg := parseFlags Demo.flags_r4 "postgres://app@db:26257/bank" in
  readerCfg_MaxConns (merge Demo.flags_r4) = readerPoolMaxConns cfg
  /\ writerCfg_MaxConns (merge Demo.flags_r4) = writerPoolMaxConns cfg.
Proof.
  destruct (legacy_pool_sizes Demo.flags_r4 "postgres://app@db:26257/bank")
    as [Hreader Hwriter].
  split; [exact Hreader|]. apply Hwriter. right.
  unfold in_int32. vm_compute. split; [discriminate | reflexivity].
Defined.

(** Past [int32] the two differ: with [-r 6442450944] (three times
    [2 ^ 31]) the reader pools agree on [MaxConns] [- 2 ^ 31]; the earlier
    version opens one writer connection, the present one asks for
    [- 2 ^ 31]. *)
Example pool_sizes_differ :
  let fl := mkFlags 0 0 0 0 6442450944 0 0 0 0 0 0 0 0 0 in
  readerCfg_MaxConns (merge fl) = - 2 ^ 31
  /\ readerPoolMaxConns (parseFlags fl "x") = - 2 ^ 31
  /\ writerCfg_MaxConns (merge fl) = 1
  /\ writerPoolMaxConns (parseFlags fl "x") = - 2 ^ 31.
Proof. vm_compute. repeat split; reflexivity. Qed.

End LegacySpec.

(** ** The example program *)

Module ExampleSpec.

Import Example.
Local Open Scope list_scope.

Section Main.

Variable Err : Type.
Variable Stamp : Type.

Local Abbreviation World := (World Err Stamp).
Local Abbreviation Output := (Output Err Stamp).


Lemma loop_first_error (w : World) (stamp : Z -> Stamp) (e : Err)
      (k todo : nat) (i : Z) :
  (k < todo)%nat ->
  (forall j, i <= j < i + Z.of_nat k -> query _ _ w j = inl (stamp j)) ->
  query _ _ w (i + Z.of_nat k) = inr e ->
  loop _ _ w todo i = (pings _ _ stamp i k ++ [PrQueryError _ _ e], true).
Proof.
  revert todo i. induction k as [|k IH]; intros todo i Hk Hok He.
  - destruct todo as [|todo]; [lia|]. cbn [loop pings app].
    replace (i + Z.of_nat 0) with i in He by lia. rewrite He. reflexivity.
  - destruct todo as [|todo]; [lia|]. cbn [loop pings app].
    rewrite (Hok i) by lia.
    rewrite (IH todo (i + 1)).
    + reflexivity.
    + lia.
    + intros j Hj. apply Hok. lia.
    + replace (i + 1 + Z.of_nat k) with (i + Z.of_nat (S k)) by lia.
      exact He.
Qed.


(** X15. The first failing ping ends the example.  When the set-up succeeds
    and query number [k + 1] of the hundred is the first that fails, the
    program prints the pings 1 to [k] and the error of that query, and
    exits with status 1: no later query is made, and neither the pool is
    closed nor the poller cancelled. *)
Theorem example_first_error (dsn : string) (w : World)
        (stamp : Z -> Stamp) (e : Err) (k : nat) :
  setup_ok _ _ dsn w ->
  (k < 100)%nat ->
  (forall j, 0 <= j < Z.of_nat k -> query _ _ w j = inl (stamp j)) ->
  query _ _ w (Z.of_nat k) = inr e ->
  main _ _ dsn w
  = ([DoNewNodeHealthChecker _ _; DoGoPoll _ _; DoParseConfig _ _;
      DoNewRetryPool _ _]
       ++ pings _ _ stamp 0 k ++ [PrQueryError _ _ e], 1)
  /\ forallb (fun o => negb (releases _ _ o)) (fst (main _ _ dsn w)) = true.
Proof.
  intros (Hdsn & Hh & Hp & Hr) Hk Hok He.
  assert (Hm : main _ _ dsn w
     = ([DoNewNodeHealthChecker _ _; DoGoPoll _ _; DoParseConfig _ _;
         DoNewRetryPool _ _]
          ++ pings _ _ stamp 0 k ++ [PrQueryError _ _ e], 1)).
  { unfold main. destruct (String.eqb_spec dsn ""); [contradiction|].
    rewrite Hh, Hp, Hr.
    rewrite (loop_first_error w stamp e k 100 0 Hk) by (try apply Hok; assumption).
    reflexivity. }
  split; [exact Hm|]. rewrite Hm. cbn [fst app forallb releases negb andb].
  rewrite forallb_app. cbn [forallb releases negb andb].
  rewrite andb_true_r.
  clear. generalize 0. induction k as [|k IH]; intros i; [reflexivity|].
  cbn [pings forallb releases negb andb]. apply IH.
Qed.


End Main.

Lemma example_first_error_witness :
  let dsn := "postgres://app@db:26257/bank"%string in
  main string Z dsn Runs.ping_world
  = ([DoNewNodeHealthChecker _ _; DoGoPoll _ _; DoParseConfig _ _;
      DoNewRetryPool _ _]
       ++ pings string Z Runs.ping_stamp 0 2
       ++ [PrQueryError string Z "conn reset"%string], 1)
  /\ forallb (fun o => negb (releases string Z o))
             (fst (main string Z dsn Runs.ping_world)) = true.
Proof.
  apply (example_first_error string Z "postgres://app@db:26257/bank"
           Runs.ping_world Runs.ping_stamp "conn reset"%string 2).
  - unfold setup_ok. cbn. repeat split; discriminate || reflexivity.
  - lia.
  - intros j Hj. unfold Runs.ping_world, Runs.ping_stamp. cbn.
    destruct (Z.ltb_spec j 2); [reflexivity | lia].
  - reflexivity.
Defined.

End ExampleSpec.
